(** * GPU-assisted sector visibility prioritizer

    A shallow embedding of [GpuOrderSectorsByVisibilityCoverage]
    (viewer/src/datamodels/cad/sector/culling/OrderSectorsByVisibilityCoverage.ts)
    and the properties of its id space, proxy builder and visibility
    aggregator.

    Conventions of the embedding.
    - JavaScript numbers that hold counts, indices, ids and bytes are [nat];
      numbers that hold fractions (weights, priorities, coverage factors,
      matrix entries) are real numbers: IEEE rounding is idealised away.
    - A [Uint8Array] is a [list byte]; a typed-array write out of range does
      nothing, which is what stdpp's list insert does.
    - The sparse JavaScript array [sectorVisibilityBuffer] is a list of
      optional entries ([None] is a hole); a write past the end extends it.
    - The JavaScript [Map] of containers is an association list in insertion
      order with unique keys.
    - Three.js objects shared between the scene and the containers live in an
      object store and are referred to by their index.
    - The GPU is an oracle: the bytes it renders are an argument of
      [orderSectorsByVisibility]. What a render does to the objects of the
      scene, the update of their world matrices, is part of the state. *)

From Stdlib Require Import Reals Lra Lia Sorted.
From Stdlib Require Import Strings.String Strings.Byte.
From stdpp Require Import base list strings pretty gmap.

(** ** Results of calls that may throw *)

Inductive result (A : Type) : Type :=
| Ok (a : A)
| Throw (message : string).
Arguments Ok {A} a.
Arguments Throw {A} message.

#[global] Instance result_bind : MBind result :=
  fun A B k r =>
    match r with
    | Ok a => k a
    | Throw m => Throw m
    end.

(** ** Three.js values *)

#[global] Instance Rlt_decision (x y : R) : Decision (x < y)%R := Rlt_dec x y.
#[global] Instance Req_decision (x y : R) : Decision (x = y) := Req_EM_T x y.

Definition Vector3 : Type := (R * R * R)%type.

Module Matrix4.
Definition t : Type := list R.

Definition zero : t := replicate 16 0%R.

(** [new THREE.Matrix4()], column-major elements. *)
Definition identity : t :=
  [1; 0; 0; 0;  0; 1; 0; 0;  0; 0; 1; 0;  0; 0; 0; 1]%R.

(** [new THREE.Matrix4().compose(translation, identityRotation, scale)],
    column-major elements. *)
Definition compose (translation scale : Vector3) : t :=
  let '(tx, ty, tz) := translation in
  let '(sx, sy, sz) := scale in
  [sx; 0; 0; 0;  0; sy; 0; 0;  0; 0; sz; 0;  tx; ty; tz; 1]%R.
End Matrix4.

Module Box3.
Record t : Type := { min : Vector3; max : Vector3 }.

Definition isEmpty (b : t) : bool :=
  let '(ax, ay, az) := min b in
  let '(bx, by_, bz) := max b in
  bool_decide (bx < ax)%R || bool_decide (by_ < ay)%R || bool_decide (bz < az)%R.

Definition getCenter (b : t) : Vector3 :=
  if isEmpty b then (0, 0, 0)%R
  else
    let '(ax, ay, az) := min b in
    let '(bx, by_, bz) := max b in
    ((ax + bx) * 0.5, (ay + by_) * 0.5, (az + bz) * 0.5)%R.

Definition getSize (b : t) : Vector3 :=
  if isEmpty b then (0, 0, 0)%R
  else
    let '(ax, ay, az) := min b in
    let '(bx, by_, bz) := max b in
    (bx - ax, by_ - ay, bz - az)%R.
End Box3.

(** ** Model metadata (supplied by the metadata collaborator) *)

Record CoverageFactors : Type := { xy : R; xz : R; yz : R }.

Record FacesFile : Type := { coverageFactors : CoverageFactors }.

Module SectorMetadata.
Record t : Type := { id : nat; bounds : Box3.t; facesFile : FacesFile }.
End SectorMetadata.

Record SectorScene : Type := { getAllSectors : list SectorMetadata.t }.

Module CadModelMetadata.
Record t : Type := { blobUrl : string; modelMatrix : Matrix4.t; scene : SectorScene }.
End CadModelMetadata.

(** ** Proxy geometry *)

Module InstancedMesh.
(** [instanceMatrix] is the mesh's per-instance transform attribute,
    [instanceValues] the interleaved buffer behind the attributes
    [a_sectorId] (1 float) and [a_coverageFactor] (3 floats). *)
Record t : Type := {
  count : nat;
  instanceMatrix : list Matrix4.t;
  instanceValues : list R
}.

Definition setMatrixAt (index : nat) (m : Matrix4.t) (mesh : t) : t :=
  {| count := count mesh;
     instanceMatrix := <[index := m]> (instanceMatrix mesh);
     instanceValues := instanceValues mesh |}.

Definition setValue (index : nat) (v : R) (mesh : t) : t :=
  {| count := count mesh;
     instanceMatrix := instanceMatrix mesh;
     instanceValues := <[index := v]> (instanceValues mesh) |}.
End InstancedMesh.

Module Group.
Record t : Type := {
  matrixAutoUpdate : bool;
  matrix : Matrix4.t;
  matrixWorld : Matrix4.t;
  mesh : InstancedMesh.t
}.
End Group.

(** A reference to an object of the store: its index. *)
Abbreviation ObjRef := nat (only parsing).

Module SectorContainer.
Record t : Type := {
  model : CadModelMetadata.t;
  sectors : list SectorMetadata.t;
  sectorIdOffset : nat;
  renderable : ObjRef
}.
End SectorContainer.

Module SectorVisibility.
Record t : Type := { sectorIdWithOffset : nat; weight : R; distance : nat }.
End SectorVisibility.

Module PrioritizedSectorIdentifier.
Record t : Type := {
  model : CadModelMetadata.t;
  sectorId : nat;
  priority : R;
  depth : nat
}.
End PrioritizedSectorIdentifier.

(** ** The JavaScript [Map], in insertion order *)

Module JsMap.
Section WithValue.
Context {V : Type}.

Fixpoint get (k : string) (m : list (string * V)) : option V :=
  match m with
  | [] => None
  | (k', v) :: m' => if decide (k = k') then Some v else get k m'
  end.

Fixpoint set (k : string) (v : V) (m : list (string * V)) : list (string * V) :=
  match m with
  | [] => [(k, v)]
  | (k', v') :: m' =>
      if decide (k = k') then (k, v) :: m' else (k', v') :: set k v m'
  end.

Fixpoint delete (k : string) (m : list (string * V)) : list (string * V) :=
  match m with
  | [] => []
  | (k', v') :: m' =>
      if decide (k = k') then m' else (k', v') :: delete k m'
  end.

Definition keys (m : list (string * V)) : list string := m.*1.
Definition values (m : list (string * V)) : list V := m.*2.
End WithValue.
End JsMap.

(** ** The prioritizer's state *)

Module WebGLRenderer.
(** [disposeCalls] counts the calls of [dispose()] the renderer received. *)
Record t : Type := {
  clearColor : string;
  localClippingEnabled : bool;
  size : option (nat * nat);
  disposeCalls : nat
}.

Definition dispose (r : t) : t :=
  {| clearColor := clearColor r;
     localClippingEnabled := localClippingEnabled r;
     size := size r;
     disposeCalls := S (disposeCalls r) |}.
End WebGLRenderer.

Module WebGLRenderTarget.
Record t : Type := { width : nat; height : nat; disposeCalls : nat }.
End WebGLRenderTarget.

Module ShaderMaterial.
(** A clip plane is its normal and its constant. *)
Record t : Type := {
  clippingPlanes : option (list (Vector3 * R));
  clipIntersection : bool
}.
End ShaderMaterial.

Record State : Type := {
  sectorIdOffset : nat;
  scene : list ObjRef;
  objects : list Group.t;
  _renderer : WebGLRenderer.t;
  debugRenderer : option WebGLRenderer.t;
  renderTarget : WebGLRenderTarget.t;
  containers : list (string * SectorContainer.t);
  rtBuffer : list byte;
  sectorVisibilityBuffer : list (option SectorVisibility.t);
  coverageMaterial : ShaderMaterial.t
}.

Definition set_registry (f : nat) (sc : list ObjRef) (objs : list Group.t)
    (cs : list (string * SectorContainer.t)) (st : State) : State :=
  {| sectorIdOffset := f; scene := sc; objects := objs;
     _renderer := _renderer st; debugRenderer := debugRenderer st;
     renderTarget := renderTarget st; containers := cs;
     rtBuffer := rtBuffer st;
     sectorVisibilityBuffer := sectorVisibilityBuffer st;
     coverageMaterial := coverageMaterial st |}.

Definition set_buffers (rt : list byte) (sv : list (option SectorVisibility.t))
    (st : State) : State :=
  {| sectorIdOffset := sectorIdOffset st; scene := scene st; objects := objects st;
     _renderer := _renderer st; debugRenderer := debugRenderer st;
     renderTarget := renderTarget st; containers := containers st;
     rtBuffer := rt; sectorVisibilityBuffer := sv;
     coverageMaterial := coverageMaterial st |}.

Definition set_renderers (r : WebGLRenderer.t) (d : option WebGLRenderer.t)
    (st : State) : State :=
  {| sectorIdOffset := sectorIdOffset st; scene := scene st; objects := objects st;
     _renderer := r; debugRenderer := d;
     renderTarget := renderTarget st; containers := containers st;
     rtBuffer := rtBuffer st;
     sectorVisibilityBuffer := sectorVisibilityBuffer st;
     coverageMaterial := coverageMaterial st |}.

Definition set_material (m : ShaderMaterial.t) (st : State) : State :=
  {| sectorIdOffset := sectorIdOffset st; scene := scene st; objects := objects st;
     _renderer := _renderer st; debugRenderer := debugRenderer st;
     renderTarget := renderTarget st; containers := containers st;
     rtBuffer := rtBuffer st;
     sectorVisibilityBuffer := sectorVisibilityBuffer st;
     coverageMaterial := m |}.

(** [constructor(options)]: [renderSize] defaults to 640 x 480. *)
Definition constructor (renderSize : option (nat * nat)) : State :=
  let '(w, h) := default (640, 480) renderSize in
  {| sectorIdOffset := 0; scene := []; objects := [];
     _renderer :=
       {| WebGLRenderer.clearColor := "#FFFFFF";
          WebGLRenderer.localClippingEnabled := true;
          WebGLRenderer.size := None;
          WebGLRenderer.disposeCalls := 0 |};
     debugRenderer := None;
     renderTarget :=
       {| WebGLRenderTarget.width := w; WebGLRenderTarget.height := h;
          WebGLRenderTarget.disposeCalls := 0 |};
     containers := [];
     rtBuffer := [];
     sectorVisibilityBuffer := [];
     coverageMaterial :=
       {| ShaderMaterial.clippingPlanes := None;
          ShaderMaterial.clipIntersection := false |} |}.

(** ** CoverageProxyBuilder *)

(** Modelled from the spec: [toThreeJsBox3] (utilities, outside the source
    under study) fills a [THREE.Box3] with the sector's axis-aligned bounding
    volume; the embedding's boxes already are [min]/[max] corners. *)
Definition toThreeJsBox3 (sectorBounds : Box3.t) : Box3.t := sectorBounds.

(** The local function [addSector] of [createSectorTreeMesh]. *)
Definition addSector (sectorIdOffset : nat) (sectorBounds : Box3.t)
    (sectorId : nat) (coverage : Vector3) (mesh : InstancedMesh.t)
    : InstancedMesh.t :=
  let bounds := toThreeJsBox3 sectorBounds in
  let translation := Box3.getCenter bounds in
  let scale := Box3.getSize bounds in
  let instanceMatrix := Matrix4.compose translation scale in
  let mesh := InstancedMesh.setMatrixAt sectorId instanceMatrix mesh in
  let '(cx, cy, cz) := coverage in
  let mesh :=
    InstancedMesh.setValue (4 * sectorId + 0) (INR (sectorIdOffset + sectorId))
      mesh in
  let mesh := InstancedMesh.setValue (4 * sectorId + 1) cx mesh in
  let mesh := InstancedMesh.setValue (4 * sectorId + 2) cy mesh in
  InstancedMesh.setValue (4 * sectorId + 3) cz mesh.

(** The loop [sectors.forEach] of [createSectorTreeMesh]. *)
Definition addSectors (sectorIdOffset : nat) (sectors : list SectorMetadata.t)
    (mesh : InstancedMesh.t) : InstancedMesh.t :=
  foldl (fun mesh sector =>
           let f := coverageFactors (SectorMetadata.facesFile sector) in
           let coverage := (yz f, xz f, xy f) in
           addSector sectorIdOffset (SectorMetadata.bounds sector)
             (SectorMetadata.id sector) coverage mesh)
        mesh sectors.

(** A fresh group has the identity as [matrix] and as [matrixWorld], so
    [applyMatrix4(modelMatrix)] leaves it with the matrix [modelMatrix]. With
    [matrixAutoUpdate] off nothing has marked the world matrix as outdated,
    so [updateMatrixWorld()], called without [force], leaves [matrixWorld] at
    the identity. *)
Definition createSectorTreeMesh (sectorIdOffset : nat)
    (sectors : list SectorMetadata.t) (modelMatrix : Matrix4.t) : Group.t :=
  let sectorCount := length sectors in
  let mesh :=
    {| InstancedMesh.count := sectorCount;
       InstancedMesh.instanceMatrix := replicate sectorCount Matrix4.zero;
       InstancedMesh.instanceValues := replicate (4 * sectorCount) 0%R |} in
  let mesh := addSectors sectorIdOffset sectors mesh in
  {| Group.matrixAutoUpdate := false;
     Group.matrix := modelMatrix;
     Group.matrixWorld := Matrix4.identity;
     Group.mesh := mesh |}.

Definition addModel (model : CadModelMetadata.t) (st : State) : State :=
  let sectors := getAllSectors (CadModelMetadata.scene model) in
  let mesh := createSectorTreeMesh (sectorIdOffset st) sectors
                (CadModelMetadata.modelMatrix model) in
  let ref := length (objects st) in
  set_registry
    (sectorIdOffset st + length sectors)
    (scene st ++ [ref])
    (objects st ++ [mesh])
    (JsMap.set (CadModelMetadata.blobUrl model)
       {| SectorContainer.model := model;
          SectorContainer.sectors := sectors;
          SectorContainer.sectorIdOffset := sectorIdOffset st;
          SectorContainer.renderable := ref |}
       (containers st))
    st.

(** [matrix.copy(modelMatrix)] and [updateMatrixWorld(true)]: the group's
    parent is the scene, whose world matrix is the identity. *)
Definition updateMatrix (modelMatrix : Matrix4.t) (g : Group.t) : Group.t :=
  {| Group.matrixAutoUpdate := Group.matrixAutoUpdate g;
     Group.matrix := modelMatrix;
     Group.matrixWorld := modelMatrix;
     Group.mesh := Group.mesh g |}.

Definition updateModel (container : SectorContainer.t)
    (model : CadModelMetadata.t) (st : State) : State :=
  set_registry
    (sectorIdOffset st)
    (scene st)
    (alter (updateMatrix (CadModelMetadata.modelMatrix model))
       (SectorContainer.renderable container) (objects st))
    (containers st)
    st.

(** [scene.remove(object)] takes out the first occurrence of the object. *)
Fixpoint scene_remove (ref : ObjRef) (children : list ObjRef) : list ObjRef :=
  match children with
  | [] => []
  | r :: children' =>
      if decide (r = ref) then children' else r :: scene_remove ref children'
  end.

Definition removeModel (modelIdentifier : string) (st : State) : result State :=
  match JsMap.get modelIdentifier (containers st) with
  | None => Throw ("Could not find model '" ++ modelIdentifier ++ "'")
  | Some container =>
      Ok (set_registry
            (sectorIdOffset st)
            (scene_remove (SectorContainer.renderable container) (scene st))
            (objects st)
            (JsMap.delete modelIdentifier (containers st))
            st)
  end.

(** The loop body of [setModels] over the input models. *)
Definition setModels_visit (acc : gset string * State)
    (model : CadModelMetadata.t) : gset string * State :=
  let '(keepModelIdentifiers, st) := acc in
  let blobUrl := CadModelMetadata.blobUrl model in
  let keepModelIdentifiers := keepModelIdentifiers ∪ {[blobUrl]} in
  match JsMap.get blobUrl (containers st) with
  | Some container => (keepModelIdentifiers, updateModel container model st)
  | None => (keepModelIdentifiers, addModel model st)
  end.

(** The loop of [setModels] over the identifiers to discard. *)
Fixpoint setModels_discard (discardIdentifiers : list string) (st : State)
    : result State :=
  match discardIdentifiers with
  | [] => Ok st
  | modelIdentifier :: rest =>
      st' ← removeModel modelIdentifier st; setModels_discard rest st'
  end.

Definition setModels (models : list CadModelMetadata.t) (st : State)
    : result State :=
  let '(keepModelIdentifiers, st) := foldl setModels_visit (∅, st) models in
  let allIdentifiers := JsMap.keys (containers st) in
  let discardIdentifiers :=
    filter (fun x => x ∉ keepModelIdentifiers) allIdentifiers in
  setModels_discard discardIdentifiers st.

(** ** ClippingStateSync, debug surface and disposal *)

Definition setClipping (planes : option (list (Vector3 * R)))
    (clipIntersection : bool) (st : State) : State :=
  set_material
    {| ShaderMaterial.clippingPlanes := planes;
       ShaderMaterial.clipIntersection := clipIntersection |} st.

Definition createDebugCanvas (options : option (nat * nat)) (st : State)
    : result State :=
  match debugRenderer st with
  | Some _ => Throw "createDebugCanvas() can only be called once"
  | None =>
      let size :=
        default (WebGLRenderTarget.width (renderTarget st),
                 WebGLRenderTarget.height (renderTarget st)) options in
      Ok (set_renderers (_renderer st)
            (Some {| WebGLRenderer.clearColor := "white";
                     WebGLRenderer.localClippingEnabled := true;
                     WebGLRenderer.size := Some size;
                     WebGLRenderer.disposeCalls := 0 |})
            st)
  end.

Definition dispose (st : State) : State :=
  set_renderers
    (WebGLRenderer.dispose (_renderer st))
    (WebGLRenderer.dispose <$> debugRenderer st)
    st.

(** [get renderer()]. *)
Definition renderer (st : State) : WebGLRenderer.t := _renderer st.

(** ** SectorIdentifierSpace: resolving a global id *)

Definition contains_id (container : SectorContainer.t) (sectorIdWithOffset : nat)
    : bool :=
  (SectorContainer.sectorIdOffset container <=? sectorIdWithOffset)
  && (sectorIdWithOffset
      <? SectorContainer.sectorIdOffset container
         + length (SectorContainer.sectors container)).

Fixpoint find_container (cs : list SectorContainer.t) (sectorIdWithOffset : nat)
    : option SectorContainer.t :=
  match cs with
  | [] => None
  | container :: cs' =>
      if contains_id container sectorIdWithOffset then Some container
      else find_container cs' sectorIdWithOffset
  end.

Definition findSectorContainer (st : State) (sectorIdWithOffset : nat)
    : result SectorContainer.t :=
  match find_container (JsMap.values (containers st)) sectorIdWithOffset with
  | Some container => Ok container
  | None =>
      Throw ("Sector ID " ++ pretty sectorIdWithOffset ++ " is out of range")
  end.

(** ** VisibilityAggregator *)

(** The local function [weight] of [unpackSectorVisibility]. *)
Definition weight (x y : R) : R :=
  let s := (x * x + y * y)%R in
  (0.5 * (2.5 - s) + exp (- sqrt s))%R.

(** A read of the [Uint8Array]; [prepareBuffers] makes the buffer long enough
    for every index [unpackSectorVisibility] reads. *)
Definition byteAt (buffer : list byte) (i : nat) : nat :=
  Byte.to_nat (default x00 (buffer !! i)).

(** [array[i] = v] on a JavaScript array: a write past the end leaves holes. *)
Definition array_set {A : Type} (i : nat) (v : A) (a : list (option A))
    : list (option A) :=
  if i <? length a then <[i := Some v]> a
  else a ++ replicate (i - length a) None ++ [Some v].

(** The body of the inner loop of [unpackSectorVisibility]. As in the
    source, [rx] is computed from the row [y]:
    [const rx = (y - halfWidth) / halfWidth]. *)
Definition unpack_pixel (renderTargetWidth renderTargetHeight : nat)
    (renderTargetBuffer : list byte) (y x : nat)
    (sectorVisibility : list (option SectorVisibility.t))
    : list (option SectorVisibility.t) :=
  let halfHeight := (INR renderTargetHeight / 2)%R in
  let halfWidth := (INR renderTargetWidth / 2)%R in
  let ry := ((INR y - INR renderTargetHeight / 2) / halfHeight)%R in
  let i := x + renderTargetWidth * y in
  let r := byteAt renderTargetBuffer (4 * i + 0) in
  let g := byteAt renderTargetBuffer (4 * i + 1) in
  let b := byteAt renderTargetBuffer (4 * i + 2) in
  let distance := byteAt renderTargetBuffer (4 * i + 3) in
  if negb (r =? 255) || negb (g =? 255) || negb (b =? 255) then
    let rx := ((INR y - halfWidth) / halfWidth)%R in
    let sectorIdWithOffset := b + g * 255 + r * 255 * 255 in
    let value :=
      match sectorVisibility !! sectorIdWithOffset with
      | Some (Some value) => value
      | _ => {| SectorVisibility.sectorIdWithOffset := sectorIdWithOffset;
                SectorVisibility.weight := 0;
                SectorVisibility.distance := distance |}
      end in
    let value :=
      {| SectorVisibility.sectorIdWithOffset :=
           SectorVisibility.sectorIdWithOffset value;
         SectorVisibility.weight :=
           (SectorVisibility.weight value + weight rx ry)%R;
         SectorVisibility.distance :=
           Nat.min (SectorVisibility.distance value) distance |} in
    array_set sectorIdWithOffset value sectorVisibility
  else sectorVisibility.

Definition unpackSectorVisibility (renderTargetWidth renderTargetHeight : nat)
    (renderTargetBuffer : list byte)
    (sectorVisibility : list (option SectorVisibility.t))
    : list (option SectorVisibility.t) :=
  foldl (fun sectorVisibility y =>
           foldl (fun sectorVisibility x =>
                    unpack_pixel renderTargetWidth renderTargetHeight
                      renderTargetBuffer y x sectorVisibility)
                 sectorVisibility (seq 0 renderTargetWidth))
        sectorVisibility (seq 0 renderTargetHeight).

Definition blank (entry : SectorVisibility.t) : SectorVisibility.t :=
  {| SectorVisibility.sectorIdWithOffset := SectorVisibility.sectorIdWithOffset entry;
     SectorVisibility.weight := 0;
     SectorVisibility.distance := SectorVisibility.distance entry |}.

Definition prepareBuffers (st : State) : State :=
  let size := 4 * WebGLRenderTarget.width (renderTarget st)
              * WebGLRenderTarget.height (renderTarget st) in
  let buffer :=
    if length (rtBuffer st) <? size then replicate size x00
    else rtBuffer st in
  set_buffers buffer (map (option_map blank) (sectorVisibilityBuffer st)) st.

(** [readRenderTargetPixels]: the GPU writes the rendered bytes of the
    [width] x [height] target over the start of the buffer. *)
Definition readRenderTargetPixels (rendered : list byte) (width height : nat)
    (buffer : list byte) : list byte :=
  let pixels := take (4 * width * height) rendered in
  pixels ++ drop (length pixels) buffer.

(** [Array.prototype.sort] with the comparator
    [(left, right) => right.weight - left.weight]: entries of larger weight
    first, entries of equal weight in their original order (the sort is
    stable). [sort_insert x l] puts [x], which stood before the entries of
    [l], in front of the first entry that is not heavier than [x]. *)
Fixpoint sort_insert (x : SectorVisibility.t) (l : list SectorVisibility.t)
    : list SectorVisibility.t :=
  match l with
  | [] => [x]
  | y :: l' =>
      if bool_decide (SectorVisibility.weight x < SectorVisibility.weight y)%R
      then y :: sort_insert x l'
      else x :: y :: l'
  end.

Definition sort (l : list SectorVisibility.t) : list SectorVisibility.t :=
  foldr sort_insert [] l.

(** The callback of [.map] in step 5. *)
Definition toPrioritized (st : State) (totalWeight : R) (x : SectorVisibility.t)
    : result PrioritizedSectorIdentifier.t :=
  container ← findSectorContainer st (SectorVisibility.sectorIdWithOffset x);
  let sectorId :=
    SectorVisibility.sectorIdWithOffset x
    - SectorContainer.sectorIdOffset container in
  Ok {| PrioritizedSectorIdentifier.model := SectorContainer.model container;
        PrioritizedSectorIdentifier.sectorId := sectorId;
        PrioritizedSectorIdentifier.priority :=
          (SectorVisibility.weight x / totalWeight)%R;
        PrioritizedSectorIdentifier.depth := SectorVisibility.distance x |}.

(** [.map(callback)] where the callback may throw: the first throw aborts. *)
Fixpoint map_result {A B : Type} (f : A -> result B) (l : list A)
    : result (list B) :=
  match l with
  | [] => Ok []
  | a :: l' => b ← f a; bs ← map_result f l'; Ok (b :: bs)
  end.

(** Array methods visit the entries that are present, in index order. *)
Definition present {A : Type} (a : list (option A)) : list A :=
  omap (fun entry => entry) a.

Definition totalWeightOf (sectorVisibility : list SectorVisibility.t) : R :=
  foldl (fun weight x => (SectorVisibility.weight x + weight)%R) 0%R
        sectorVisibility.

(** [object.updateMatrixWorld(true)] on a child of the scene. *)
Definition updateMatrixWorld (g : Group.t) : Group.t :=
  updateMatrix (Group.matrix g) g.

(** What [renderer.render(scene, camera)] does to the objects: it calls
    [scene.updateMatrixWorld()], and the scene, whose [matrixAutoUpdate] is
    on, forces the update on each of its children. The pixels it draws are
    the oracle's. *)
Definition render (scene : list ObjRef) (objects : list Group.t)
    : list Group.t :=
  foldl (fun objects ref => alter updateMatrixWorld ref objects) objects scene.

(** [orderSectorsByVisibility(camera)]: the render to the debug surface, if
    there is one, and the render to the target bring the world matrices of
    the proxies up to date; the pixels of the target are [rendered]. *)
Definition orderSectorsByVisibility (rendered : list byte) (st : State)
    : State * result (list PrioritizedSectorIdentifier.t) :=
  let objects :=
    match debugRenderer st with
    | Some _ => render (scene st) (objects st)
    | None => objects st
    end in
  let objects := render (scene st) objects in
  let st := set_registry (sectorIdOffset st) (scene st) objects (containers st) st in
  let st := prepareBuffers st in
  let width := WebGLRenderTarget.width (renderTarget st) in
  let height := WebGLRenderTarget.height (renderTarget st) in
  let buffer := readRenderTargetPixels rendered width height (rtBuffer st) in
  let sectorVisibility :=
    unpackSectorVisibility width height buffer (sectorVisibilityBuffer st) in
  let st := set_buffers buffer sectorVisibility st in
  let totalWeight := totalWeightOf (present sectorVisibility) in
  let result :=
    map_result (toPrioritized st totalWeight)
      (sort (filter (fun x => (0 < SectorVisibility.weight x)%R)
               (present sectorVisibility))) in
  (st, result).

(** * Specification vocabulary *)

(** ** Id ranges *)

Definition sectorCount (c : SectorContainer.t) : nat :=
  length (SectorContainer.sectors c).

Definition range_end (c : SectorContainer.t) : nat :=
  SectorContainer.sectorIdOffset c + sectorCount c.

(** The ranges of [cs] lie between [lo] and [hi], one after the other. *)
Fixpoint ordered_ranges (lo : nat) (cs : list SectorContainer.t) (hi : nat)
    : Prop :=
  match cs with
  | [] => lo ≤ hi
  | c :: cs' =>
      lo ≤ SectorContainer.sectorIdOffset c ∧ ordered_ranges (range_end c) cs' hi
  end.

(** The ranges of [cs] tile the interval from [lo] to [hi] without gaps. *)
Fixpoint consecutive_ranges (lo : nat) (cs : list SectorContainer.t) (hi : nat)
    : Prop :=
  match cs with
  | [] => lo = hi
  | c :: cs' =>
      SectorContainer.sectorIdOffset c = lo ∧ consecutive_ranges (range_end c) cs' hi
  end.

(** ** The registry invariant *)

Record registry_ok (st : State) : Prop := {
  keys_nodup : NoDup (JsMap.keys (containers st));
  ranges_ordered :
    ordered_ranges 0 (JsMap.values (containers st)) (sectorIdOffset st);
  refs_nodup :
    NoDup (SectorContainer.renderable <$> JsMap.values (containers st));
  refs_valid :
    Forall (fun c => SectorContainer.renderable c < length (objects st))
           (JsMap.values (containers st))
}.

(** ** Histories of an instance *)

Definition blobUrls (models : list CadModelMetadata.t) : list string :=
  CadModelMetadata.blobUrl <$> models.

(** The containers a [setModels] call registered: those tracked after the
    call under a key that was not tracked before it, in [Map] order. *)
Definition newly_registered (st st' : State) : list SectorContainer.t :=
  (filter (fun kv => kv.1 ∉ JsMap.keys (containers st)) (containers st')).*2.

(** [trace log st]: the public calls made on a fresh instance have led to
    [st] and have registered the containers [log], in this order. A query
    that throws still leaves its buffers behind. *)
Inductive trace : list SectorContainer.t -> State -> Prop :=
| trace_constructor renderSize :
    trace [] (constructor renderSize)
| trace_setModels log st models st' :
    trace log st -> setModels models st = Ok st' ->
    trace (log ++ newly_registered st st') st'
| trace_setClipping log st planes clipIntersection :
    trace log st -> trace log (setClipping planes clipIntersection st)
| trace_createDebugCanvas log st options st' :
    trace log st -> createDebugCanvas options st = Ok st' -> trace log st'
| trace_orderSectorsByVisibility log st rendered :
    trace log st -> trace log (orderSectorsByVisibility rendered st).1
| trace_dispose log st :
    trace log st -> trace log (dispose st).

Definition reachable (st : State) : Prop := exists log, trace log st.

(** The public calls of an instance. *)
Inductive Call : Type :=
| SetModels (models : list CadModelMetadata.t)
| SetClipping (planes : option (list (Vector3 * R))) (clipIntersection : bool)
| CreateDebugCanvas (options : option (nat * nat))
| OrderSectorsByVisibility (rendered : list byte)
| Dispose.

(** The instance after one public call, if the call returns. A query leaves
    its buffers behind whether or not its result is a list. *)
Definition call (c : Call) (st : State) : result State :=
  match c with
  | SetModels models => setModels models st
  | SetClipping planes clipIntersection =>
      Ok (setClipping planes clipIntersection st)
  | CreateDebugCanvas options => createDebugCanvas options st
  | OrderSectorsByVisibility rendered =>
      Ok (orderSectorsByVisibility rendered st).1
  | Dispose => Ok (dispose st)
  end.

(** The instance after a sequence of public calls that all return. *)
Fixpoint calls (cs : list Call) (st : State) : result State :=
  match cs with
  | [] => Ok st
  | c :: cs' => st' ← call c st; calls cs' st'
  end.

(** The clipping configuration a call sets, if it sets one. *)
Definition clipping_of (c : Call) : option ShaderMaterial.t :=
  match c with
  | SetClipping planes clipIntersection =>
      Some {| ShaderMaterial.clippingPlanes := planes;
              ShaderMaterial.clipIntersection := clipIntersection |}
  | _ => None
  end.

(** ** Notions of the specification *)

(** "Strictly increasing" offsets, as C5 states it: every registration gets a
    larger offset than the registrations before it. *)
Definition strictly_increasing_offsets (log : list SectorContainer.t) : Prop :=
  forall i j ci cj,
    i < j -> log !! i = Some ci -> log !! j = Some cj ->
    SectorContainer.sectorIdOffset ci < SectorContainer.sectorIdOffset cj.

(** What the visits of [setModels] do to the group of the model tracked
    under [k]: each input model with that key overwrites its matrix. *)
Definition retransform (k : string) (g : Group.t) (model : CadModelMetadata.t)
    : Group.t :=
  if decide (CadModelMetadata.blobUrl model = k)
  then updateMatrix (CadModelMetadata.modelMatrix model) g
  else g.

(** What instance slot [i] of a mesh holds: its transform and the four floats
    [a_sectorId], [a_coverageFactor.xyz]. *)
Definition slot (mesh : InstancedMesh.t) (i : nat)
    : option Matrix4.t * option R * option R * option R * option R :=
  (InstancedMesh.instanceMatrix mesh !! i,
   InstancedMesh.instanceValues mesh !! (4 * i + 0),
   InstancedMesh.instanceValues mesh !! (4 * i + 1),
   InstancedMesh.instanceValues mesh !! (4 * i + 2),
   InstancedMesh.instanceValues mesh !! (4 * i + 3)).

(** The slot of the instance with local id [localId] that stands for
    [sector]: the box transform of its bounds, the encoded global id and the
    coverage factors of the sector's metadata. *)
Definition slot_for (sectorIdOffset localId : nat) (sector : SectorMetadata.t)
    : option Matrix4.t * option R * option R * option R * option R :=
  let bounds := SectorMetadata.bounds sector in
  let f := coverageFactors (SectorMetadata.facesFile sector) in
  (Some (Matrix4.compose (Box3.getCenter bounds) (Box3.getSize bounds)),
   Some (INR (sectorIdOffset + localId)),
   Some (yz f), Some (xz f), Some (xy f)).

(** The slot [createSectorTreeMesh] writes for a sector: the local id is the
    sector's own id. *)
Definition slot_of (sectorIdOffset : nat) (sector : SectorMetadata.t)
    : option Matrix4.t * option R * option R * option R * option R :=
  slot_for sectorIdOffset (SectorMetadata.id sector) sector.

(** Local ids as C7 states them: the local id of an instance is the position
    of its sector in the sector list. *)
Definition instances_by_position (sectorIdOffset : nat)
    (sectors : list SectorMetadata.t) (mesh : InstancedMesh.t) : Prop :=
  forall i sector,
    sectors !! i = Some sector -> slot mesh i = slot_for sectorIdOffset i sector.

(** What a pixel of the buffer decodes to: the global id and the depth byte,
    or nothing for the background sentinel. *)
Definition decode (renderTargetBuffer : list byte) (i : nat)
    : option (nat * nat) :=
  let r := byteAt renderTargetBuffer (4 * i + 0) in
  let g := byteAt renderTargetBuffer (4 * i + 1) in
  let b := byteAt renderTargetBuffer (4 * i + 2) in
  let distance := byteAt renderTargetBuffer (4 * i + 3) in
  if negb (r =? 255) || negb (g =? 255) || negb (b =? 255)
  then Some (b + g * 255 + r * 255 * 255, distance)
  else None.

(** The weight the code adds for a pixel of row [y]: both coordinates are
    computed from [y]. *)
Definition pixel_weight (renderTargetWidth renderTargetHeight y : nat) : R :=
  weight ((INR y - INR renderTargetWidth / 2) / (INR renderTargetWidth / 2))
         ((INR y - INR renderTargetHeight / 2) / (INR renderTargetHeight / 2)).

(** The weight C2 states for the pixel at column [x], row [y]: the horizontal
    position comes from the column. *)
Definition centered_weight (renderTargetWidth renderTargetHeight x y : nat) : R :=
  weight ((INR x - INR renderTargetWidth / 2) / (INR renderTargetWidth / 2))
         ((INR y - INR renderTargetHeight / 2) / (INR renderTargetHeight / 2)).

(** The entry of the sparse array at an index, if there is one. *)
Definition entry_at (sectorVisibility : list (option SectorVisibility.t))
    (i : nat) : option SectorVisibility.t :=
  mjoin (sectorVisibility !! i).

(** One more sample for a sector: [value.weight += w],
    [value.distance = Math.min(value.distance, distance)]. *)
Definition accumulate (entry : option SectorVisibility.t)
    (sectorIdWithOffset distance : nat) (w : R) : SectorVisibility.t :=
  let value :=
    default {| SectorVisibility.sectorIdWithOffset := sectorIdWithOffset;
               SectorVisibility.weight := 0;
               SectorVisibility.distance := distance |} entry in
  {| SectorVisibility.sectorIdWithOffset := SectorVisibility.sectorIdWithOffset value;
     SectorVisibility.weight := (SectorVisibility.weight value + w)%R;
     SectorVisibility.distance := Nat.min (SectorVisibility.distance value) distance |}.

(** ** Samples *)

(** The pixels of a [w] x [h] target in the order the loops visit them. *)
Definition pixels (w h : nat) : list (nat * nat) :=
  concat (map (fun y => map (fun x => (y, x)) (seq 0 w)) (seq 0 h)).

(** The sample a pixel contributes: global id, depth byte and weight. *)
Definition sample_at (w h : nat) (buffer : list byte) (p : nat * nat)
    : option (nat * nat * R) :=
  match decode buffer (p.2 + w * p.1) with
  | Some (g, d) => Some (g, d, pixel_weight w h p.1)
  | None => None
  end.

Definition samples (w h : nat) (buffer : list byte) : list (nat * nat * R) :=
  omap (sample_at w h buffer) (pixels w h).

Definition add_sample (sv : list (option SectorVisibility.t))
    (s : nat * nat * R) : list (option SectorVisibility.t) :=
  array_set s.1.1 (accumulate (entry_at sv s.1.1) s.1.1 s.1.2 s.2) sv.

(** The samples of one sector. *)
Definition samples_of (g : nat) (ss : list (nat * nat * R)) : list (nat * R) :=
  omap (fun s => if decide (s.1.1 = g) then Some (s.1.2, s.2) else None) ss.

Definition add_to (g : nat) (e : option SectorVisibility.t) (s : nat * R)
    : option SectorVisibility.t :=
  Some (accumulate e g s.1 s.2).

Definition weight_of (e : option SectorVisibility.t) : R :=
  default 0%R (SectorVisibility.weight <$> e).

Definition sum_R (l : list R) : R := foldr Rplus 0%R l.

(** Entries of the accumulator sit at the index of their id. *)
Definition buffer_indexed (sv : list (option SectorVisibility.t)) : Prop :=
  forall g x, entry_at sv g = Some x -> SectorVisibility.sectorIdWithOffset x = g.

(** ** Parts of the state *)

(** The scene holds the proxies of the tracked models, in [Map] order. *)
Definition scene_of (cs : list (string * SectorContainer.t)) : list nat :=
  SectorContainer.renderable <$> JsMap.values cs.

(** A container as [addModel] makes it: tracked under its model's [blobUrl],
    with the model's flattened sector list. *)
Definition container_of_model (kv : string * SectorContainer.t) : Prop :=
  CadModelMetadata.blobUrl (SectorContainer.model kv.2) = kv.1
  ∧ SectorContainer.sectors kv.2
    = getAllSectors (CadModelMetadata.scene (SectorContainer.model kv.2)).

(** The fields of the instance outside the registry of models. *)
Definition resources (st : State)
    : WebGLRenderer.t * option WebGLRenderer.t * WebGLRenderTarget.t
      * list byte * list (option SectorVisibility.t) * ShaderMaterial.t :=
  (_renderer st, debugRenderer st, renderTarget st, rtBuffer st,
   sectorVisibilityBuffer st, coverageMaterial st).


(** The proxy of a container carries the mesh [createSectorTreeMesh] builds
    for its sectors and offset, and its matrix is set by hand. Its world
    matrix is its matrix once [updateModel] or a render has updated it, and
    the identity before. *)
Definition proxy_built (st : State) : Prop :=
  forall k c,
    JsMap.get k (containers st) = Some c ->
    exists g,
      objects st !! SectorContainer.renderable c = Some g
      ∧ Group.mesh g
        = Group.mesh (createSectorTreeMesh (SectorContainer.sectorIdOffset c)
                        (SectorContainer.sectors c) (Group.matrix g))
      ∧ Group.matrixAutoUpdate g = false
      ∧ (Group.matrixWorld g = Group.matrix g
         ∨ Group.matrixWorld g = Matrix4.identity).


(** * Test fixtures (after the repository's unit tests) *)

Definition identityMatrix : Matrix4.t :=
  [1; 0; 0; 0;  0; 1; 0; 0;  0; 0; 1; 0;  0; 0; 0; 1]%R.

Definition unitBox : Box3.t :=
  {| Box3.min := (-1, -1, -1)%R; Box3.max := (1, 1, 1)%R |}.

Definition stubSector (id : nat) : SectorMetadata.t :=
  {| SectorMetadata.id := id;
     SectorMetadata.bounds := unitBox;
     SectorMetadata.facesFile :=
       {| coverageFactors := {| xy := 1; xz := 1; yz := 1 |} |} |}.

Definition createStubModel (blobUrl : string) (sectors : list SectorMetadata.t)
    (modelMatrix : Matrix4.t) : CadModelMetadata.t :=
  {| CadModelMetadata.blobUrl := blobUrl;
     CadModelMetadata.modelMatrix := modelMatrix;
     CadModelMetadata.scene := {| getAllSectors := sectors |} |}.

Definition cadModel : CadModelMetadata.t :=
  createStubModel "model" [stubSector 0] identityMatrix.
Definition model1 : CadModelMetadata.t :=
  createStubModel "model1" [stubSector 0] identityMatrix.
Definition model2 : CadModelMetadata.t :=
  createStubModel "model2" [stubSector 0] identityMatrix.
Definition emptyModel : CadModelMetadata.t :=
  createStubModel "empty" [] identityMatrix.

Definition twoSectorModel : CadModelMetadata.t :=
  createStubModel "model" [stubSector 0; stubSector 1] identityMatrix.

Definition translatedMatrix : Matrix4.t :=
  [1; 0; 0; 0;  0; 1; 0; 0;  0; 0; 1; 0;  5; 0; 0; 1]%R.

Definition movedModel1 : CadModelMetadata.t :=
  createStubModel "model1" [stubSector 0; stubSector 1] translatedMatrix.

Definition coveredSector (id : nat) (coverage : R) : SectorMetadata.t :=
  {| SectorMetadata.id := id;
     SectorMetadata.bounds := unitBox;
     SectorMetadata.facesFile :=
       {| coverageFactors :=
            {| xy := coverage; xz := coverage; yz := coverage |} |} |}.

(** A model whose flattened sector list is not in id order. *)
Definition swappedModel : CadModelMetadata.t :=
  createStubModel "swapped" [coveredSector 1 (1 / 2); coveredSector 0 1]
    identityMatrix.

(** The container [addModel] makes for a model. *)
Definition containerOf (model : CadModelMetadata.t) (sectorIdOffset : nat)
    (renderable : ObjRef) : SectorContainer.t :=
  {| SectorContainer.model := model;
     SectorContainer.sectors := getAllSectors (CadModelMetadata.scene model);
     SectorContainer.sectorIdOffset := sectorIdOffset;
     SectorContainer.renderable := renderable |}.

(** A fresh instance with the given render size after a sequence of
    [setModels] calls. *)
Definition instanceAfter (renderSize : option (nat * nat))
    (calls : list (list CadModelMetadata.t)) : State :=
  foldl (fun st models =>
           match setModels models st with
           | Ok st' => st'
           | Throw _ => st
           end)
        (constructor renderSize) calls.

(** * Properties *)

(** ** The JavaScript [Map] *)

Module JsMapFacts.
Section WithValue.
Context {V : Type}.
Implicit Types (m : list (string * V)) (k : string) (v : V).

Lemma get_None m k : JsMap.get k m = None <-> k ∉ JsMap.keys m.
Proof.
  unfold JsMap.keys. induction m as [|[k' v'] m IH]; simpl.
  - split; [intros _; apply not_elem_of_nil | done].
  - rewrite not_elem_of_cons. destruct (decide (k = k')); [|tauto].
    split; [done | intros [? _]; done].
Qed.

Lemma get_Some_elem m k v : JsMap.get k m = Some v -> (k, v) ∈ m.
Proof.
  induction m as [|[k' v'] m IH]; simpl; [done|].
  destruct (decide (k = k')) as [->|].
  - intros [= ->]. apply elem_of_cons. by left.
  - intros H. apply elem_of_cons. right. auto.
Qed.

Lemma elem_get m k v :
  NoDup (JsMap.keys m) -> (k, v) ∈ m -> JsMap.get k m = Some v.
Proof.
  unfold JsMap.keys. induction m as [|[k' v'] m IH]; simpl.
  - intros _ H. by apply elem_of_nil in H.
  - rewrite NoDup_cons. intros [Hk Hm] [H|H]%elem_of_cons.
    + injection H as -> ->. by rewrite decide_True.
    + destruct (decide (k = k')) as [->|]; [|by apply IH].
      exfalso. apply Hk. apply list_elem_of_fmap. by exists (k', v).
Qed.

Lemma set_fresh m k v : k ∉ JsMap.keys m -> JsMap.set k v m = m ++ [(k, v)].
Proof.
  unfold JsMap.keys. induction m as [|[k' v'] m IH]; simpl; [done|].
  rewrite not_elem_of_cons. intros [Hne Hm].
  rewrite decide_False by done. by rewrite IH.
Qed.

Lemma filter_all (P : string * V -> Prop) `{!forall x, Decision (P x)} m :
  Forall P m -> filter P m = m.
Proof.
  induction 1 as [|x m Hx _ IH]; [done|].
  rewrite filter_cons_True by done. by rewrite IH.
Qed.

Lemma delete_filter m k :
  NoDup (JsMap.keys m) ->
  JsMap.delete k m = filter (fun kv => kv.1 ≠ k) m.
Proof.
  unfold JsMap.keys. induction m as [|[k' v'] m IH]; simpl; [done|].
  rewrite NoDup_cons. intros [Hk Hm].
  destruct (decide (k = k')) as [->|Hne].
  - rewrite filter_cons_False by (simpl; tauto).
    symmetry. apply filter_all. apply Forall_forall.
    intros [k v] Hin Heq. simpl in Heq. subst k.
    apply Hk. apply list_elem_of_fmap. by exists (k', v).
  - rewrite filter_cons_True by (simpl; congruence). by rewrite IH.
Qed.

Lemma get_app_l m1 m2 k v :
  JsMap.get k m1 = Some v -> JsMap.get k (m1 ++ m2) = Some v.
Proof.
  induction m1 as [|[k' v'] m1 IH]; simpl; [done|].
  destruct (decide (k = k')); auto.
Qed.

Lemma get_app_r m1 m2 k :
  JsMap.get k m1 = None -> JsMap.get k (m1 ++ m2) = JsMap.get k m2.
Proof.
  induction m1 as [|[k' v'] m1 IH]; simpl; [done|].
  destruct (decide (k = k')); [done | auto].
Qed.
End WithValue.
End JsMapFacts.

(** ** Id ranges *)

Section Ranges.
Implicit Types (c : SectorContainer.t) (cs : list SectorContainer.t).

Lemma ordered_ranges_le lo cs hi : ordered_ranges lo cs hi -> lo ≤ hi.
Proof.
  revert lo. induction cs as [|c cs IH]; simpl; intros lo; [done|].
  intros [Hlo Hcs]. apply IH in Hcs. unfold range_end in Hcs. lia.
Qed.

Lemma ordered_ranges_weaken lo lo' cs hi hi' :
  lo' ≤ lo -> hi ≤ hi' -> ordered_ranges lo cs hi -> ordered_ranges lo' cs hi'.
Proof.
  revert lo lo'. induction cs as [|c cs IH]; simpl; intros lo lo' Hlo Hhi.
  - lia.
  - intros [H1 H2]. split; [lia|]. by apply (IH (range_end c)).
Qed.

Lemma ordered_ranges_app lo cs1 cs2 hi :
  ordered_ranges lo (cs1 ++ cs2) hi <->
  exists mid, ordered_ranges lo cs1 mid ∧ ordered_ranges mid cs2 hi.
Proof.
  revert lo. induction cs1 as [|c cs1 IH]; simpl; intros lo.
  - split.
    + intros H. exists lo. split; [lia | done].
    + intros (mid & Hle & H). by apply (ordered_ranges_weaken mid lo _ hi hi).
  - rewrite IH. split.
    + intros (Hlo & mid & H1 & H2). exists mid. tauto.
    + intros (mid & (Hlo & H1) & H2). split; [done|]. by exists mid.
Qed.

Lemma ordered_ranges_elem lo cs hi c :
  ordered_ranges lo cs hi -> c ∈ cs ->
  lo ≤ SectorContainer.sectorIdOffset c ∧ range_end c ≤ hi.
Proof.
  revert lo. induction cs as [|c0 cs IH]; simpl; intros lo Hord Hin.
  - by apply elem_of_nil in Hin.
  - destruct Hord as [Hlo Hcs]. apply elem_of_cons in Hin as [->|Hin].
    + split; [done|]. by apply ordered_ranges_le in Hcs.
    + apply IH in Hcs as [H1 H2]; [|done]. unfold range_end in *. lia.
Qed.

Lemma ordered_ranges_sublist lo cs cs' hi :
  sublist cs' cs -> ordered_ranges lo cs hi -> ordered_ranges lo cs' hi.
Proof.
  intros Hsub. revert lo. induction Hsub as [|c l1 l2 _ IH|c l1 l2 _ IH];
    simpl; intros lo.
  - done.
  - intros [Hlo H]. split; [done|]. by apply IH.
  - intros [Hlo H]. apply IH.
    apply (ordered_ranges_weaken (range_end c) lo _ hi hi); [|done|done].
    unfold range_end. lia.
Qed.

Lemma ordered_ranges_lookup lo cs hi i j ci cj :
  ordered_ranges lo cs hi -> i < j ->
  cs !! i = Some ci -> cs !! j = Some cj ->
  range_end ci ≤ SectorContainer.sectorIdOffset cj.
Proof.
  revert lo i j. induction cs as [|c cs IH]; intros lo i j Hord Hij Hi Hj.
  - done.
  - destruct Hord as [Hlo Hcs]. destruct j as [|j]; [lia|].
    destruct i as [|i]; simpl in *.
    + injection Hi as ->.
      eapply ordered_ranges_elem in Hcs as [H _]; [done|].
      by eapply list_elem_of_lookup_2.
    + eapply (IH _ i j); eauto with lia.
Qed.

Lemma consecutive_ordered lo cs hi :
  consecutive_ranges lo cs hi -> ordered_ranges lo cs hi.
Proof.
  revert lo. induction cs as [|c cs IH]; simpl; intros lo.
  - lia.
  - intros [-> H]. split; [done|]. by apply IH.
Qed.

Lemma consecutive_ranges_app lo cs1 cs2 mid hi :
  consecutive_ranges lo cs1 mid -> consecutive_ranges mid cs2 hi ->
  consecutive_ranges lo (cs1 ++ cs2) hi.
Proof.
  revert lo. induction cs1 as [|c cs1 IH]; simpl; intros lo.
  - by intros ->.
  - intros [-> H1] H2. split; [done|]. by apply IH.
Qed.

(** In a chain of consecutive ranges every offset is the sum of the sector
    counts before it. *)
Lemma consecutive_ranges_lookup lo cs hi i c :
  consecutive_ranges lo cs hi -> cs !! i = Some c ->
  SectorContainer.sectorIdOffset c
  = lo + sum_list (sectorCount <$> take i cs).
Proof.
  revert lo i. induction cs as [|c0 cs IH]; intros lo i Hc Hi; [done|].
  destruct Hc as [Hlo Hcs]. destruct i as [|i]; simpl in *.
  - injection Hi as <-. lia.
  - rewrite (IH _ _ Hcs Hi). unfold range_end, fmap. lia.
Qed.

Lemma consecutive_ranges_total lo cs hi :
  consecutive_ranges lo cs hi ->
  hi = lo + sum_list (sectorCount <$> cs).
Proof.
  revert lo. induction cs as [|c0 cs IH]; simpl; intros lo.
  - lia.
  - intros [Hlo Hcs]. rewrite (IH _ Hcs). unfold range_end, fmap. lia.
Qed.

Lemma contains_id_spec c g :
  contains_id c g = true <->
  SectorContainer.sectorIdOffset c ≤ g < range_end c.
Proof.
  unfold contains_id, range_end, sectorCount.
  rewrite andb_true_iff, Nat.leb_le, Nat.ltb_lt. tauto.
Qed.

(** With ordered ranges the linear scan finds the one container whose range
    holds the id. *)
Lemma find_container_ordered lo cs hi c g :
  ordered_ranges lo cs hi -> c ∈ cs -> contains_id c g = true ->
  find_container cs g = Some c.
Proof.
  revert lo. induction cs as [|c0 cs IH]; simpl; intros lo Hord Hin Hg.
  - by apply elem_of_nil in Hin.
  - destruct Hord as [Hlo Hcs]. apply elem_of_cons in Hin as [->|Hin].
    + by rewrite Hg.
    + destruct (contains_id c0 g) eqn:H0; [|by eapply IH].
      exfalso. apply contains_id_spec in H0, Hg.
      eapply ordered_ranges_elem in Hcs as [H1 _]; [|done]. lia.
Qed.

Lemma find_container_Some cs g c :
  find_container cs g = Some c -> c ∈ cs ∧ contains_id c g = true.
Proof.
  induction cs as [|c0 cs IH]; simpl; [done|].
  destruct (contains_id c0 g) eqn:H0.
  - intros [= ->]. split; [apply elem_of_cons; by left | done].
  - intros H. apply IH in H as [? ?]. split; [apply elem_of_cons; by right | done].
Qed.

Lemma find_container_None cs g :
  find_container cs g = None <-> forall c, c ∈ cs -> contains_id c g = false.
Proof.
  induction cs as [|c0 cs IH]; simpl.
  - split; [|done]. intros _ c Hc. by apply elem_of_nil in Hc.
  - destruct (contains_id c0 g) eqn:H0.
    + split; [done|]. intros H. specialize (H c0). rewrite H0 in H.
      discriminate H. apply elem_of_cons. by left.
    + rewrite IH. split.
      * intros H c [->|Hc]%elem_of_cons; auto.
      * intros H c Hc. apply H. apply elem_of_cons. by right.
Qed.
End Ranges.

(** ** The registry invariant *)

Lemma constructor_ok renderSize : registry_ok (constructor renderSize).
Proof.
  unfold constructor. destruct (default _ renderSize) as [w h].
  split; simpl; [constructor | lia | constructor | constructor].
Qed.

Lemma updateModel_ok container model st :
  registry_ok st -> registry_ok (updateModel container model st).
Proof.
  intros [H1 H2 H3 H4]. split; simpl; [done..|].
  by rewrite length_alter.
Qed.

Lemma addModel_containers model st :
  JsMap.get (CadModelMetadata.blobUrl model) (containers st) = None ->
  containers (addModel model st)
  = containers st
    ++ [(CadModelMetadata.blobUrl model,
         {| SectorContainer.model := model;
            SectorContainer.sectors := getAllSectors (CadModelMetadata.scene model);
            SectorContainer.sectorIdOffset := sectorIdOffset st;
            SectorContainer.renderable := length (objects st) |})].
Proof.
  intros Hget. simpl. apply JsMapFacts.set_fresh. by apply JsMapFacts.get_None.
Qed.

Lemma addModel_ok model st :
  JsMap.get (CadModelMetadata.blobUrl model) (containers st) = None ->
  registry_ok st -> registry_ok (addModel model st).
Proof.
  intros Hget [H1 H2 H3 H4].
  pose proof (addModel_containers model st Hget) as Hcs.
  split; rewrite Hcs; unfold JsMap.keys, JsMap.values in *;
    rewrite ?fmap_app; simpl.
  - apply NoDup_app. split; [done|]. split; [|apply NoDup_singleton].
    intros k Hk ->%list_elem_of_singleton.
    by apply JsMapFacts.get_None in Hget.
  - apply ordered_ranges_app. exists (sectorIdOffset st). split; [done|].
    simpl. unfold range_end, sectorCount. simpl. lia.
  - apply NoDup_app. split; [done|]. split; [|apply NoDup_singleton].
    intros r Hr ->%list_elem_of_singleton.
    apply list_elem_of_fmap in Hr as (c & Hc & Hin).
    rewrite Forall_forall in H4. apply H4 in Hin. lia.
  - rewrite length_app. simpl. apply Forall_app. split.
    + eapply Forall_impl; [done|]. simpl. intros; lia.
    + constructor; [simpl; lia | constructor].
Qed.

Lemma removeModel_spec modelIdentifier st :
  registry_ok st ->
  modelIdentifier ∈ JsMap.keys (containers st) ->
  exists st',
    removeModel modelIdentifier st = Ok st'
    ∧ containers st' = filter (fun kv => kv.1 ≠ modelIdentifier) (containers st)
    ∧ sectorIdOffset st' = sectorIdOffset st
    ∧ objects st' = objects st
    ∧ sectorVisibilityBuffer st' = sectorVisibilityBuffer st
    ∧ renderTarget st' = renderTarget st
    ∧ registry_ok st'.
Proof.
  intros [H1 H2 H3 H4] Hin. unfold removeModel.
  destruct (JsMap.get modelIdentifier (containers st)) as [c|] eqn:Hget.
  2: { by apply JsMapFacts.get_None in Hget. }
  eexists. split; [done|]. simpl.
  rewrite JsMapFacts.delete_filter by done.
  split_and!; try done.
  split; simpl; unfold JsMap.keys, JsMap.values in *.
  - eapply sublist_NoDup; [done|]. apply fmap_sublist, sublist_filter.
  - eapply ordered_ranges_sublist; [|done]. apply fmap_sublist, sublist_filter.
  - eapply sublist_NoDup; [done|]. do 2 apply fmap_sublist. apply sublist_filter.
  - rewrite Forall_forall in *. intros c' Hc'. apply H4.
    eapply elem_of_sublist; [done|]. apply fmap_sublist, sublist_filter.
Qed.

Lemma setModels_discard_spec discardIdentifiers st :
  registry_ok st ->
  NoDup discardIdentifiers ->
  (forall k, k ∈ discardIdentifiers -> k ∈ JsMap.keys (containers st)) ->
  exists st',
    setModels_discard discardIdentifiers st = Ok st'
    ∧ containers st' = filter (fun kv => kv.1 ∉ discardIdentifiers) (containers st)
    ∧ sectorIdOffset st' = sectorIdOffset st
    ∧ objects st' = objects st
    ∧ sectorVisibilityBuffer st' = sectorVisibilityBuffer st
    ∧ renderTarget st' = renderTarget st
    ∧ registry_ok st'.
Proof.
  revert st. induction discardIdentifiers as [|d ds IH]; intros st Hok Hnd Hsub.
  - exists st. simpl. split_and!; try done.
    symmetry. apply JsMapFacts.filter_all, Forall_forall.
    intros kv _. apply not_elem_of_nil.
  - apply NoDup_cons in Hnd as [Hd Hnd].
    destruct (removeModel_spec d st Hok) as (st1 & Hrm & Hcs & Hoff & Hobj & Hsv & Hrt & Hok1).
    { apply Hsub. apply elem_of_cons. by left. }
    destruct (IH st1 Hok1 Hnd) as (st' & Hrun & Hcs' & Hoff' & Hobj' & Hsv' & Hrt' & Hok').
    { intros k Hk. unfold JsMap.keys. rewrite Hcs.
      apply list_elem_of_fmap.
      assert (k ∈ JsMap.keys (containers st)) as Hin.
      { apply Hsub. apply elem_of_cons. by right. }
      apply list_elem_of_fmap in Hin as (kv & -> & Hin).
      exists kv. split; [done|]. apply list_elem_of_filter. split; [|done].
      intros Heq. apply Hd. by rewrite <- Heq. }
    exists st'. simpl. rewrite Hrm. simpl. split; [done|].
    rewrite Hcs', Hcs, Hoff', Hoff, Hobj', Hobj, Hsv', Hsv, Hrt', Hrt.
    split_and!; try done.
    rewrite list_filter_filter. apply list_filter_iff.
    intros kv. rewrite not_elem_of_cons. tauto.
Qed.

(** ** [setModels] *)

Section FilterFacts.
Context {A : Type}.
Implicit Types (l : list A).

Lemma filter_ext_in (P Q : A -> Prop)
    `{!forall x, Decision (P x)} `{!forall x, Decision (Q x)} l :
  (forall x, x ∈ l -> P x <-> Q x) -> filter P l = filter Q l.
Proof.
  induction l as [|x l IH]; intros Hext; [done|].
  rewrite !filter_cons.
  assert (P x <-> Q x) as Hx by (apply Hext, elem_of_cons; by left).
  rewrite IH by (intros y Hy; apply Hext, elem_of_cons; by right).
  destruct (decide (P x)), (decide (Q x)); tauto.
Qed.

Lemma filter_none (P : A -> Prop) `{!forall x, Decision (P x)} l :
  (forall x, x ∈ l -> ¬ P x) -> filter P l = [].
Proof.
  induction l as [|x l IH]; intros Hext; [done|].
  rewrite filter_cons_False by (apply Hext, elem_of_cons; by left).
  apply IH. intros y Hy. apply Hext, elem_of_cons. by right.
Qed.

Lemma filter_every (P : A -> Prop) `{!forall x, Decision (P x)} l :
  (forall x, x ∈ l -> P x) -> filter P l = l.
Proof.
  induction l as [|x l IH]; intros Hext; [done|].
  rewrite filter_cons_True by (apply Hext, elem_of_cons; by left).
  f_equal. apply IH. intros y Hy. apply Hext, elem_of_cons. by right.
Qed.
End FilterFacts.

Lemma setModels_visit_loop models keep st keep' st1 :
  registry_ok st ->
  foldl setModels_visit (keep, st) models = (keep', st1) ->
  exists news,
    containers st1 = containers st ++ news
    ∧ consecutive_ranges (sectorIdOffset st) news.*2 (sectorIdOffset st1)
    ∧ (forall k, k ∈ keep' <-> k ∈ keep ∨ k ∈ blobUrls models)
    ∧ (forall k, k ∈ news.*1 -> k ∈ blobUrls models)
    ∧ sectorVisibilityBuffer st1 = sectorVisibilityBuffer st
    ∧ renderTarget st1 = renderTarget st
    ∧ registry_ok st1.
Proof.
  revert keep st. induction models as [|model models IH]; intros keep st Hok; simpl.
  - intros [= <- <-]. exists []. rewrite app_nil_r. simpl. split_and!; try done.
    intros k. unfold blobUrls. simpl. rewrite elem_of_nil. tauto.
  - destruct (JsMap.get (CadModelMetadata.blobUrl model) (containers st))
      as [container|] eqn:Hget; intros Hrun.
    + apply IH in Hrun as (news & Hcs & Hcons & Hkeep & Hnews & Hsv & Hrt & Hok1);
        [|by apply updateModel_ok].
      exists news. split; [done|]. split; [done|]. split; [|split].
      * intros k. rewrite Hkeep. unfold blobUrls. simpl.
        rewrite elem_of_union, elem_of_singleton, elem_of_cons. tauto.
      * intros k Hk. apply elem_of_cons. right. by apply Hnews.
      * done.
    + apply IH in Hrun as (news & Hcs & Hcons & Hkeep & Hnews & Hsv & Hrt & Hok1);
        [|by apply addModel_ok].
      rewrite addModel_containers in Hcs by done. rewrite <- app_assoc in Hcs.
      eexists. split; [exact Hcs|]. split; [|split; [|split]].
      * simpl. split; [done|]. exact Hcons.
      * intros k. rewrite Hkeep. unfold blobUrls. simpl.
        rewrite elem_of_union, elem_of_singleton, elem_of_cons. tauto.
      * intros k. simpl. unfold blobUrls. simpl. rewrite !elem_of_cons.
        intros [->|Hk]; [by left | right; by apply Hnews].
      * done.
Qed.

Lemma setModels_spec models st :
  registry_ok st ->
  exists st' news,
    setModels models st = Ok st'
    ∧ containers st'
      = filter (fun kv => kv.1 ∈ blobUrls models) (containers st) ++ news
    ∧ consecutive_ranges (sectorIdOffset st) news.*2 (sectorIdOffset st')
    ∧ (forall k, k ∈ news.*1 ->
         k ∈ blobUrls models ∧ k ∉ JsMap.keys (containers st))
    ∧ sectorVisibilityBuffer st' = sectorVisibilityBuffer st
    ∧ renderTarget st' = renderTarget st
    ∧ registry_ok st'.
Proof.
  intros Hok. unfold setModels.
  destruct (foldl setModels_visit (∅, st) models) as [keep' st1] eqn:Hloop.
  apply setModels_visit_loop in Hloop
    as (news & Hcs & Hcons & Hkeep & Hnews & Hsv & Hrt & Hok1); [|done].
  assert (forall k, k ∈ keep' <-> k ∈ blobUrls models) as Hkeep'.
  { intros k. rewrite Hkeep, elem_of_empty. tauto. }
  destruct (setModels_discard_spec
              (filter (fun x => x ∉ keep') (JsMap.keys (containers st1))) st1)
    as (st' & Hrun & Hcs' & Hoff & _ & Hsv' & Hrt' & Hok'); [done|..].
  { apply NoDup_filter. apply Hok1. }
  { intros k Hk. by apply list_elem_of_filter in Hk as [_ ?]. }
  exists st', news. split; [done|]. rewrite Hoff, Hsv', Hrt'.
  split_and!; try done.
  - rewrite Hcs'.
    rewrite (filter_ext_in _ (fun kv => kv.1 ∈ blobUrls models)).
    + rewrite Hcs, filter_app. f_equal. apply filter_every.
      intros [k c] Hin. simpl. apply Hnews.
      apply list_elem_of_fmap. by exists (k, c).
    + intros [k c] Hin. simpl. rewrite list_elem_of_filter, <- Hkeep'.
      split.
      * intros H. destruct (decide (k ∈ keep')) as [|Hn]; [done|].
        exfalso. apply H. split; [done|].
        apply list_elem_of_fmap. by exists (k, c).
      * intros H [Hn _]. done.
  - intros k Hk. split; [by apply Hnews|]. intros Hin.
    destruct Hok1 as [Hnd _ _ _]. rewrite Hcs in Hnd.
    unfold JsMap.keys in Hnd. rewrite fmap_app in Hnd.
    apply NoDup_app in Hnd as (_ & Hdisj & _). by apply (Hdisj k).
Qed.

(** ** Histories *)

Lemma render_length scene objects :
  length (render scene objects) = length objects.
Proof.
  revert objects. induction scene as [|ref scene IH]; intros objects; [done|].
  unfold render in *. cbn [foldl]. by rewrite IH, length_alter.
Qed.

Lemma orderSectorsByVisibility_objects_length rendered st :
  length (objects (orderSectorsByVisibility rendered st).1) = length (objects st).
Proof.
  cbn [orderSectorsByVisibility fst objects set_buffers prepareBuffers set_registry].
  rewrite render_length. destruct (debugRenderer st); [apply render_length | done].
Qed.

Lemma registry_ok_ext st st' :
  containers st' = containers st ->
  sectorIdOffset st' = sectorIdOffset st ->
  length (objects st') = length (objects st) ->
  registry_ok st -> registry_ok st'.
Proof.
  intros Hc Ho Hobj [H1 H2 H3 H4].
  split; rewrite ?Hc, ?Ho, ?Hobj; done.
Qed.

Lemma createDebugCanvas_registry options st st' :
  createDebugCanvas options st = Ok st' ->
  containers st' = containers st
  ∧ sectorIdOffset st' = sectorIdOffset st
  ∧ objects st' = objects st.
Proof.
  unfold createDebugCanvas. destruct (debugRenderer st); [done|].
  by intros [= <-].
Qed.

Lemma newly_registered_spec models st st' news :
  containers st'
  = filter (fun kv => kv.1 ∈ blobUrls models) (containers st) ++ news ->
  (forall k, k ∈ news.*1 -> k ∈ blobUrls models ∧ k ∉ JsMap.keys (containers st)) ->
  newly_registered st st' = news.*2.
Proof.
  intros Hcs Hnews. unfold newly_registered. rewrite Hcs, filter_app.
  rewrite filter_none, filter_every; [done|..].
  - intros [k c] Hin. simpl. apply Hnews. apply list_elem_of_fmap. by exists (k, c).
  - intros [k c] [_ Hin]%list_elem_of_filter. simpl. intros Hn. apply Hn.
    apply list_elem_of_fmap. by exists (k, c).
Qed.

(** The invariant carried along a history. *)
Lemma trace_invariant log st :
  trace log st ->
  consecutive_ranges 0 log (sectorIdOffset st)
  ∧ registry_ok st
  ∧ (forall c, c ∈ JsMap.values (containers st) -> c ∈ log).
Proof.
  induction 1 as [renderSize|log st models st' _ IH Hrun|log st planes ci _ IH
                 |log st options st' _ IH Hrun|log st rendered _ IH|log st _ IH].
  - split; [|split; [apply constructor_ok|]].
    + unfold constructor. by destruct (default _ renderSize).
    + unfold constructor. destruct (default _ renderSize). simpl.
      intros c Hc. by apply elem_of_nil in Hc.
  - destruct IH as (Hcons & Hok & Hin).
    destruct (setModels_spec models st Hok)
      as (st2 & news & Hrun2 & Hcs & Hnews & Hkeys & _ & _ & Hok2).
    rewrite Hrun in Hrun2. injection Hrun2 as <-.
    rewrite (newly_registered_spec models st st' news Hcs Hkeys).
    split; [by eapply consecutive_ranges_app|]. split; [done|].
    intros c. unfold JsMap.values. rewrite Hcs, fmap_app, !elem_of_app.
    intros [Hc|Hc]; [left|by right].
    apply Hin. eapply elem_of_sublist; [done|]. apply fmap_sublist, sublist_filter.
  - destruct IH as (Hcons & Hok & Hin). simpl.
    split; [done|]. split; [by apply (registry_ok_ext st)|done].
  - apply createDebugCanvas_registry in Hrun as (Hc & Ho & Hobj).
    destruct IH as (Hcons & Hok & Hin). rewrite Hc, Ho.
    split; [done|]. split; [|done].
    apply (registry_ok_ext st); [done..| |done]. by rewrite Hobj.
  - destruct IH as (Hcons & Hok & Hin).
    change (containers (orderSectorsByVisibility rendered st).1)
      with (containers st).
    change (sectorIdOffset (orderSectorsByVisibility rendered st).1)
      with (sectorIdOffset st).
    split; [done|]. split; [|done].
    apply (registry_ok_ext st); [done..| |done].
    apply orderSectorsByVisibility_objects_length.
  - destruct IH as (Hcons & Hok & Hin). simpl.
    split; [done|]. split; [by apply (registry_ok_ext st)|done].
Qed.

Lemma reachable_ok st : reachable st -> registry_ok st.
Proof. intros [log Ht]. by apply trace_invariant in Ht as (_ & ? & _). Qed.

(** On a reachable instance [setModels] never throws. *)
Lemma setModels_total models st :
  reachable st -> exists st', setModels models st = Ok st'.
Proof.
  intros Hr. destruct (setModels_spec models st (reachable_ok st Hr))
    as (st' & _ & H & _). by exists st'.
Qed.

Lemma tracked_position (cs : list (string * SectorContainer.t)) k c :
  JsMap.get k cs = Some c -> exists i, cs !! i = Some (k, c).
Proof. intros H. by apply list_elem_of_lookup, JsMapFacts.get_Some_elem. Qed.

(** The ranges of two containers tracked under different keys are disjoint. *)
Lemma tracked_disjoint st k1 k2 c1 c2 g :
  registry_ok st -> k1 ≠ k2 ->
  JsMap.get k1 (containers st) = Some c1 ->
  JsMap.get k2 (containers st) = Some c2 ->
  contains_id c1 g = true -> contains_id c2 g = true -> False.
Proof.
  intros [_ Hord _ _] Hne [i Hi]%tracked_position [j Hj]%tracked_position
         Hg1%contains_id_spec Hg2%contains_id_spec.
  assert (JsMap.values (containers st) !! i = Some c1) as Hi'.
  { unfold JsMap.values. by rewrite list_lookup_fmap, Hi. }
  assert (JsMap.values (containers st) !! j = Some c2) as Hj'.
  { unfold JsMap.values. by rewrite list_lookup_fmap, Hj. }
  destruct (Nat.lt_trichotomy i j) as [Hlt|[->|Hlt]].
  - pose proof (ordered_ranges_lookup _ _ _ _ _ _ _ Hord Hlt Hi' Hj'). lia.
  - congruence.
  - pose proof (ordered_ranges_lookup _ _ _ _ _ _ _ Hord Hlt Hj' Hi'). lia.
Qed.

Lemma instanceAfter_reachable renderSize calls :
  reachable (instanceAfter renderSize calls).
Proof.
  unfold instanceAfter.
  induction calls as [|models calls IH] using rev_ind.
  - exists []. apply trace_constructor.
  - rewrite foldl_app. simpl.
    destruct (setModels models _) as [st|m] eqn:Hrun; [|done].
    destruct IH as [log Ht]. eexists. eapply trace_setModels; [exact Ht | exact Hrun].
Qed.

(** ** C5: the id space *)

(** C5, counterexample: a model without sectors is registered at offset 0 and
    so is the model registered after it, so the offsets of one [setModels]
    call are not strictly increasing. *)
Lemma zero_sector_model_repeats_offset :
  let st := instanceAfter None [[emptyModel; cadModel]] in
  let log := newly_registered (constructor None) st in
  setModels [emptyModel; cadModel] (constructor None) = Ok st
  ∧ trace log st
  ∧ SectorContainer.sectorIdOffset <$> log = [0; 0]
  ∧ ¬ strictly_increasing_offsets log.
Proof.
  cbv zeta.
  assert (setModels [emptyModel; cadModel] (constructor None)
          = Ok (instanceAfter None [[emptyModel; cadModel]])) as Hrun
    by (vm_compute; reflexivity).
  assert (newly_registered (constructor None)
            (instanceAfter None [[emptyModel; cadModel]])
          = [containerOf emptyModel 0 0; containerOf cadModel 0 1]) as Hlog
    by (vm_compute; reflexivity).
  split; [exact Hrun|]. split; [|rewrite Hlog; split; [reflexivity|]].
  - apply (trace_setModels [] (constructor None) [emptyModel; cadModel]);
      [apply trace_constructor | exact Hrun].
  - intros H.
    specialize (H 0 1 (containerOf emptyModel 0 0) (containerOf cadModel 0 1)
                  ltac:(lia) eq_refl eq_refl).
    simpl in H. lia.
Qed.

(** C5 (amended): along every history of an instance, the offset of each
    registration is the sum of the sector counts registered before it and the
    running total is the sum of all of them; a later registration starts at
    or after the end of every earlier one (so offsets never decrease, and
    increase strictly past a model that has sectors), whether the earlier
    model is still tracked or was removed; every tracked container is one of
    the registrations, and the ranges of two models tracked under different
    keys share no id. *)
Theorem id_ranges_partition log st :
  trace log st ->
  (forall i c, log !! i = Some c ->
     SectorContainer.sectorIdOffset c = sum_list (sectorCount <$> take i log))
  ∧ sectorIdOffset st = sum_list (sectorCount <$> log)
  ∧ (forall i j ci cj,
       i < j -> log !! i = Some ci -> log !! j = Some cj ->
       SectorContainer.sectorIdOffset ci + sectorCount ci
         ≤ SectorContainer.sectorIdOffset cj
       ∧ SectorContainer.sectorIdOffset ci ≤ SectorContainer.sectorIdOffset cj
       ∧ (0 < sectorCount ci ->
          SectorContainer.sectorIdOffset ci < SectorContainer.sectorIdOffset cj))
  ∧ (forall k c, JsMap.get k (containers st) = Some c -> c ∈ log)
  ∧ (forall k1 k2 c1 c2 g,
       k1 ≠ k2 ->
       JsMap.get k1 (containers st) = Some c1 ->
       JsMap.get k2 (containers st) = Some c2 ->
       contains_id c1 g = true -> contains_id c2 g = false).
Proof.
  intros Ht. destruct (trace_invariant log st Ht) as (Hcons & Hok & Hin).
  split; [|split; [|split; [|split]]].
  - intros i c Hi. by rewrite (consecutive_ranges_lookup 0 log _ i c Hcons Hi).
  - by rewrite (consecutive_ranges_total 0 log _ Hcons).
  - intros i j ci cj Hij Hi Hj.
    pose proof (ordered_ranges_lookup 0 log _ i j ci cj
                  (consecutive_ordered _ _ _ Hcons) Hij Hi Hj) as Hle.
    unfold range_end in Hle. lia.
  - intros k c Hget. apply Hin. unfold JsMap.values.
    apply list_elem_of_fmap. exists (k, c). split; [done|].
    by apply JsMapFacts.get_Some_elem.
  - intros k1 k2 c1 c2 g Hne H1 H2 Hg1.
    destruct (contains_id c2 g) eqn:Hg2; [|done].
    exfalso. by eapply (tracked_disjoint st k1 k2 c1 c2 g).
Qed.

(** Witness for C5: [model1] and [model2] are registered, [model1] is dropped
    and then registered again; its second range starts at 2, after both
    earlier ranges. *)
Lemma id_ranges_partition_witness :
  let st := instanceAfter (Some (64, 64))
              [[model1; model2]; [model2]; [model1; model2]] in
  exists log,
    trace log st
    ∧ SectorContainer.model <$> log = [model1; model2; model1]
    ∧ SectorContainer.sectorIdOffset <$> log = [0; 1; 2]
    ∧ sectorIdOffset st = 3.
Proof.
  cbv zeta. eexists.
  match goal with |- trace ?l ?s ∧ _ => assert (Ht : trace l s) end.
  { eapply (trace_setModels _
              (instanceAfter (Some (64, 64)) [[model1; model2]; [model2]])
              [model1; model2]).
    - eapply (trace_setModels _
                (instanceAfter (Some (64, 64)) [[model1; model2]]) [model2]).
      + eapply (trace_setModels [] (constructor (Some (64, 64)))
                  [model1; model2]).
        * apply trace_constructor.
        * vm_compute. reflexivity.
      + vm_compute. reflexivity.
    - vm_compute. reflexivity. }
  split; [exact Ht|]. split; [vm_compute; reflexivity|].
  split; [vm_compute; reflexivity|].
  destruct (id_ranges_partition _ _ Ht) as (_ & Htotal & _).
  rewrite Htotal. vm_compute. reflexivity.
Defined.

(** ** Tracked models across [setModels] *)

Lemma get_filter {V : Type} (Q : string * V -> Prop)
    `{!forall kv, Decision (Q kv)} (m : list (string * V)) k :
  (forall v, Q (k, v)) -> JsMap.get k (filter Q m) = JsMap.get k m.
Proof.
  intros Hk. induction m as [|[k' v'] m IH]; [done|].
  rewrite filter_cons. simpl.
  destruct (decide (Q (k', v'))) as [Hk'|Hk']; simpl.
  - destruct (decide (k = k')); [done | exact IH].
  - destruct (decide (k = k')) as [->|]; [|exact IH].
    exfalso. apply Hk', Hk.
Qed.

Lemma tracked_refs_differ st k1 k2 c1 c2 :
  registry_ok st -> k1 ≠ k2 ->
  JsMap.get k1 (containers st) = Some c1 ->
  JsMap.get k2 (containers st) = Some c2 ->
  SectorContainer.renderable c1 ≠ SectorContainer.renderable c2.
Proof.
  intros [_ _ Hnd _] Hne [i Hi]%tracked_position [j Hj]%tracked_position Heq.
  assert (i = j) as ->; [|congruence].
  apply (NoDup_lookup _ i j (SectorContainer.renderable c1) Hnd);
    unfold JsMap.values; rewrite !list_lookup_fmap.
  - by rewrite Hi.
  - rewrite Hj. simpl. by rewrite Heq.
Qed.

Lemma tracked_ref_valid st k c :
  registry_ok st -> JsMap.get k (containers st) = Some c ->
  SectorContainer.renderable c < length (objects st).
Proof.
  intros [_ _ _ Hv] Hget. rewrite Forall_forall in Hv. apply Hv.
  unfold JsMap.values. apply list_elem_of_fmap. exists (k, c).
  split; [done|]. by apply JsMapFacts.get_Some_elem.
Qed.

Lemma setModels_visit_tracked k c g models keep st keep' st1 :
  registry_ok st ->
  JsMap.get k (containers st) = Some c ->
  objects st !! SectorContainer.renderable c = Some g ->
  foldl setModels_visit (keep, st) models = (keep', st1) ->
  JsMap.get k (containers st1) = Some c
  ∧ objects st1 !! SectorContainer.renderable c
    = Some (foldl (retransform k) g models).
Proof.
  revert keep st g. induction models as [|model models IH];
    intros keep st g Hok Hget Hobj; simpl.
  - by intros [= <- <-].
  - destruct (JsMap.get (CadModelMetadata.blobUrl model) (containers st))
      as [c'|] eqn:Hget'; intros Hrun.
    + eapply IH in Hrun; [exact Hrun| by apply updateModel_ok | exact Hget |].
      simpl. unfold retransform.
      destruct (decide (CadModelMetadata.blobUrl model = k)) as [Hk|Hk].
      * assert (c' = c) as -> by congruence.
        by rewrite list_lookup_alter_eq, Hobj.
      * rewrite list_lookup_alter_ne; [done|].
        by eapply (tracked_refs_differ st _ k c' c).
    + assert (CadModelMetadata.blobUrl model ≠ k) as Hk by congruence.
      eapply IH in Hrun; [exact Hrun| by apply addModel_ok | |].
      * rewrite addModel_containers by done. by apply JsMapFacts.get_app_l.
      * simpl. unfold retransform. rewrite decide_False by done.
        apply lookup_app_l_Some. exact Hobj.
Qed.

Lemma updateMatrix_updateMatrix m1 m2 g :
  updateMatrix m2 (updateMatrix m1 g) = updateMatrix m2 g.
Proof. done. Qed.

Lemma foldl_retransform k g models :
  foldl (retransform k) g models
  = match last (filter (fun m => CadModelMetadata.blobUrl m = k) models) with
    | Some model => updateMatrix (CadModelMetadata.modelMatrix model) g
    | None => g
    end.
Proof.
  induction models as [|model models IH] using rev_ind; [done|].
  rewrite foldl_app, filter_app. simpl. rewrite IH. unfold retransform.
  rewrite filter_cons, filter_nil.
  destruct (decide (CadModelMetadata.blobUrl model = k)).
  - rewrite last_snoc.
    by destruct (last (filter _ models)).
  - by rewrite app_nil_r.
Qed.

(** ** C8: a tracked model is only re-transformed *)

(** C8: when [setModels] runs on a reachable instance and the input has a
    model whose key [k] is already tracked, the container under [k] is the
    same record afterwards (same registered model, sector list, id offset and
    group reference), the group keeps its proxy mesh, its matrix and world
    matrix are the matrix of the last input model with key [k], and if every
    input key was tracked the running id offset has not moved. *)
Theorem setModels_tracked_transform_only st models st' k c :
  reachable st ->
  setModels models st = Ok st' ->
  k ∈ blobUrls models ->
  JsMap.get k (containers st) = Some c ->
  JsMap.get k (containers st') = Some c
  ∧ (exists g g' model,
       objects st !! SectorContainer.renderable c = Some g
       ∧ objects st' !! SectorContainer.renderable c = Some g'
       ∧ last (filter (fun m => CadModelMetadata.blobUrl m = k) models) = Some model
       ∧ Group.mesh g' = Group.mesh g
       ∧ Group.matrixAutoUpdate g' = Group.matrixAutoUpdate g
       ∧ Group.matrix g' = CadModelMetadata.modelMatrix model
       ∧ Group.matrixWorld g' = CadModelMetadata.modelMatrix model)
  ∧ ((forall m, m ∈ models ->
        CadModelMetadata.blobUrl m ∈ JsMap.keys (containers st)) ->
     sectorIdOffset st' = sectorIdOffset st).
Proof.
  intros Hr Hrun Hk Hget. pose proof (reachable_ok st Hr) as Hok.
  destruct (lookup_lt_is_Some_2 (objects st) (SectorContainer.renderable c))
    as [g Hg]; [by eapply tracked_ref_valid|].
  unfold setModels in Hrun.
  destruct (foldl setModels_visit (∅, st) models) as [keep' st1] eqn:Hloop.
  destruct (setModels_visit_tracked k c g models ∅ st keep' st1 Hok Hget Hg Hloop)
    as [Hget1 Hg1].
  destruct (setModels_visit_loop models ∅ st keep' st1 Hok Hloop)
    as (news & Hcs & Hcons & Hkeep & Hnews & _ & _ & Hok1).
  destruct (setModels_discard_spec
              (filter (fun x => x ∉ keep') (JsMap.keys (containers st1))) st1)
    as (st2 & Hrun2 & Hcs2 & Hoff2 & Hobj2 & _ & _ & _); [done|..].
  { apply NoDup_filter. apply Hok1. }
  { intros k0 Hk0. by apply list_elem_of_filter in Hk0 as [_ ?]. }
  rewrite Hrun in Hrun2. injection Hrun2 as <-.
  split; [|split].
  - rewrite Hcs2, get_filter; [done|]. intros v. simpl.
    rewrite list_elem_of_filter. intros [Hn _]. apply Hn, Hkeep. by right.
  - rewrite Hobj2, Hg1, foldl_retransform.
    destruct (last (filter _ models)) as [model|] eqn:Hlast.
    + exists g, (updateMatrix (CadModelMetadata.modelMatrix model) g), model.
      by split_and!.
    + exfalso. apply last_None in Hlast.
      apply list_elem_of_fmap in Hk as (m & -> & Hm).
      apply (filter_nil_not_elem_of _ _ m) in Hlast; done.
  - intros Hall. rewrite Hoff2. destruct news as [|[k0 c0] news].
    + simpl in Hcons. done.
    + exfalso. assert (k0 ∈ blobUrls models) as Hin.
      { apply Hnews. simpl. apply elem_of_cons. by left. }
      apply list_elem_of_fmap in Hin as (m & -> & Hm). apply Hall in Hm.
      destruct Hok1 as [Hnd _ _ _]. rewrite Hcs in Hnd.
      unfold JsMap.keys in Hnd. rewrite fmap_app in Hnd.
      apply NoDup_app in Hnd as (_ & Hdisj & _).
      apply (Hdisj _ Hm). simpl. apply elem_of_cons. by left.
Qed.

(** Witness for C8: [model1] and [model2] are tracked, then [setModels] gets
    a moved [model1] only. The container of [model1] is kept as it is (even
    its registered model record and sector list), its group is moved. *)
Lemma setModels_tracked_transform_only_witness :
  let st := instanceAfter (Some (64, 64)) [[model1; model2]] in
  let st' := instanceAfter (Some (64, 64)) [[model1; model2]; [movedModel1]] in
  let c := containerOf model1 0 0 in
  reachable st
  ∧ setModels [movedModel1] st = Ok st'
  ∧ "model1" ∈ blobUrls [movedModel1]
  ∧ JsMap.get "model1" (containers st) = Some c
  ∧ JsMap.get "model1" (containers st') = Some c
  ∧ Group.matrix <$> objects st' !! SectorContainer.renderable c
    = Some translatedMatrix
  ∧ sectorIdOffset st' = sectorIdOffset st.
Proof.
  cbv zeta.
  pose proof (instanceAfter_reachable (Some (64, 64)) [[model1; model2]]) as Hr.
  assert (setModels [movedModel1]
            (instanceAfter (Some (64, 64)) [[model1; model2]])
          = Ok (instanceAfter (Some (64, 64)) [[model1; model2]; [movedModel1]]))
    as Hrun by (vm_compute; reflexivity).
  assert (JsMap.get "model1"
            (containers (instanceAfter (Some (64, 64)) [[model1; model2]]))
          = Some (containerOf model1 0 0)) as Hget
    by (vm_compute; reflexivity).
  assert (Hk : "model1" ∈ blobUrls [movedModel1]) by (apply elem_of_cons; by left).
  destruct (setModels_tracked_transform_only _ _ _ _ _ Hr Hrun Hk Hget)
    as (Hget' & (g & g' & model & Hg & Hg' & Hlast & _ & _ & Hmatrix & _) & Hoff).
  split; [exact Hr|]. split; [exact Hrun|]. split; [exact Hk|].
  split; [exact Hget|]. split; [exact Hget'|]. split.
  - rewrite Hg'. simpl. rewrite Hmatrix. by injection Hlast as <-.
  - apply Hoff. intros m ->%list_elem_of_singleton.
    apply elem_of_cons. by left.
Defined.

(** ** C7: proxy instances *)

Section ProxyInstances.
Variable sectorIdOffset : nat.
Implicit Types (mesh : InstancedMesh.t) (sector : SectorMetadata.t).

Let add sector mesh :=
  let f := coverageFactors (SectorMetadata.facesFile sector) in
  addSector sectorIdOffset (SectorMetadata.bounds sector)
    (SectorMetadata.id sector) (yz f, xz f, xy f) mesh.

Lemma addSector_size sector mesh :
  InstancedMesh.count (add sector mesh) = InstancedMesh.count mesh
  ∧ length (InstancedMesh.instanceMatrix (add sector mesh))
    = length (InstancedMesh.instanceMatrix mesh)
  ∧ length (InstancedMesh.instanceValues (add sector mesh))
    = length (InstancedMesh.instanceValues mesh).
Proof.
  unfold add, addSector. simpl. by rewrite !length_insert.
Qed.

Lemma addSector_slot sector mesh :
  SectorMetadata.id sector < length (InstancedMesh.instanceMatrix mesh) ->
  4 * SectorMetadata.id sector + 3 < length (InstancedMesh.instanceValues mesh) ->
  slot (add sector mesh) (SectorMetadata.id sector)
  = slot_of sectorIdOffset sector.
Proof.
  intros Hm Hv. unfold slot, slot_of, slot_for, add, addSector, toThreeJsBox3.
  simpl.
  rewrite list_lookup_insert_eq by done.
  repeat first
    [ rewrite list_lookup_insert_eq by (rewrite ?length_insert; lia)
    | rewrite list_lookup_insert_ne by lia ].
  done.
Qed.

Lemma addSector_other sector mesh i :
  SectorMetadata.id sector ≠ i -> slot (add sector mesh) i = slot mesh i.
Proof.
  intros Hne. unfold slot, add, addSector. simpl.
  rewrite list_lookup_insert_ne by done.
  by rewrite !list_lookup_insert_ne by lia.
Qed.

Lemma addSectors_cons sector sectors mesh :
  addSectors sectorIdOffset (sector :: sectors) mesh
  = addSectors sectorIdOffset sectors (add sector mesh).
Proof. reflexivity. Qed.

Lemma addSectors_size sectors mesh :
  InstancedMesh.count (addSectors sectorIdOffset sectors mesh)
  = InstancedMesh.count mesh
  ∧ length (InstancedMesh.instanceMatrix (addSectors sectorIdOffset sectors mesh))
    = length (InstancedMesh.instanceMatrix mesh)
  ∧ length (InstancedMesh.instanceValues (addSectors sectorIdOffset sectors mesh))
    = length (InstancedMesh.instanceValues mesh).
Proof.
  revert mesh. induction sectors as [|sector sectors IH]; intros mesh; [done|].
  rewrite addSectors_cons. destruct (IH (add sector mesh)) as (-> & -> & ->).
  apply addSector_size.
Qed.

Lemma addSectors_other sectors mesh i :
  (forall sector, sector ∈ sectors -> SectorMetadata.id sector ≠ i) ->
  slot (addSectors sectorIdOffset sectors mesh) i = slot mesh i.
Proof.
  revert mesh. induction sectors as [|sector sectors IH]; intros mesh Hne; [done|].
  rewrite addSectors_cons, IH.
  - apply addSector_other. apply Hne, elem_of_cons. by left.
  - intros s Hs. apply Hne, elem_of_cons. by right.
Qed.

Lemma addSectors_slot sectors mesh sector :
  NoDup (SectorMetadata.id <$> sectors) ->
  sector ∈ sectors ->
  SectorMetadata.id sector < length (InstancedMesh.instanceMatrix mesh) ->
  4 * SectorMetadata.id sector + 3 < length (InstancedMesh.instanceValues mesh) ->
  slot (addSectors sectorIdOffset sectors mesh) (SectorMetadata.id sector)
  = slot_of sectorIdOffset sector.
Proof.
  revert mesh. induction sectors as [|s0 sectors IH]; intros mesh Hnd Hin Hm Hv.
  - by apply elem_of_nil in Hin.
  - simpl in Hnd. apply NoDup_cons in Hnd as [Hid Hnd].
    rewrite addSectors_cons.
    apply elem_of_cons in Hin as [->|Hin].
    + rewrite addSectors_other; [by apply addSector_slot|].
      intros s Hs Heq. apply Hid. rewrite <- Heq.
      apply list_elem_of_fmap. by exists s.
    + destruct (addSector_size s0 mesh) as (_ & H5 & H6).
      apply IH; [done|done|..]; lia.
Qed.
End ProxyInstances.

Lemma foldl_retransform_mesh k g models :
  Group.mesh (foldl (retransform k) g models) = Group.mesh g.
Proof.
  rewrite foldl_retransform. by destruct (last _).
Qed.

(** The first input model with an untracked key [k] is the one [setModels]
    registers under [k]. *)
Lemma setModels_visit_registers k model models keep st keep' st1 :
  registry_ok st ->
  JsMap.get k (containers st) = None ->
  head (filter (fun m => CadModelMetadata.blobUrl m = k) models) = Some model ->
  foldl setModels_visit (keep, st) models = (keep', st1) ->
  exists c g,
    JsMap.get k (containers st1) = Some c
    ∧ SectorContainer.model c = model
    ∧ SectorContainer.sectors c = getAllSectors (CadModelMetadata.scene model)
    ∧ objects st1 !! SectorContainer.renderable c = Some g
    ∧ Group.mesh g
      = Group.mesh (createSectorTreeMesh (SectorContainer.sectorIdOffset c)
                      (SectorContainer.sectors c)
                      (CadModelMetadata.modelMatrix model)).
Proof.
  revert keep st. induction models as [|m models IH]; intros keep st Hok Hget Hhead;
    [done|].
  rewrite filter_cons in Hhead. simpl.
  destruct (decide (CadModelMetadata.blobUrl m = k)) as [Hk|Hk].
  - injection Hhead as ->. rewrite Hk, Hget. intros Hrun.
    pose proof (addModel_containers model st) as Hcs. rewrite Hk in Hcs.
    specialize (Hcs Hget).
    assert (exists c,
               JsMap.get k (containers (addModel model st)) = Some c
               ∧ SectorContainer.model c = model
               ∧ SectorContainer.sectors c
                 = getAllSectors (CadModelMetadata.scene model)
               ∧ SectorContainer.sectorIdOffset c = sectorIdOffset st
               ∧ SectorContainer.renderable c = length (objects st))
      as (c & Hc & Hm & Hs & Ho & Href).
    { eexists. split.
      - rewrite Hcs, JsMapFacts.get_app_r by done. simpl. by rewrite decide_True.
      - by split_and!. }
    set (g := createSectorTreeMesh (sectorIdOffset st)
                (getAllSectors (CadModelMetadata.scene model))
                (CadModelMetadata.modelMatrix model)).
    assert (objects (addModel model st) !! SectorContainer.renderable c = Some g)
      as Hg.
    { rewrite Href. simpl. by rewrite lookup_app_r, Nat.sub_diag. }
    apply (setModels_visit_tracked k c g models) in Hrun as [Hget1 Hobj1];
      [|apply addModel_ok; [by rewrite Hk | done]|done|done].
    exists c, (foldl (retransform k) g models).
    split; [done|]. split; [done|]. split; [done|]. split; [done|].
    by rewrite foldl_retransform_mesh, Hs, Ho.
  - destruct (JsMap.get (CadModelMetadata.blobUrl m) (containers st))
      as [c'|] eqn:Hget'; intros Hrun.
    + eapply IH in Hrun; [exact Hrun | by apply updateModel_ok | done | done].
    + eapply IH in Hrun; [exact Hrun | by apply addModel_ok | | done].
      rewrite addModel_containers by done.
      rewrite JsMapFacts.get_app_r by done. simpl.
      by rewrite decide_False by congruence.
Qed.

Lemma setModels_registers k model models st st' :
  registry_ok st ->
  JsMap.get k (containers st) = None ->
  head (filter (fun m => CadModelMetadata.blobUrl m = k) models) = Some model ->
  setModels models st = Ok st' ->
  exists c g,
    JsMap.get k (containers st') = Some c
    ∧ SectorContainer.model c = model
    ∧ SectorContainer.sectors c = getAllSectors (CadModelMetadata.scene model)
    ∧ objects st' !! SectorContainer.renderable c = Some g
    ∧ Group.mesh g
      = Group.mesh (createSectorTreeMesh (SectorContainer.sectorIdOffset c)
                      (SectorContainer.sectors c)
                      (CadModelMetadata.modelMatrix model)).
Proof.
  intros Hok Hget Hhead Hrun. unfold setModels in Hrun.
  destruct (foldl setModels_visit (∅, st) models) as [keep' st1] eqn:Hloop.
  destruct (setModels_visit_registers k model models ∅ st keep' st1
              Hok Hget Hhead Hloop) as (c & g & Hget1 & Hm & Hs & Hobj & Hmesh).
  destruct (setModels_visit_loop models ∅ st keep' st1 Hok Hloop)
    as (news & Hcs & Hcons & Hkeep & Hnews & _ & _ & Hok1).
  destruct (setModels_discard_spec
              (filter (fun x => x ∉ keep') (JsMap.keys (containers st1))) st1)
    as (st2 & Hrun2 & Hcs2 & Hoff2 & Hobj2 & _ & _ & _); [done|..].
  { apply NoDup_filter. apply Hok1. }
  { intros k0 Hk0. by apply list_elem_of_filter in Hk0 as [_ ?]. }
  rewrite Hrun in Hrun2. injection Hrun2 as <-.
  exists c, g. split; [|by rewrite Hobj2].
  rewrite Hcs2, get_filter; [done|]. intros v. simpl.
  rewrite list_elem_of_filter. intros [Hn _]. apply Hn, Hkeep. right.
  apply head_Some_elem_of in Hhead.
  apply list_elem_of_filter in Hhead as [<- Hin].
  apply list_elem_of_fmap. by exists model.
Qed.

Lemma createSectorTreeMesh_mesh sectorIdOffset sectors modelMatrix :
  Group.mesh (createSectorTreeMesh sectorIdOffset sectors modelMatrix)
  = addSectors sectorIdOffset sectors
      {| InstancedMesh.count := length sectors;
         InstancedMesh.instanceMatrix := replicate (length sectors) Matrix4.zero;
         InstancedMesh.instanceValues := replicate (4 * length sectors) 0%R |}.
Proof. reflexivity. Qed.

Lemma createSectorTreeMesh_size sectorIdOffset sectors modelMatrix :
  let mesh := Group.mesh (createSectorTreeMesh sectorIdOffset sectors modelMatrix) in
  InstancedMesh.count mesh = length sectors
  ∧ length (InstancedMesh.instanceMatrix mesh) = length sectors
  ∧ length (InstancedMesh.instanceValues mesh) = 4 * length sectors.
Proof.
  cbv zeta. rewrite createSectorTreeMesh_mesh.
  destruct (addSectors_size sectorIdOffset sectors
              {| InstancedMesh.count := length sectors;
                 InstancedMesh.instanceMatrix := replicate (length sectors) Matrix4.zero;
                 InstancedMesh.instanceValues := replicate (4 * length sectors) 0%R |})
    as (-> & -> & ->).
  simpl. by rewrite !length_replicate.
Qed.

Lemma createSectorTreeMesh_slot sectorIdOffset sectors modelMatrix sector :
  NoDup (SectorMetadata.id <$> sectors) ->
  sector ∈ sectors ->
  SectorMetadata.id sector < length sectors ->
  slot (Group.mesh (createSectorTreeMesh sectorIdOffset sectors modelMatrix))
       (SectorMetadata.id sector)
  = slot_of sectorIdOffset sector.
Proof.
  intros Hnd Hin Hid. rewrite createSectorTreeMesh_mesh.
  apply addSectors_slot; [done|done|..]; simpl; rewrite length_replicate; lia.
Qed.

Lemma ids_by_position_NoDup (sectors : list SectorMetadata.t) :
  (forall i sector, sectors !! i = Some sector -> SectorMetadata.id sector = i) ->
  NoDup (SectorMetadata.id <$> sectors).
Proof.
  intros Hpos. apply NoDup_alt. intros i j x.
  rewrite !list_lookup_fmap.
  destruct (sectors !! i) as [si|] eqn:Hi; [|done].
  destruct (sectors !! j) as [sj|] eqn:Hj; [|done].
  simpl. intros [= <-] [= Heq].
  apply Hpos in Hi, Hj. congruence.
Qed.

(** C7, counterexample: for a model that lists sector 1 before sector 0, the
    instance with local id 0 stands for the sector at position 1, not for the
    sector at position 0. *)
Lemma instance_slot_follows_sector_id :
  exists st c g,
    setModels [swappedModel] (constructor None) = Ok st
    ∧ JsMap.get "swapped" (containers st) = Some c
    ∧ objects st !! SectorContainer.renderable c = Some g
    ∧ slot (Group.mesh g) 0
      = slot_for (SectorContainer.sectorIdOffset c) 0 (coveredSector 0 1)
    ∧ ¬ instances_by_position (SectorContainer.sectorIdOffset c)
          (SectorContainer.sectors c) (Group.mesh g).
Proof.
  destruct (setModels_spec [swappedModel] (constructor None) (constructor_ok None))
    as (st & _ & Hrun & _).
  destruct (setModels_registers "swapped" swappedModel [swappedModel]
              (constructor None) st (constructor_ok None))
    as (c & g & Hget & _ & Hs & Hobj & Hmesh); [done..|].
  exists st, c, g. split; [done|]. split; [done|]. split; [done|].
  assert (slot (Group.mesh g) 0
          = slot_for (SectorContainer.sectorIdOffset c) 0 (coveredSector 0 1))
    as Hslot.
  { rewrite Hmesh, Hs.
    apply (createSectorTreeMesh_slot _ _ _ (coveredSector 0 1)); simpl.
    - apply NoDup_cons. split; [|apply NoDup_singleton].
      intros Hin%list_elem_of_singleton. discriminate Hin.
    - apply elem_of_cons. right. apply elem_of_cons. by left.
    - lia. }
  split; [done|]. intros Hpos.
  specialize (Hpos 0 (coveredSector 1 (1 / 2))). rewrite Hs in Hpos.
  specialize (Hpos eq_refl). rewrite Hslot in Hpos.
  apply (f_equal (fun t => t.1.1.2)) in Hpos. simpl in Hpos.
  injection Hpos as Hyz. lra.
Qed.

(** C7 (amended): when [setModels] first registers a model on a reachable
    instance, the proxy mesh has one instance slot per sector of the model,
    and each sector fills the slot whose local id is the sector's own [id]:
    if the ids of the list are distinct, every sector with an id below the
    sector count has in slot [id] the box transform of its bounds, the
    encoded value [offset + id] and the coverage factors (yz, xz, xy) of its
    metadata. If the list is in id order (the sector at position [i] has id
    [i]), the local id is the position. *)
Theorem first_registration_instances st models st' model :
  reachable st ->
  setModels models st = Ok st' ->
  JsMap.get (CadModelMetadata.blobUrl model) (containers st) = None ->
  head (filter (fun m => CadModelMetadata.blobUrl m = CadModelMetadata.blobUrl model)
          models) = Some model ->
  exists c g,
    JsMap.get (CadModelMetadata.blobUrl model) (containers st') = Some c
    ∧ SectorContainer.model c = model
    ∧ SectorContainer.sectors c = getAllSectors (CadModelMetadata.scene model)
    ∧ objects st' !! SectorContainer.renderable c = Some g
    ∧ InstancedMesh.count (Group.mesh g) = length (SectorContainer.sectors c)
    ∧ length (InstancedMesh.instanceMatrix (Group.mesh g))
      = length (SectorContainer.sectors c)
    ∧ length (InstancedMesh.instanceValues (Group.mesh g))
      = 4 * length (SectorContainer.sectors c)
    ∧ (NoDup (SectorMetadata.id <$> SectorContainer.sectors c) ->
       forall sector,
         sector ∈ SectorContainer.sectors c ->
         SectorMetadata.id sector < length (SectorContainer.sectors c) ->
         slot (Group.mesh g) (SectorMetadata.id sector)
         = slot_for (SectorContainer.sectorIdOffset c) (SectorMetadata.id sector)
             sector)
    ∧ ((forall i sector,
          SectorContainer.sectors c !! i = Some sector ->
          SectorMetadata.id sector = i) ->
       instances_by_position (SectorContainer.sectorIdOffset c)
         (SectorContainer.sectors c) (Group.mesh g)).
Proof.
  intros Hr Hrun Hget Hhead.
  destruct (setModels_registers _ model models st st' (reachable_ok st Hr)
              Hget Hhead Hrun) as (c & g & Hget' & Hm & Hs & Hobj & Hmesh).
  exists c, g. split; [done|]. split; [done|]. split; [done|]. split; [done|].
  rewrite Hmesh.
  destruct (createSectorTreeMesh_size (SectorContainer.sectorIdOffset c)
              (SectorContainer.sectors c) (CadModelMetadata.modelMatrix model))
    as (H1 & H2 & H3).
  split; [done|]. split; [done|]. split; [done|]. split.
  - intros Hnd sector Hin Hid. by apply createSectorTreeMesh_slot.
  - intros Hpos i sector Hi.
    rewrite <- (Hpos i sector Hi) at 1 2.
    apply createSectorTreeMesh_slot.
    + by apply ids_by_position_NoDup.
    + by eapply list_elem_of_lookup_2.
    + rewrite (Hpos i sector Hi). by eapply lookup_lt_Some.
Qed.

(** Witness for C7: the first registration of [cadModel], whose one sector
    has id 0 and sits at position 0. *)
Lemma first_registration_instances_witness :
  exists st c g,
    setModels [cadModel] (constructor None) = Ok st
    ∧ JsMap.get "model" (containers st) = Some c
    ∧ objects st !! SectorContainer.renderable c = Some g
    ∧ InstancedMesh.count (Group.mesh g) = 1
    ∧ instances_by_position 0 [stubSector 0] (Group.mesh g).
Proof.
  destruct (setModels_spec [cadModel] (constructor None) (constructor_ok None))
    as (st & _ & Hrun & _).
  assert (Hr : reachable (constructor None)).
  { exists []. apply trace_constructor. }
  destruct (first_registration_instances (constructor None) [cadModel] st cadModel
              Hr Hrun eq_refl eq_refl)
    as (c & g & Hget & Hm & Hs & Hobj & Hcount & _ & _ & _ & Hpos).
  assert (SectorContainer.sectorIdOffset c = 0) as Ho.
  { vm_compute in Hrun. injection Hrun as <-. vm_compute in Hget.
    by injection Hget as <-. }
  exists st, c, g. split; [done|]. split; [done|]. split; [done|].
  rewrite Hs in *. rewrite Ho in *. split; [done|].
  apply Hpos. intros [|[|i]] sector; simpl; [by intros [= <-] | done | done].
Defined.

(** ** The aggregator, pixel by pixel *)

Lemma unpack_pixel_eq w h buffer y x sv :
  unpack_pixel w h buffer y x sv
  = match decode buffer (x + w * y) with
    | Some (sectorIdWithOffset, distance) =>
        array_set sectorIdWithOffset
          (accumulate (entry_at sv sectorIdWithOffset) sectorIdWithOffset
             distance (pixel_weight w h y))
          sv
    | None => sv
    end.
Proof.
  unfold unpack_pixel, decode.
  destruct (negb _ || negb _ || negb _); [|done].
  f_equal. unfold accumulate, entry_at, pixel_weight.
  by destruct (sv !! _) as [[v|]|].
Qed.

Lemma entry_at_array_set (sv : list (option SectorVisibility.t)) i j v :
  entry_at (array_set i v sv) j = if decide (i = j) then Some v else entry_at sv j.
Proof.
  unfold entry_at, array_set.
  destruct (Nat.ltb_spec i (length sv)) as [Hlt|Hge].
  - destruct (decide (i = j)) as [->|Hne].
    + by rewrite list_lookup_insert_eq.
    + by rewrite list_lookup_insert_ne.
  - destruct (decide (i = j)) as [->|Hne].
    + rewrite lookup_app_r by lia.
      rewrite lookup_app_r by (rewrite length_replicate; lia).
      rewrite length_replicate. by replace (j - length sv - (j - length sv)) with 0 by lia.
    + destruct (decide (j < length sv)) as [Hj|Hj].
      * by rewrite lookup_app_l.
      * rewrite lookup_app_r by lia. rewrite (lookup_ge_None_2 sv j) by lia.
        destruct (decide (j - length sv < i - length sv)) as [Hj'|Hj'].
        -- rewrite lookup_app_l by (rewrite length_replicate; lia).
           by rewrite lookup_replicate_2 by lia.
        -- rewrite lookup_app_r by (rewrite length_replicate; lia).
           rewrite length_replicate.
           destruct (j - length sv - (i - length sv)) as [|n] eqn:Hn; [lia|].
           done.
Qed.

(** ** Sorting and mapping *)

Lemma sort_insert_Permutation x l : sort_insert x l ≡ₚ x :: l.
Proof.
  induction l as [|y l IH]; simpl; [done|].
  destruct (bool_decide _); [|done].
  rewrite IH. apply perm_swap.
Qed.

Lemma sort_Permutation l : sort l ≡ₚ l.
Proof.
  induction l as [|x l IH]; simpl; [done|].
  fold (sort l). by rewrite sort_insert_Permutation, IH.
Qed.

(** The sort is stable: the entries of one weight keep their order. *)
Lemma sort_insert_stable w x l :
  filter (fun e => SectorVisibility.weight e = w) (sort_insert x l)
  = filter (fun e => SectorVisibility.weight e = w) (x :: l).
Proof.
  induction l as [|y l IH]; [done|]. cbn [sort_insert].
  destruct (bool_decide_reflect
              (SectorVisibility.weight x < SectorVisibility.weight y)%R)
    as [Hlt|Hlt]; [|done].
  rewrite (filter_cons _ y), IH, !filter_cons.
  destruct (decide (SectorVisibility.weight y = w)),
           (decide (SectorVisibility.weight x = w)); try done.
  lra.
Qed.

Lemma sort_stable w l :
  filter (fun e => SectorVisibility.weight e = w) (sort l)
  = filter (fun e => SectorVisibility.weight e = w) l.
Proof.
  induction l as [|x l IH]; [done|]. cbn [sort foldr]. fold (sort l).
  by rewrite sort_insert_stable, !filter_cons, IH.
Qed.

Lemma map_result_Ok {A B : Type} (f : A -> result B) l bs :
  map_result f l = Ok bs -> Forall2 (fun a b => f a = Ok b) l bs.
Proof.
  revert bs. induction l as [|a l IH]; simpl; intros bs.
  - intros [= <-]. constructor.
  - destruct (f a) as [b|] eqn:Hb; simpl; [|done].
    destruct (map_result f l) as [bs'|]; simpl; [|done].
    intros [= <-]. constructor; [done | by apply IH].
Qed.

Lemma map_result_Throw {A B : Type} (f : A -> result B) l :
  (exists m, map_result f l = Throw m) <-> exists a m, a ∈ l ∧ f a = Throw m.
Proof.
  induction l as [|a l IH]; simpl.
  - split; [by intros [m ?] | intros (a & m & Ha & _)]. by apply elem_of_nil in Ha.
  - destruct (f a) as [b|ma] eqn:Hb; simpl.
    + destruct (map_result f l) as [bs'|m'] eqn:Hl; simpl.
      * split; [by intros [m ?]|]. intros (a' & m & [->|Ha']%elem_of_cons & Hf).
        -- congruence.
        -- destruct IH as [_ IH]. destruct IH as [m' ?]; [by exists a', m | done].
      * split; [|by exists m']. intros _.
        destruct IH as [IH _]. destruct IH as (a' & m & Ha' & Hf); [by exists m'|].
        exists a', m. split; [apply elem_of_cons; by right | done].
    + split; [|by exists ma]. intros _. exists a, ma.
      split; [apply elem_of_cons; by left | done].
Qed.

Lemma map_result_total {A B : Type} (f : A -> result B) l :
  (forall a, a ∈ l -> exists b, f a = Ok b) -> exists bs, map_result f l = Ok bs.
Proof.
  intros Hall. destruct (map_result f l) as [bs|m] eqn:H; [by exists bs|].
  destruct (proj1 (map_result_Throw f l)) as (a & m' & Ha & Hf); [by exists m|].
  destruct (Hall a Ha) as [b Hb]. congruence.
Qed.

(** ** The query *)

(** A render brings the world matrix of each child of the scene to the
    child's matrix and leaves the other objects alone. *)
Lemma render_lookup scene objects i :
  render scene objects !! i
  = (fun g => if decide (i ∈ scene) then updateMatrixWorld g else g)
    <$> objects !! i.
Proof.
  revert objects. induction scene as [|ref scene IH]; intros objects.
  - unfold render. cbn [foldl].
    destruct (decide (i ∈ [])) as [H%elem_of_nil|]; [done|].
    by destruct (objects !! i).
  - unfold render in *. cbn [foldl]. rewrite IH.
    destruct (decide (i = ref)) as [->|Hne].
    + rewrite list_lookup_alter, decide_True by done.
      destruct (decide (ref ∈ ref :: scene)) as [_|Hn];
        [|exfalso; apply Hn, elem_of_cons; by left].
      destruct (objects !! ref); simpl; [|done]. by destruct (decide (ref ∈ scene)).
    + rewrite list_lookup_alter_ne by done.
      destruct (decide (i ∈ scene)) as [Hin|Hin],
               (decide (i ∈ ref :: scene)) as [Hin'|Hin']; try done.
      * exfalso. apply Hin', elem_of_cons. by right.
      * by apply elem_of_cons in Hin' as [?|?].
Qed.

Lemma render_render scene objects :
  render scene (render scene objects) = render scene objects.
Proof.
  apply list_eq. intros i. rewrite !render_lookup.
  destruct (objects !! i); simpl; [|done]. by destruct (decide _).
Qed.

Lemma orderSectorsByVisibility_state rendered st :
  let st' := (orderSectorsByVisibility rendered st).1 in
  let width := WebGLRenderTarget.width (renderTarget st) in
  let height := WebGLRenderTarget.height (renderTarget st) in
  containers st' = containers st
  ∧ sectorIdOffset st' = sectorIdOffset st
  ∧ objects st' = render (scene st) (objects st)
  ∧ renderTarget st' = renderTarget st
  ∧ rtBuffer st'
    = readRenderTargetPixels rendered width height (rtBuffer (prepareBuffers st))
  ∧ sectorVisibilityBuffer st'
    = unpackSectorVisibility width height (rtBuffer st')
        (map (option_map blank) (sectorVisibilityBuffer st)).
Proof.
  split_and!; try done.
  cbn [orderSectorsByVisibility fst objects set_buffers prepareBuffers set_registry].
  destruct (debugRenderer st); [apply render_render | done].
Qed.

Lemma orderSectorsByVisibility_result rendered st :
  let st' := (orderSectorsByVisibility rendered st).1 in
  let entries := present (sectorVisibilityBuffer st') in
  (orderSectorsByVisibility rendered st).2
  = map_result (toPrioritized st' (totalWeightOf entries))
      (sort (filter (fun x => (0 < SectorVisibility.weight x)%R) entries)).
Proof. reflexivity. Qed.

(** ** The weight function *)

Section Weight.
Local Open Scope R_scope.

Lemma exp_nonpos_le_1 t : t <= 0 -> exp t <= 1.
Proof.
  intros [Hlt | ->].
  - left. rewrite <- exp_0. by apply exp_increasing.
  - rewrite exp_0. lra.
Qed.

Lemma weight_lower x y : 0.5 * (2.5 - (x * x + y * y)) < weight x y.
Proof.
  unfold weight. pose proof (exp_pos (- sqrt (x * x + y * y))). lra.
Qed.

Lemma weight_upper x y : weight x y <= 0.5 * (2.5 - (x * x + y * y)) + 1.
Proof.
  unfold weight.
  pose proof (exp_nonpos_le_1 (- sqrt (x * x + y * y))) as H.
  pose proof (sqrt_pos (x * x + y * y)). lra.
Qed.

(** The weight is positive on the square of normalized screen positions. *)
Lemma weight_pos x y : -1 <= x <= 1 -> -1 <= y <= 1 -> 0 < weight x y.
Proof.
  intros Hx Hy. pose proof (weight_lower x y).
  assert (x * x <= 1) by nra. assert (y * y <= 1) by nra. lra.
Qed.

(** It is negative far from the center. *)
Lemma weight_neg x y : 4.5 < x * x + y * y -> weight x y < 0.
Proof. intros Hs. pose proof (weight_upper x y). lra. Qed.

(** It decreases strictly with the distance from the center. *)
Lemma weight_decreasing x1 y1 x2 y2 :
  x1 * x1 + y1 * y1 < x2 * x2 + y2 * y2 -> weight x2 y2 < weight x1 y1.
Proof.
  intros Hs. unfold weight.
  assert (0 <= x1 * x1 + y1 * y1) by nra.
  assert (sqrt (x1 * x1 + y1 * y1) < sqrt (x2 * x2 + y2 * y2)) as Hsqrt
    by (apply sqrt_lt_1_alt; lra).
  assert (exp (- sqrt (x2 * x2 + y2 * y2)) < exp (- sqrt (x1 * x1 + y1 * y1)))
    by (apply exp_increasing; lra).
  lra.
Qed.
End Weight.

(** ** Running the query on concrete frames *)

Lemma toPrioritized_found st totalWeight x c :
  find_container (JsMap.values (containers st))
    (SectorVisibility.sectorIdWithOffset x) = Some c ->
  toPrioritized st totalWeight x
  = Ok {| PrioritizedSectorIdentifier.model := SectorContainer.model c;
          PrioritizedSectorIdentifier.sectorId :=
            SectorVisibility.sectorIdWithOffset x
            - SectorContainer.sectorIdOffset c;
          PrioritizedSectorIdentifier.priority :=
            (SectorVisibility.weight x / totalWeight)%R;
          PrioritizedSectorIdentifier.depth := SectorVisibility.distance x |}.
Proof. intros H. unfold toPrioritized, findSectorContainer. by rewrite H. Qed.

Lemma toPrioritized_unresolved st totalWeight x :
  find_container (JsMap.values (containers st))
    (SectorVisibility.sectorIdWithOffset x) = None ->
  toPrioritized st totalWeight x
  = Throw ("Sector ID " ++ pretty (SectorVisibility.sectorIdWithOffset x)
           ++ " is out of range").
Proof. intros H. unfold toPrioritized, findSectorContainer. by rewrite H. Qed.

Lemma toPrioritized_Throw st totalWeight x m :
  toPrioritized st totalWeight x = Throw m ->
  find_container (JsMap.values (containers st))
    (SectorVisibility.sectorIdWithOffset x) = None.
Proof.
  unfold toPrioritized, findSectorContainer.
  by destruct (find_container _ _).
Qed.

(** The query on a state whose render target, accumulator and containers
    are known. *)
Lemma orderSectorsByVisibility_eval rendered st w h d sv0 cs buffer sv :
  renderTarget st
  = {| WebGLRenderTarget.width := w; WebGLRenderTarget.height := h;
       WebGLRenderTarget.disposeCalls := d |} ->
  sectorVisibilityBuffer st = sv0 ->
  containers st = cs ->
  readRenderTargetPixels rendered w h
    (if length (rtBuffer st) <? 4 * w * h then replicate (4 * w * h) x00
     else rtBuffer st) = buffer ->
  unpackSectorVisibility w h buffer (map (option_map blank) sv0) = sv ->
  let st' := (orderSectorsByVisibility rendered st).1 in
  renderTarget st' = renderTarget st
  ∧ containers st' = cs
  ∧ rtBuffer st' = buffer
  ∧ sectorVisibilityBuffer st' = sv
  ∧ (orderSectorsByVisibility rendered st).2
    = map_result (toPrioritized st' (totalWeightOf (present sv)))
        (sort (filter (fun x => (0 < SectorVisibility.weight x)%R) (present sv))).
Proof.
  intros Hrt Hsv Hcs Hbuf Hun.
  destruct (orderSectorsByVisibility_state rendered st)
    as (Hc' & _ & _ & Hrt' & Hbuf' & Hsv').
  cbv zeta in *. unfold prepareBuffers in Hbuf'.
  cbn [rtBuffer set_buffers] in Hbuf'. rewrite Hrt in Hbuf', Hsv'.
  cbn [WebGLRenderTarget.width WebGLRenderTarget.height] in Hbuf', Hsv'.
  rewrite Hbuf in Hbuf'. rewrite Hbuf', Hsv, Hun in Hsv'.
  rewrite Hc', Hcs in *. split_and!; try done.
  rewrite orderSectorsByVisibility_result. cbv zeta. by rewrite Hsv'.
Qed.

Ltac eval_decode :=
  match goal with
  | |- context [decode ?b ?i] =>
      let t := eval vm_compute in (decode b i) in
      change (decode b i) with t
  end.

(** Runs [unpackSectorVisibility] on a concrete buffer, leaving the weights
    as sums of [pixel_weight]. *)
Ltac eval_unpack :=
  unfold unpackSectorVisibility; cbn [foldl seq map option_map blank];
  rewrite ?unpack_pixel_eq; repeat eval_decode;
  cbv [array_set entry_at accumulate];
  cbn -[pixel_weight Rplus].

Section PixelWeights.
Local Open Scope R_scope.

Lemma pixel_weight_1_1_0 : 0 < pixel_weight 1 1 0.
Proof. unfold pixel_weight. simpl. apply weight_pos; lra. Qed.

Lemma pixel_weight_1_3_0 : 0 < pixel_weight 1 3 0 <= 5 / 4.
Proof.
  unfold pixel_weight. simpl. split; [apply weight_pos; lra|].
  etransitivity; [apply weight_upper|]. lra.
Qed.

Lemma pixel_weight_1_3_2 : pixel_weight 1 3 2 < -2.
Proof.
  unfold pixel_weight. simpl.
  eapply Rle_lt_trans; [apply weight_upper|]. lra.
Qed.

Lemma pixel_weight_2_1_0 : pixel_weight 2 1 0 = weight (-1) (-1).
Proof. unfold pixel_weight. simpl. f_equal; lra. Qed.

Lemma centered_weight_2_1_1_0 : centered_weight 2 1 1 0 = weight 0 (-1).
Proof. unfold centered_weight. simpl. f_equal; lra. Qed.
End PixelWeights.

(** ** The aggregator, sample by sample *)

Lemma foldl_ext {A B : Type} (f g : A -> B -> A) a l :
  (forall a b, f a b = g a b) -> foldl f a l = foldl g a l.
Proof.
  intros Hfg. revert a. induction l as [|b l IH]; intros a; simpl; [done|].
  by rewrite Hfg, IH.
Qed.

Lemma foldl_concat_map {A B C : Type} (f : A -> B -> A) (g : C -> list B) a l :
  foldl f a (concat (map g l)) = foldl (fun a c => foldl f a (g c)) a l.
Proof.
  revert a. induction l as [|c l IH]; intros a; simpl; [done|].
  by rewrite foldl_app, IH.
Qed.

Lemma foldl_omap {A B C : Type} (f : A -> C -> A) (s : B -> option C) a l :
  foldl (fun a b => match s b with Some c => f a c | None => a end) a l
  = foldl f a (omap s l).
Proof.
  revert a. induction l as [|b l IH]; intros a; simpl; [done|].
  destruct (s b); simpl; apply IH.
Qed.

Lemma unpackSectorVisibility_samples w h buffer sv :
  unpackSectorVisibility w h buffer sv = foldl add_sample sv (samples w h buffer).
Proof.
  unfold unpackSectorVisibility, samples, pixels.
  rewrite <- foldl_omap, foldl_concat_map.
  apply foldl_ext. intros sv' y. rewrite foldl_fmap.
  apply foldl_ext. intros sv'' x. rewrite unpack_pixel_eq.
  unfold sample_at. simpl. by destruct (decode _ _) as [[g d]|].
Qed.

Lemma entry_at_add_samples ss sv g :
  entry_at (foldl add_sample sv ss) g
  = foldl (add_to g) (entry_at sv g) (samples_of g ss).
Proof.
  revert sv. induction ss as [|[[g' d] wt] ss IH]; intros sv; simpl; [done|].
  rewrite IH. unfold add_sample, samples_of. simpl.
  rewrite entry_at_array_set.
  destruct (decide (g' = g)) as [->|Hne]; simpl; [done|done].
Qed.

Lemma add_to_is_Some g e ds :
  is_Some (foldl (add_to g) e ds) <-> is_Some e \/ ds <> [].
Proof.
  revert e. induction ds as [|s ds IH]; intros e; simpl.
  - split; [by left | by intros [?|?]].
  - rewrite IH. split; [by right|]. intros _. left. by eexists.
Qed.

Lemma sum_R_cons r l : sum_R (r :: l) = (r + sum_R l)%R.
Proof. reflexivity. Qed.

Lemma add_to_weight g e ds :
  weight_of (foldl (add_to g) e ds) = (weight_of e + sum_R ds.*2)%R.
Proof.
  revert e. induction ds as [|[d wt] ds IH]; intros e.
  - unfold sum_R. simpl. lra.
  - rewrite fmap_cons, sum_R_cons. cbn [foldl]. rewrite IH.
    unfold add_to, accumulate, weight_of. destruct e as [e|]; simpl; lra.
Qed.

Lemma add_to_id g e ds x :
  (forall e0, e = Some e0 -> SectorVisibility.sectorIdWithOffset e0 = g) ->
  foldl (add_to g) e ds = Some x -> SectorVisibility.sectorIdWithOffset x = g.
Proof.
  revert e. induction ds as [|[d wt] ds IH]; intros e He; simpl.
  - apply He.
  - apply IH. intros e0 [= <-]. unfold accumulate. simpl.
    destruct e as [e|]; simpl; [by apply He | done].
Qed.

(** The depth of an entry is the minimum of the depth it had before and of
    the depth bytes of its samples. *)
Lemma add_to_distance g e ds x :
  foldl (add_to g) e ds = Some x ->
  SectorVisibility.distance x
  = match e, ds with
    | Some e0, _ => foldl Nat.min (SectorVisibility.distance e0) ds.*1
    | None, s :: ds' => foldl Nat.min s.1 ds'.*1
    | None, [] => 0
    end.
Proof.
  revert e. induction ds as [|[d wt] ds IH]; intros e; simpl.
  - by intros ->.
  - intros H. apply IH in H. rewrite H. unfold add_to, accumulate. simpl.
    destruct e as [e|]; simpl; [done|]. by rewrite Nat.min_id.
Qed.

Lemma entry_at_map_blank (sv : list (option SectorVisibility.t)) g :
  entry_at (map (option_map blank) sv) g = blank <$> entry_at sv g.
Proof.
  unfold entry_at. change (map (option_map blank) sv) with (option_map blank <$> sv).
  rewrite list_lookup_fmap. by destruct (sv !! g) as [[e|]|].
Qed.

Lemma elem_of_present {A : Type} (a : list (option A)) x :
  x ∈ present a <-> exists i, a !! i = Some (Some x).
Proof.
  unfold present. rewrite list_elem_of_omap. split.
  - intros (o & Ho & ->). by apply list_elem_of_lookup in Ho.
  - intros [i Hi]. exists (Some x). split; [|done]. by eapply list_elem_of_lookup_2.
Qed.

Lemma elem_of_present_entry (sv : list (option SectorVisibility.t)) x :
  x ∈ present sv <-> exists g, entry_at sv g = Some x.
Proof.
  rewrite elem_of_present. unfold entry_at. split; intros [g Hg]; exists g.
  - by rewrite Hg.
  - by destruct (sv !! g) as [[e|]|]; simplify_eq/=.
Qed.

Lemma elem_of_concat {A : Type} (x : A) (ls : list (list A)) :
  x ∈ concat ls <-> exists l, x ∈ l ∧ l ∈ ls.
Proof.
  induction ls as [|l0 ls IH]; simpl.
  - split; [by intros ?%elem_of_nil | by intros (l & _ & ?%elem_of_nil)].
  - rewrite elem_of_app, IH. split.
    + intros [H|(l & Hx & Hl)].
      * exists l0. split; [done | apply elem_of_cons; by left].
      * exists l. split; [done | apply elem_of_cons; by right].
    + intros (l & Hx & [->|Hl]%elem_of_cons); [by left|].
      right. by exists l.
Qed.

Lemma elem_of_pixels w h y x : (y, x) ∈ pixels w h <-> y < h ∧ x < w.
Proof.
  unfold pixels. rewrite elem_of_concat. split.
  - intros (l & Hin & Hl). apply list_elem_of_fmap in Hl as (y' & -> & Hy').
    apply list_elem_of_fmap in Hin as (x' & [= -> ->] & Hx').
    apply elem_of_seq in Hy', Hx'. lia.
  - intros [Hy Hx]. exists (map (fun x => (y, x)) (seq 0 w)). split.
    + apply list_elem_of_fmap. exists x. split; [done|]. apply elem_of_seq. lia.
    + apply (list_elem_of_fmap_2 (fun y => map (fun x => (y, x)) (seq 0 w))).
      apply elem_of_seq. lia.
Qed.

(** A sector has samples exactly when a pixel of the target decodes to it. *)
Lemma samples_of_nonempty w h buffer g :
  samples_of g (samples w h buffer) <> [] <->
  exists y x d, y < h ∧ x < w ∧ decode buffer (x + w * y) = Some (g, d).
Proof.
  split.
  - intros Hne. destruct (samples_of g (samples w h buffer)) as [|[d wt] l] eqn:Hs;
      [done|].
    assert ((d, wt) ∈ samples_of g (samples w h buffer)) as Hin
      by (rewrite Hs; apply elem_of_cons; by left).
    unfold samples_of, samples in Hin.
    apply list_elem_of_omap in Hin as ([[g' d'] wt'] & Hin & Hsel).
    simpl in Hsel. destruct (decide (g' = g)) as [->|]; [|done].
    injection Hsel as -> ->.
    apply list_elem_of_omap in Hin as ([y x] & Hp & Hsample).
    apply elem_of_pixels in Hp as [Hy Hx].
    unfold sample_at in Hsample. simpl in Hsample.
    destruct (decode buffer (x + w * y)) as [[g' d']|] eqn:Hd; [|done].
    injection Hsample as -> -> _. by exists y, x, d.
  - intros (y & x & d & Hy & Hx & Hd) Hnil.
    assert ((d, pixel_weight w h y) ∈ samples_of g (samples w h buffer)) as Hin.
    { unfold samples_of, samples. apply list_elem_of_omap.
      exists (g, d, pixel_weight w h y). split.
      - apply list_elem_of_omap. exists (y, x). split; [by apply elem_of_pixels|].
        unfold sample_at. simpl. by rewrite Hd.
      - simpl. by rewrite decide_True. }
    rewrite Hnil in Hin. by apply elem_of_nil in Hin.
Qed.

Lemma samples_of_weight w h buffer g d wt :
  (d, wt) ∈ samples_of g (samples w h buffer) ->
  exists y, y < h ∧ wt = pixel_weight w h y.
Proof.
  unfold samples_of, samples. intros Hin.
  apply list_elem_of_omap in Hin as ([[g' d'] wt'] & Hin & Hsel).
  simpl in Hsel. destruct (decide (g' = g)) as [->|]; [|done].
  injection Hsel as -> ->.
  apply list_elem_of_omap in Hin as ([y x] & Hp & Hsample).
  apply elem_of_pixels in Hp as [Hy Hx].
  unfold sample_at in Hsample. simpl in Hsample.
  destruct (decode buffer (x + w * y)) as [[g' d']|]; [|done].
  injection Hsample as _ _ <-. by exists y.
Qed.

(** What a query leaves at index [g] of the accumulator. *)
Lemma query_entry rendered st g :
  let q := orderSectorsByVisibility rendered st in
  entry_at (sectorVisibilityBuffer q.1) g
  = foldl (add_to g) (blank <$> entry_at (sectorVisibilityBuffer st) g)
      (samples_of g
         (samples (WebGLRenderTarget.width (renderTarget st))
                  (WebGLRenderTarget.height (renderTarget st))
                  (rtBuffer q.1))).
Proof.
  cbv zeta.
  destruct (orderSectorsByVisibility_state rendered st) as (_ & _ & _ & _ & _ & Hsv).
  cbv zeta in Hsv. rewrite Hsv.
  by rewrite unpackSectorVisibility_samples, entry_at_add_samples, entry_at_map_blank.
Qed.

Section Landscape.
Local Open Scope R_scope.

Lemma normalized_bounds a W :
  0 < W -> 0 <= a <= W -> -1 <= (a - W / 2) / (W / 2) <= 1.
Proof.
  intros HW Ha. set (t := (a - W / 2) / (W / 2)).
  assert (t * (W / 2) = a - W / 2) as Ht by (unfold t; field; lra).
  split; nra.
Qed.

(** On a target that is at least as wide as high the row-based horizontal
    position stays inside [-1, 1] and every pixel weight is positive. *)
Lemma pixel_weight_pos (w h y : nat) :
  (0 < h)%nat -> (h <= w)%nat -> (y < h)%nat -> 0 < pixel_weight w h y.
Proof.
  intros Hh Hw Hy. unfold pixel_weight.
  pose proof (pos_INR y). pose proof (lt_INR _ _ Hy). pose proof (le_INR _ _ Hw).
  pose proof (lt_0_INR _ Hh).
  apply weight_pos; apply normalized_bounds; lra.
Qed.

(** The weight the claims describe, with the horizontal position computed
    from the column, is positive on every target. *)
Lemma centered_weight_pos (w h x y : nat) :
  (x < w)%nat -> (y < h)%nat -> 0 < centered_weight w h x y.
Proof.
  intros Hx Hy. unfold centered_weight.
  pose proof (pos_INR x). pose proof (pos_INR y).
  pose proof (lt_INR _ _ Hx). pose proof (lt_INR _ _ Hy).
  apply weight_pos; apply normalized_bounds; lra.
Qed.

Lemma sum_R_nonneg l : Forall (fun r => 0 <= r) l -> 0 <= sum_R l.
Proof.
  induction 1 as [|r l Hr _ IH]; [unfold sum_R; simpl; lra|].
  rewrite sum_R_cons. lra.
Qed.

Lemma sum_R_pos l : l <> [] -> Forall (fun r => 0 < r) l -> 0 < sum_R l.
Proof.
  intros Hne Hall. destruct Hall as [|r l Hr Hl]; [done|].
  rewrite sum_R_cons.
  assert (0 <= sum_R l); [|lra].
  apply sum_R_nonneg. eapply Forall_impl; [done|]. simpl. intros; lra.
Qed.

Lemma sum_R_elem_le l r : Forall (fun r => 0 <= r) l -> r ∈ l -> r <= sum_R l.
Proof.
  induction 1 as [|r0 l Hr0 Hl IH]; [by intros ?%elem_of_nil|].
  rewrite sum_R_cons. pose proof (sum_R_nonneg l Hl).
  intros [->|Hin]%elem_of_cons; [lra|]. apply IH in Hin. lra.
Qed.

Lemma sum_R_Permutation l1 l2 : l1 ≡ₚ l2 -> sum_R l1 = sum_R l2.
Proof.
  induction 1 as [|r l1 l2 _ IH|r1 r2 l|l1 l2 l3 _ IH1 _ IH2];
    rewrite ?sum_R_cons; [done | lra | lra | congruence].
Qed.

Lemma sum_R_div l t : sum_R ((fun r => r / t) <$> l) = sum_R l / t.
Proof.
  induction l as [|r l IH]; [unfold sum_R; simpl; lra|].
  rewrite fmap_cons, !sum_R_cons, IH. lra.
Qed.

Lemma totalWeightOf_sum l :
  totalWeightOf l = sum_R (SectorVisibility.weight <$> l).
Proof.
  unfold totalWeightOf.
  assert (forall a, foldl (fun weight x => SectorVisibility.weight x + weight) a l
                    = a + sum_R (SectorVisibility.weight <$> l)) as H.
  { induction l as [|x l IH]; intros a; [unfold sum_R; simpl; lra|].
    rewrite fmap_cons, sum_R_cons. cbn [foldl]. rewrite IH. lra. }
  rewrite H. lra.
Qed.

(** Entries of weight zero do not count in a sum of non-negative weights. *)
Lemma sum_R_filter_pos (l : list SectorVisibility.t) :
  Forall (fun x => 0 <= SectorVisibility.weight x) l ->
  sum_R (SectorVisibility.weight
           <$> filter (fun x => 0 < SectorVisibility.weight x) l)
  = sum_R (SectorVisibility.weight <$> l).
Proof.
  induction 1 as [|x l Hx _ IH]; [done|].
  rewrite filter_cons, fmap_cons, sum_R_cons.
  destruct (decide (0 < SectorVisibility.weight x)).
  - rewrite fmap_cons, sum_R_cons, IH. lra.
  - rewrite IH. lra.
Qed.
End Landscape.

(** The depth byte a query leaves at index [g]: the minimum over the depth
    the entry kept from earlier queries, if it existed, and the depth bytes
    of the current samples of [g]. *)
Lemma query_entry_distance rendered st g x :
  let q := orderSectorsByVisibility rendered st in
  let ds := (samples_of g
               (samples (WebGLRenderTarget.width (renderTarget st))
                        (WebGLRenderTarget.height (renderTarget st))
                        (rtBuffer q.1))).*1 in
  entry_at (sectorVisibilityBuffer q.1) g = Some x ->
  SectorVisibility.distance x
  = match entry_at (sectorVisibilityBuffer st) g, ds with
    | Some e0, _ => foldl Nat.min (SectorVisibility.distance e0) ds
    | None, d :: ds' => foldl Nat.min d ds'
    | None, [] => 0
    end.
Proof.
  cbv zeta. intros Hx. pose proof (query_entry rendered st g) as Hq.
  cbv zeta in Hq. rewrite Hx in Hq. symmetry in Hq.
  apply add_to_distance in Hq. rewrite Hq.
  destruct (entry_at (sectorVisibilityBuffer st) g) as [e0|]; simpl; [done|].
  by destruct (samples_of _ _) as [|[d wt] l].
Qed.

(** ** Queries on targets at least as wide as high *)

Lemma query_buffer_indexed rendered st :
  buffer_indexed (sectorVisibilityBuffer st) ->
  buffer_indexed (sectorVisibilityBuffer (orderSectorsByVisibility rendered st).1).
Proof.
  intros Hsv g x Hx. pose proof (query_entry rendered st g) as Hq.
  cbv zeta in Hq. rewrite Hq in Hx.
  eapply add_to_id; [|exact Hx].
  intros e0 He0. destruct (entry_at (sectorVisibilityBuffer st) g) as [e|] eqn:He;
    [|done].
  injection He0 as <-. simpl. by apply Hsv.
Qed.

Lemma reachable_buffer_indexed st :
  reachable st -> buffer_indexed (sectorVisibilityBuffer st).
Proof.
  intros [log Ht].
  induction Ht as [renderSize|log st models st' Ht IH Hrun|log st planes ci _ IH
                  |log st options st' _ IH Hrun|log st rendered _ IH|log st _ IH].
  - unfold constructor. destruct (default _ renderSize). by intros g x.
  - destruct (setModels_spec models st) as (st2 & _ & Hrun2 & _ & _ & _ & Hsv & _).
    { apply reachable_ok. by exists log. }
    rewrite Hrun in Hrun2. injection Hrun2 as <-. by rewrite Hsv.
  - exact IH.
  - unfold createDebugCanvas in Hrun. destruct (debugRenderer st); [done|].
    injection Hrun as <-. exact IH.
  - by apply query_buffer_indexed.
  - exact IH.
Qed.

Section LandscapeQuery.
Variables (rendered : list byte) (st : State).
Let q := orderSectorsByVisibility rendered st.
Let w := WebGLRenderTarget.width (renderTarget st).
Let h := WebGLRenderTarget.height (renderTarget st).
Hypothesis landscape : 0 < h ≤ w.

Lemma landscape_entry_weight g x :
  entry_at (sectorVisibilityBuffer q.1) g = Some x ->
  SectorVisibility.weight x
  = sum_R (samples_of g (samples w h (rtBuffer q.1))).*2.
Proof.
  intros Hx. pose proof (query_entry rendered st g) as Hq. cbv zeta in Hq.
  fold q w h in Hq. rewrite Hx in Hq.
  pose proof (add_to_weight g (blank <$> entry_at (sectorVisibilityBuffer st) g)
                (samples_of g (samples w h (rtBuffer q.1)))) as Hw.
  rewrite <- Hq in Hw. unfold weight_of in Hw. simpl in Hw. rewrite Hw.
  destruct (entry_at (sectorVisibilityBuffer st) g); simpl; lra.
Qed.

Lemma landscape_sample_weights g :
  Forall (fun r => (0 < r)%R) (samples_of g (samples w h (rtBuffer q.1))).*2.
Proof.
  apply Forall_forall. intros r Hr.
  apply list_elem_of_fmap in Hr as ([d wt] & -> & Hin).
  apply samples_of_weight in Hin as (y & Hy & ->). simpl.
  apply pixel_weight_pos; lia.
Qed.

Lemma landscape_weights_nonneg :
  Forall (fun x => (0 <= SectorVisibility.weight x)%R)
         (present (sectorVisibilityBuffer q.1)).
Proof.
  apply Forall_forall. intros x [g Hx]%elem_of_present_entry.
  rewrite (landscape_entry_weight g x Hx). apply sum_R_nonneg.
  eapply Forall_impl; [apply landscape_sample_weights|]. simpl. intros; lra.
Qed.

(** An entry has a positive weight exactly when a pixel of the current
    buffer decodes to its index. *)
Lemma landscape_entry_positive g :
  (exists x, entry_at (sectorVisibilityBuffer q.1) g = Some x
             ∧ (0 < SectorVisibility.weight x)%R)
  <-> exists y x d, y < h ∧ x < w ∧ decode (rtBuffer q.1) (x + w * y) = Some (g, d).
Proof.
  rewrite <- samples_of_nonempty. split.
  - intros (x & Hx & Hw) Hnil. rewrite (landscape_entry_weight g x Hx), Hnil in Hw.
    unfold sum_R in Hw. simpl in Hw. lra.
  - intros Hne.
    destruct (proj2 (add_to_is_Some g
                       (blank <$> entry_at (sectorVisibilityBuffer st) g)
                       (samples_of g (samples w h (rtBuffer q.1)))))
      as [x Hx]; [by right|].
    pose proof (query_entry rendered st g) as Hq. cbv zeta in Hq.
    fold q w h in Hq. rewrite Hx in Hq.
    exists x. split; [done|]. rewrite (landscape_entry_weight g x Hq).
    apply sum_R_pos; [|apply landscape_sample_weights].
    intros Hnil. apply Hne. by apply fmap_nil_inv in Hnil.
Qed.
End LandscapeQuery.

Lemma toPrioritized_priority st totalWeight x e :
  toPrioritized st totalWeight x = Ok e ->
  PrioritizedSectorIdentifier.priority e
  = (SectorVisibility.weight x / totalWeight)%R.
Proof.
  unfold toPrioritized. destruct (findSectorContainer _ _); simpl; [|done].
  by intros [= <-].
Qed.

Lemma frac_bounds (a t : R) : (0 < a <= t -> 0 < a / t <= 1)%R.
Proof.
  intros [Ha Hat]. assert (0 < t)%R as Ht by lra.
  pose proof (Rinv_0_lt_compat t Ht) as Hinv.
  assert (t * / t = 1)%R as Hone by (field; lra).
  unfold Rdiv. split; nra.
Qed.

(** On a target at least as wide as high, the sectors of the returned
    entries are exactly the sectors that some pixel of the current buffer
    decodes to. *)
Theorem landscape_returns_hit_sectors rendered st g :
  reachable st ->
  let q := orderSectorsByVisibility rendered st in
  let w := WebGLRenderTarget.width (renderTarget st) in
  let h := WebGLRenderTarget.height (renderTarget st) in
  0 < h ≤ w ->
  (exists x,
      x ∈ filter (fun x => (0 < SectorVisibility.weight x)%R)
            (present (sectorVisibilityBuffer q.1))
      ∧ SectorVisibility.sectorIdWithOffset x = g)
  <-> exists y x d, y < h ∧ x < w ∧ decode (rtBuffer q.1) (x + w * y) = Some (g, d).
Proof.
  intros Hr. cbv zeta. intros Hwh.
  pose proof (query_buffer_indexed rendered st (reachable_buffer_indexed st Hr))
    as Hidx.
  rewrite <- (landscape_entry_positive rendered st Hwh g). split.
  - intros (x & [Hw [g' Hx]%elem_of_present_entry]%list_elem_of_filter & Hg).
    exists x. split; [|done]. rewrite <- Hg. by rewrite (Hidx g' x Hx).
  - intros (x & Hx & Hw). exists x. split; [|by apply (Hidx g x)].
    apply list_elem_of_filter. split; [done|].
    apply elem_of_present_entry. by exists g.
Qed.

(** X15: On a target at least as wide as high, the priorities of a non-empty
    result lie in (0, 1] and sum to 1. *)
Theorem landscape_priorities_normalized rendered st entries :
  let w := WebGLRenderTarget.width (renderTarget st) in
  let h := WebGLRenderTarget.height (renderTarget st) in
  0 < h ≤ w ->
  (orderSectorsByVisibility rendered st).2 = Ok entries ->
  entries <> [] ->
  Forall (fun e => (0 < PrioritizedSectorIdentifier.priority e <= 1)%R) entries
  ∧ sum_R (PrioritizedSectorIdentifier.priority <$> entries) = 1%R.
Proof.
  cbv zeta. intros Hwh Hres Hne.
  rewrite orderSectorsByVisibility_result in Hres. cbv zeta in Hres.
  set (L := present (sectorVisibilityBuffer (orderSectorsByVisibility rendered st).1))
    in *.
  set (F := filter (fun x => (0 < SectorVisibility.weight x)%R) L) in *.
  set (total := totalWeightOf L) in *.
  apply map_result_Ok in Hres.
  pose proof (landscape_weights_nonneg rendered st Hwh) as Hnonneg. fold L in Hnonneg.
  assert (Forall (fun x => (0 <= SectorVisibility.weight x)%R) F) as HnonnegF.
  { apply Forall_forall. intros x [_ Hx]%list_elem_of_filter.
    rewrite Forall_forall in Hnonneg. by apply Hnonneg. }
  assert (sum_R (SectorVisibility.weight <$> F) = total) as Hsum.
  { unfold F, total. by rewrite sum_R_filter_pos, totalWeightOf_sum. }
  assert (forall x, x ∈ sort F -> (0 < SectorVisibility.weight x <= total)%R) as Hin.
  { intros x Hx. rewrite sort_Permutation in Hx.
    split; [by apply list_elem_of_filter in Hx as [? _]|].
    rewrite <- Hsum. apply sum_R_elem_le.
    - apply Forall_fmap. eapply Forall_impl; [exact HnonnegF|]. done.
    - by apply list_elem_of_fmap_2. }
  assert (0 < total)%R as Htotal.
  { destruct (sort F) as [|x S] eqn:HS.
    - apply Forall2_nil_inv_l in Hres. done.
    - destruct (Hin x) as [? ?]; [apply elem_of_cons; by left | lra]. }
  split.
  - apply Forall_forall. intros e He.
    apply list_elem_of_lookup in He as [i He].
    destruct (Forall2_lookup_r _ _ _ _ _ Hres He) as (x & Hx & Hxe).
    rewrite (toPrioritized_priority _ _ _ _ Hxe).
    apply frac_bounds, Hin. by eapply list_elem_of_lookup_2.
  - assert (PrioritizedSectorIdentifier.priority <$> entries
            = (fun r => r / total)%R <$> (SectorVisibility.weight <$> sort F)) as ->.
    { clear Hin Hne. induction Hres as [|x e S es Hxe _ IH]; [done|].
      rewrite !fmap_cons, IH. f_equal. by apply toPrioritized_priority in Hxe. }
    rewrite sum_R_div.
    rewrite (sum_R_Permutation _ (SectorVisibility.weight <$> F))
      by (by rewrite sort_Permutation).
    rewrite Hsum. field. lra.
Qed.

(** ** Helpers for concrete frames *)

Lemma present_nil {A : Type} : present (A := A) [] = [].
Proof. reflexivity. Qed.

Lemma present_cons {A : Type} (o : option A) (a : list (option A)) :
  present (o :: a) = match o with Some x => x :: present a | None => present a end.
Proof. by destruct o. Qed.

Lemma div_pos_neg (a t : R) : (0 < a -> t < 0 -> a / t < 0)%R.
Proof.
  intros Ha Ht. unfold Rdiv.
  pose proof (Rinv_lt_0_compat t Ht). nra.
Qed.

(** ** The repository's unit tests, on a 1 x 1 target *)

(** "orderSectorsByVisibility() returns empty array when there are no
    models". *)
Example no_models_returns_empty :
  (orderSectorsByVisibility [xff; xff; xff; xff] (constructor (Some (1, 1)))).2
  = Ok [].
Proof.
  edestruct (orderSectorsByVisibility_eval [xff; xff; xff; xff]
               (constructor (Some (1, 1))) 1 1 0 [] [])
    as (_ & _ & _ & _ & Hres);
    [reflexivity | reflexivity | reflexivity | vm_compute; reflexivity
    | eval_unpack; reflexivity |].
  by rewrite Hres.
Qed.

(** "rendered result has no sectors, returns empty array". *)
Example background_returns_empty :
  (orderSectorsByVisibility [xff; xff; xff; xff]
     (instanceAfter (Some (1, 1)) [[cadModel]])).2
  = Ok [].
Proof.
  edestruct (orderSectorsByVisibility_eval [xff; xff; xff; xff]
               (instanceAfter (Some (1, 1)) [[cadModel]])
               1 1 0 [] [("model", containerOf cadModel 0 0)])
    as (_ & _ & _ & _ & Hres);
    [vm_compute; reflexivity | vm_compute; reflexivity | vm_compute; reflexivity
    | vm_compute; reflexivity | eval_unpack; reflexivity |].
  by rewrite Hres.
Qed.

(** "two models, rendered result returns value at offset": the frame stores
    id 1, the first sector of the second model. *)
Example two_models_value_at_offset :
  (orderSectorsByVisibility [x00; x00; x01; xff]
     (instanceAfter (Some (1, 1)) [[model1; model2]])).2
  = Ok [{| PrioritizedSectorIdentifier.model := model2;
           PrioritizedSectorIdentifier.sectorId := 0;
           PrioritizedSectorIdentifier.priority := 1;
           PrioritizedSectorIdentifier.depth := 255 |}].
Proof.
  pose proof pixel_weight_1_1_0 as Hw.
  edestruct (orderSectorsByVisibility_eval [x00; x00; x01; xff]
               (instanceAfter (Some (1, 1)) [[model1; model2]])
               1 1 0 []
               [("model1", containerOf model1 0 0);
                ("model2", containerOf model2 1 1)])
    as (_ & Hcs & _ & _ & Hres);
    [vm_compute; reflexivity | vm_compute; reflexivity | vm_compute; reflexivity
    | vm_compute; reflexivity | eval_unpack; reflexivity |].
  rewrite Hres, !present_cons, present_nil.
  rewrite filter_cons_True by (simpl; lra).
  rewrite filter_nil. cbn [sort foldr sort_insert map_result].
  erewrite toPrioritized_found by (rewrite Hcs; reflexivity).
  cbn. do 2 f_equal. f_equal. field. lra.
Qed.

(** X15, witness: on the square target of the last test the priorities of
    the result sum to 1. *)
Lemma square_target_priorities :
  let st := instanceAfter (Some (1, 1)) [[model1; model2]] in
  exists entries,
    0 < WebGLRenderTarget.height (renderTarget st)
      ≤ WebGLRenderTarget.width (renderTarget st)
    ∧ (orderSectorsByVisibility [x00; x00; x01; xff] st).2 = Ok entries
    ∧ entries <> []
    ∧ sum_R (PrioritizedSectorIdentifier.priority <$> entries) = 1%R.
Proof.
  cbv zeta. eexists.
  assert (0 < WebGLRenderTarget.height
                (renderTarget (instanceAfter (Some (1, 1)) [[model1; model2]]))
            ≤ WebGLRenderTarget.width
                (renderTarget (instanceAfter (Some (1, 1)) [[model1; model2]])))
    as Hwh by (vm_compute; lia).
  split; [exact Hwh|]. split; [exact two_models_value_at_offset|].
  match goal with |- ?l <> [] ∧ _ => assert (Hne : l <> []) by done end.
  split; [exact Hne|].
  apply (landscape_priorities_normalized _ _ _ Hwh two_models_value_at_offset Hne).
Defined.

(** On the same target the sector with global id 1 is among the entries of
    positive weight because a pixel decodes to it. *)
Example square_target_hit_sector :
  let q := orderSectorsByVisibility [x00; x00; x01; xff]
             (instanceAfter (Some (1, 1)) [[model1; model2]]) in
  exists x,
    x ∈ filter (fun x => (0 < SectorVisibility.weight x)%R)
          (present (sectorVisibilityBuffer q.1))
    ∧ SectorVisibility.sectorIdWithOffset x = 1.
Proof.
  cbv zeta.
  apply (landscape_returns_hit_sectors [x00; x00; x01; xff]
           (instanceAfter (Some (1, 1)) [[model1; model2]]) 1).
  - apply instanceAfter_reachable.
  - vm_compute. lia.
  - exists 0, 0, 255.
    replace (WebGLRenderTarget.height _) with 1 by (vm_compute; reflexivity).
    replace (WebGLRenderTarget.width _) with 1 by (vm_compute; reflexivity).
    split; [lia|]. split; [lia|].
    destruct (orderSectorsByVisibility_state [x00; x00; x01; xff]
                (instanceAfter (Some (1, 1)) [[model1; model2]]))
      as (_ & _ & _ & _ & Hbuf & _).
    cbv zeta in Hbuf. rewrite Hbuf. vm_compute. reflexivity.
Qed.

(** ** C1: priorities *)

(** C1, at the failing input: a 1 x 3 (portrait) render target, sector 0 in
    the top pixel, background in the middle, sector 1 in the bottom pixel.
    The bottom pixel gets a negative weight because its horizontal position
    is computed from the row, the total weight is negative, and the one
    returned entry has a negative priority. *)
Theorem portrait_priority_negative :
  exists p,
    (orderSectorsByVisibility
       [x00; x00; x00; x0a;  xff; xff; xff; xff;  x00; x00; x01; x0a]
       (instanceAfter (Some (1, 3)) [[twoSectorModel]])).2
    = Ok [{| PrioritizedSectorIdentifier.model := twoSectorModel;
             PrioritizedSectorIdentifier.sectorId := 0;
             PrioritizedSectorIdentifier.priority := p;
             PrioritizedSectorIdentifier.depth := 10 |}]
    ∧ (p < 0)%R.
Proof.
  edestruct (orderSectorsByVisibility_eval
               [x00; x00; x00; x0a;  xff; xff; xff; xff;  x00; x00; x01; x0a]
               (instanceAfter (Some (1, 3)) [[twoSectorModel]])
               1 3 0 [] [("model", containerOf twoSectorModel 0 0)])
    as (_ & Hcs & _ & _ & Hres).
  - vm_compute. reflexivity.
  - vm_compute. reflexivity.
  - vm_compute. reflexivity.
  - vm_compute. reflexivity.
  - eval_unpack. reflexivity.
  - pose proof pixel_weight_1_3_0 as [H0 H0']. pose proof pixel_weight_1_3_2 as H2.
    rewrite Hres, !present_cons, present_nil.
    rewrite filter_cons_True by (simpl; lra).
    rewrite filter_cons_False by (simpl; lra).
    rewrite filter_nil. cbn [sort foldr sort_insert map_result].
    erewrite toPrioritized_found by (rewrite Hcs; reflexivity).
    eexists. split; [reflexivity|].
    cbn. apply div_pos_neg; lra.
Qed.

(** ** C2: the weight of a pixel *)

(** C2, at the failing input: a 2 x 1 render target whose left pixel is
    background and whose right pixel (column 1, row 0) shows sector 0. The
    claim's weight for that pixel is [weight 0 (-1)]; the code accumulates
    [weight (-1) (-1)], which is smaller, because it computes the horizontal
    position from the row. *)
Theorem weight_ignores_column :
  sectorVisibilityBuffer
    (orderSectorsByVisibility [xff; xff; xff; xff;  x00; x00; x00; x00]
       (instanceAfter (Some (2, 1)) [[cadModel]])).1
  = [Some {| SectorVisibility.sectorIdWithOffset := 0;
             SectorVisibility.weight := 0 + weight (-1) (-1);
             SectorVisibility.distance := 0 |}]
  ∧ centered_weight 2 1 1 0 = weight 0 (-1)
  ∧ (weight (-1) (-1) < weight 0 (-1))%R.
Proof.
  split; [|split].
  - edestruct (orderSectorsByVisibility_eval
                 [xff; xff; xff; xff;  x00; x00; x00; x00]
                 (instanceAfter (Some (2, 1)) [[cadModel]])
                 2 1 0 [] [("model", containerOf cadModel 0 0)])
      as (_ & _ & _ & Hsv & _).
    + vm_compute. reflexivity.
    + vm_compute. reflexivity.
    + vm_compute. reflexivity.
    + vm_compute. reflexivity.
    + eval_unpack. reflexivity.
    + rewrite Hsv. by rewrite pixel_weight_2_1_0.
  - apply centered_weight_2_1_1_0.
  - apply weight_decreasing. lra.
Qed.

(** ** C3: the reported depth *)

(** C3, at the failing input: a 1 x 1 render target tracking one model. The
    first query sees sector 0 at depth byte 10, the second sees it at depth
    byte 200; the second query still reports depth 10. *)
Theorem stale_depth_reported :
  let q1 := orderSectorsByVisibility [x00; x00; x00; x0a]
              (instanceAfter (Some (1, 1)) [[cadModel]]) in
  let q2 := orderSectorsByVisibility [x00; x00; x00; xc8] q1.1 in
  q1.2 = Ok [{| PrioritizedSectorIdentifier.model := cadModel;
                PrioritizedSectorIdentifier.sectorId := 0;
                PrioritizedSectorIdentifier.priority := 1;
                PrioritizedSectorIdentifier.depth := 10 |}]
  ∧ decode (rtBuffer q2.1) 0 = Some (0, 200)
  ∧ q2.2 = Ok [{| PrioritizedSectorIdentifier.model := cadModel;
                  PrioritizedSectorIdentifier.sectorId := 0;
                  PrioritizedSectorIdentifier.priority := 1;
                  PrioritizedSectorIdentifier.depth := 10 |}].
Proof.
  cbv zeta. pose proof pixel_weight_1_1_0 as Hw.
  edestruct (orderSectorsByVisibility_eval [x00; x00; x00; x0a]
               (instanceAfter (Some (1, 1)) [[cadModel]])
               1 1 0 [] [("model", containerOf cadModel 0 0)])
    as (Hrt1 & Hcs1 & Hbuf1 & Hsv1 & Hres1);
    [vm_compute; reflexivity | vm_compute; reflexivity | vm_compute; reflexivity
    | vm_compute; reflexivity | eval_unpack; reflexivity |].
  edestruct (orderSectorsByVisibility_eval [x00; x00; x00; xc8]
               (orderSectorsByVisibility [x00; x00; x00; x0a]
                  (instanceAfter (Some (1, 1)) [[cadModel]])).1
               1 1 0)
    as (_ & Hcs2 & Hbuf2 & _ & Hres2);
    [rewrite Hrt1; vm_compute; reflexivity | exact Hsv1 | exact Hcs1
    | rewrite Hbuf1; vm_compute; reflexivity | eval_unpack; reflexivity |].
  split; [|split].
  - rewrite Hres1, !present_cons, present_nil.
    rewrite filter_cons_True by (simpl; lra).
    rewrite filter_nil. cbn [sort foldr sort_insert map_result].
    erewrite toPrioritized_found by (rewrite Hcs1; reflexivity).
    cbn. do 2 f_equal. f_equal. field. lra.
  - rewrite Hbuf2. vm_compute. reflexivity.
  - rewrite Hres2, !present_cons, present_nil.
    rewrite filter_cons_True by (simpl; lra).
    rewrite filter_nil. cbn [sort foldr sort_insert map_result].
    erewrite toPrioritized_found by (rewrite Hcs2; reflexivity).
    cbn. do 2 f_equal. f_equal. field. lra.
Qed.

(** ** C10: which sectors are returned *)

(** C10, at the failing input: a 1 x 3 render target whose bottom pixel shows
    sector 0. Its weight is negative, the filter drops the sector, and the
    query returns the empty list although a pixel of the buffer decodes to
    sector 0. *)
Theorem hit_sector_dropped :
  let q := orderSectorsByVisibility
             [xff; xff; xff; xff;  xff; xff; xff; xff;  x00; x00; x00; x0a]
             (instanceAfter (Some (1, 3)) [[cadModel]]) in
  decode (rtBuffer q.1) 2 = Some (0, 10)
  ∧ q.2 = Ok [].
Proof.
  cbv zeta. pose proof pixel_weight_1_3_2 as Hw.
  edestruct (orderSectorsByVisibility_eval
               [xff; xff; xff; xff;  xff; xff; xff; xff;  x00; x00; x00; x0a]
               (instanceAfter (Some (1, 3)) [[cadModel]])
               1 3 0 [] [("model", containerOf cadModel 0 0)])
    as (_ & _ & Hbuf & _ & Hres);
    [vm_compute; reflexivity | vm_compute; reflexivity | vm_compute; reflexivity
    | vm_compute; reflexivity | eval_unpack; reflexivity |].
  split.
  - rewrite Hbuf. vm_compute. reflexivity.
  - rewrite Hres, !present_cons, present_nil.
    rewrite filter_cons_False by (simpl; lra).
    reflexivity.
Qed.

(** ** C4: ids that resolve to no tracked model *)

(** The query throws exactly when an accumulated entry of positive weight
    has an id that no tracked range contains. *)
Lemma query_throws_iff rendered st :
  let q := orderSectorsByVisibility rendered st in
  (exists message, q.2 = Throw message) <->
  (exists x,
      x ∈ present (sectorVisibilityBuffer q.1)
      ∧ (0 < SectorVisibility.weight x)%R
      ∧ forall c, c ∈ JsMap.values (containers st) ->
                  contains_id c (SectorVisibility.sectorIdWithOffset x) = false).
Proof.
  cbv zeta. rewrite orderSectorsByVisibility_result. cbv zeta.
  rewrite map_result_Throw. split.
  - intros (x & m & Hx & Hthrow).
    rewrite sort_Permutation in Hx. apply list_elem_of_filter in Hx as [Hw Hx].
    apply toPrioritized_Throw in Hthrow. exists x. split; [done|]. split; [done|].
    by apply find_container_None.
  - intros (x & Hx & Hw & Hnone). exists x. eexists. split.
    + rewrite sort_Permutation. by apply list_elem_of_filter.
    + apply toPrioritized_unresolved. by apply find_container_None.
Qed.

Lemma pixel_weight_1_2_0 : (0 < pixel_weight 1 2 0)%R.
Proof. unfold pixel_weight. simpl. apply weight_pos; lra. Qed.

(** C4, counterexample: [model1] and [model2] are tracked, then [model1] is
    removed, which orphans id 0. A frame shows id 0 in the top pixel and id 1,
    the sector of the still tracked [model2], in the bottom pixel. The query
    does not skip the orphaned sample and return the entry of [model2]:
    it throws. *)
Lemma orphaned_id_aborts_query :
  let st := instanceAfter (Some (1, 2)) [[model1; model2]; [model2]] in
  let q := orderSectorsByVisibility
             [x00; x00; x00; x0a;  x00; x00; x01; x0a] st in
  containers st = [("model2", containerOf model2 1 1)]
  ∧ decode (rtBuffer q.1) 0 = Some (0, 10)
  ∧ decode (rtBuffer q.1) 1 = Some (1, 10)
  ∧ (exists message, q.2 = Throw message)
  ∧ ¬ (exists entries, q.2 = Ok entries).
Proof.
  cbv zeta.
  edestruct (orderSectorsByVisibility_eval
               [x00; x00; x00; x0a;  x00; x00; x01; x0a]
               (instanceAfter (Some (1, 2)) [[model1; model2]; [model2]])
               1 2 0 [] [("model2", containerOf model2 1 1)])
    as (_ & _ & Hbuf & Hsv & _);
    [vm_compute; reflexivity | vm_compute; reflexivity | vm_compute; reflexivity
    | vm_compute; reflexivity | eval_unpack; reflexivity |].
  assert (exists message,
             (orderSectorsByVisibility
                [x00; x00; x00; x0a;  x00; x00; x01; x0a]
                (instanceAfter (Some (1, 2)) [[model1; model2]; [model2]])).2
             = Throw message) as [message Hthrow].
  { apply query_throws_iff. rewrite Hsv, !present_cons, present_nil.
    eexists. split; [apply elem_of_cons; by left|].
    split; [simpl; pose proof pixel_weight_1_2_0; lra|].
    intros c. replace (containers _) with [("model2", containerOf model2 1 1)]
      by (vm_compute; reflexivity).
    intros ->%list_elem_of_singleton. reflexivity. }
  split; [vm_compute; reflexivity|].
  split; [rewrite Hbuf; vm_compute; reflexivity|].
  split; [rewrite Hbuf; vm_compute; reflexivity|].
  split; [by exists message|].
  intros [entries Hok]. congruence.
Qed.

(** C4 (amended): a query throws the out-of-range error, and returns no
    list, exactly when some sector id it accumulated with a positive weight
    lies in no tracked model's range; otherwise it returns its list. No
    sample is skipped. *)
Theorem unresolved_id_aborts_query rendered st :
  let q := orderSectorsByVisibility rendered st in
  ((exists message, q.2 = Throw message) <->
   (exists x,
       x ∈ present (sectorVisibilityBuffer q.1)
       ∧ (0 < SectorVisibility.weight x)%R
       ∧ forall c, c ∈ JsMap.values (containers st) ->
                   contains_id c (SectorVisibility.sectorIdWithOffset x) = false))
  ∧ ((exists entries, q.2 = Ok entries) <->
     (forall x,
         x ∈ present (sectorVisibilityBuffer q.1) ->
         (0 < SectorVisibility.weight x)%R ->
         exists c, c ∈ JsMap.values (containers st)
                   ∧ contains_id c (SectorVisibility.sectorIdWithOffset x) = true)).
Proof.
  cbv zeta. pose proof (query_throws_iff rendered st) as Hiff. cbv zeta in Hiff.
  split; [exact Hiff|].
  destruct (orderSectorsByVisibility rendered st).2 as [entries|message] eqn:Hq.
  - split; [|by exists entries]. intros _ x Hx Hw.
    destruct (find_container (JsMap.values (containers st))
                (SectorVisibility.sectorIdWithOffset x)) as [c|] eqn:Hfind.
    + exists c. by apply find_container_Some.
    + exfalso. destruct Hiff as [_ Hiff].
      destruct Hiff as [m Hm]; [|done].
      exists x. split; [done|]. split; [done|]. by apply find_container_None.
  - split; [by intros [entries ?]|]. intros Hall. exfalso.
    destruct Hiff as [Hiff _].
    destruct Hiff as (x & Hx & Hw & Hnone); [by exists message|].
    destruct (Hall x Hx Hw) as (c & Hc & Hin). rewrite (Hnone c Hc) in Hin. done.
Qed.

(** ** C6: resolving ids *)

(** C6: on a reachable instance an id [g] inside the range of a tracked
    model resolves to that model's container, before a query and during it.
    The callback of the query turns an accumulated entry with id [g] into
    the entry with the container's model and the local id [g - offset], and
    when the query returns a list and its accumulator holds an entry of
    positive weight for [g], the list has that entry. On a target at least
    as wide as high this is so whenever a pixel of the frame decodes to
    [g]. *)
Theorem resolve_in_range rendered st k c g :
  reachable st ->
  JsMap.get k (containers st) = Some c ->
  SectorContainer.sectorIdOffset c ≤ g
    < SectorContainer.sectorIdOffset c + length (SectorContainer.sectors c) ->
  let q := orderSectorsByVisibility rendered st in
  let totalWeight := totalWeightOf (present (sectorVisibilityBuffer q.1)) in
  findSectorContainer st g = Ok c
  ∧ findSectorContainer q.1 g = Ok c
  ∧ (forall weight x,
       SectorVisibility.sectorIdWithOffset x = g ->
       toPrioritized q.1 weight x
       = Ok {| PrioritizedSectorIdentifier.model := SectorContainer.model c;
               PrioritizedSectorIdentifier.sectorId :=
                 g - SectorContainer.sectorIdOffset c;
               PrioritizedSectorIdentifier.priority :=
                 (SectorVisibility.weight x / weight)%R;
               PrioritizedSectorIdentifier.depth := SectorVisibility.distance x |})
  ∧ (forall x entries,
       entry_at (sectorVisibilityBuffer q.1) g = Some x ->
       (0 < SectorVisibility.weight x)%R ->
       q.2 = Ok entries ->
       {| PrioritizedSectorIdentifier.model := SectorContainer.model c;
          PrioritizedSectorIdentifier.sectorId :=
            g - SectorContainer.sectorIdOffset c;
          PrioritizedSectorIdentifier.priority :=
            (SectorVisibility.weight x / totalWeight)%R;
          PrioritizedSectorIdentifier.depth := SectorVisibility.distance x |}
       ∈ entries)
  ∧ (forall y x d entries,
       0 < WebGLRenderTarget.height (renderTarget st)
         ≤ WebGLRenderTarget.width (renderTarget st) ->
       y < WebGLRenderTarget.height (renderTarget st) ->
       x < WebGLRenderTarget.width (renderTarget st) ->
       decode (rtBuffer q.1) (x + WebGLRenderTarget.width (renderTarget st) * y)
       = Some (g, d) ->
       q.2 = Ok entries ->
       exists e,
         e ∈ entries
         ∧ PrioritizedSectorIdentifier.model e = SectorContainer.model c
         ∧ PrioritizedSectorIdentifier.sectorId e
           = g - SectorContainer.sectorIdOffset c).
Proof.
  intros Hr Hget Hg. cbv zeta.
  assert (find_container (JsMap.values (containers st)) g = Some c) as Hfind.
  { destruct (reachable_ok st Hr) as [_ Hord _ _].
    eapply find_container_ordered; [exact Hord| |by apply contains_id_spec].
    unfold JsMap.values. apply list_elem_of_fmap. exists (k, c).
    split; [done|]. by apply JsMapFacts.get_Some_elem. }
  assert (forall weight x,
            SectorVisibility.sectorIdWithOffset x = g ->
            toPrioritized (orderSectorsByVisibility rendered st).1 weight x
            = Ok {| PrioritizedSectorIdentifier.model := SectorContainer.model c;
                    PrioritizedSectorIdentifier.sectorId :=
                      g - SectorContainer.sectorIdOffset c;
                    PrioritizedSectorIdentifier.priority :=
                      (SectorVisibility.weight x / weight)%R;
                    PrioritizedSectorIdentifier.depth :=
                      SectorVisibility.distance x |}) as Hentry.
  { intros weight x Hx. rewrite (toPrioritized_found _ _ _ c).
    - by rewrite Hx.
    - rewrite Hx.
      change (containers (orderSectorsByVisibility rendered st).1)
        with (containers st). exact Hfind. }
  assert (forall x entries,
            x ∈ filter (fun x => (0 < SectorVisibility.weight x)%R)
                  (present (sectorVisibilityBuffer
                              (orderSectorsByVisibility rendered st).1)) ->
            SectorVisibility.sectorIdWithOffset x = g ->
            (orderSectorsByVisibility rendered st).2 = Ok entries ->
            {| PrioritizedSectorIdentifier.model := SectorContainer.model c;
               PrioritizedSectorIdentifier.sectorId :=
                 g - SectorContainer.sectorIdOffset c;
               PrioritizedSectorIdentifier.priority :=
                 (SectorVisibility.weight x
                  / totalWeightOf
                      (present (sectorVisibilityBuffer
                                  (orderSectorsByVisibility rendered st).1)))%R;
               PrioritizedSectorIdentifier.depth := SectorVisibility.distance x |}
            ∈ entries) as Hlisted.
  { intros x entries Hx Hid Hres.
    rewrite orderSectorsByVisibility_result in Hres. cbv zeta in Hres.
    apply map_result_Ok in Hres.
    assert (x ∈ sort (filter (fun x => (0 < SectorVisibility.weight x)%R)
                        (present (sectorVisibilityBuffer
                                    (orderSectorsByVisibility rendered st).1))))
      as [i Hi]%list_elem_of_lookup by (by rewrite sort_Permutation).
    destruct (Forall2_lookup_l _ _ _ _ _ Hres Hi) as (e & He & Hf).
    rewrite (Hentry _ x Hid) in Hf. injection Hf as <-.
    by eapply list_elem_of_lookup_2. }
  split_and!.
  - unfold findSectorContainer. by rewrite Hfind.
  - unfold findSectorContainer.
    change (containers (orderSectorsByVisibility rendered st).1)
      with (containers st). by rewrite Hfind.
  - exact Hentry.
  - intros x entries Hx Hpos Hres.
    pose proof (query_buffer_indexed rendered st (reachable_buffer_indexed st Hr)
                  g x Hx) as Hid.
    apply Hlisted; [|done..].
    apply list_elem_of_filter. split; [done|].
    apply elem_of_present_entry. by exists g.
  - intros y x d entries Hwh Hy Hx Hdec Hres.
    pose proof (landscape_returns_hit_sectors rendered st g Hr) as Hhit.
    cbv zeta in Hhit. destruct (Hhit Hwh) as [_ Hhit'].
    destruct Hhit' as (x' & Hx' & Hid); [by exists y, x, d|].
    eexists. split; [by apply (Hlisted x' entries)|]. done.
Qed.

(** Witness for C6, the unit test "two models, rendered result returns value
    at offset": the frame stores global id 1, the first sector of the second
    model, and the query returns one entry, for model2 and local id 0. *)
Lemma resolve_in_range_witness :
  let st := instanceAfter (Some (1, 1)) [[model1; model2]] in
  let q := orderSectorsByVisibility [x00; x00; x01; xff] st in
  let c := containerOf model2 1 1 in
  reachable st
  ∧ JsMap.get "model2" (containers st) = Some c
  ∧ SectorContainer.sectorIdOffset c ≤ 1
    < SectorContainer.sectorIdOffset c + length (SectorContainer.sectors c)
  ∧ findSectorContainer q.1 1 = Ok c
  ∧ exists x entries,
      entry_at (sectorVisibilityBuffer q.1) 1 = Some x
      ∧ (0 < SectorVisibility.weight x)%R
      ∧ q.2 = Ok entries
      ∧ length entries = 1
      ∧ {| PrioritizedSectorIdentifier.model := model2;
           PrioritizedSectorIdentifier.sectorId := 0;
           PrioritizedSectorIdentifier.priority :=
             (SectorVisibility.weight x
              / totalWeightOf (present (sectorVisibilityBuffer q.1)))%R;
           PrioritizedSectorIdentifier.depth := 255 |} ∈ entries.
Proof.
  cbv zeta.
  pose proof (instanceAfter_reachable (Some (1, 1)) [[model1; model2]]) as Hr.
  assert (JsMap.get "model2"
            (containers (instanceAfter (Some (1, 1)) [[model1; model2]]))
          = Some (containerOf model2 1 1)) as Hget
    by (vm_compute; reflexivity).
  assert (SectorContainer.sectorIdOffset (containerOf model2 1 1) ≤ 1
          < SectorContainer.sectorIdOffset (containerOf model2 1 1)
            + length (SectorContainer.sectors (containerOf model2 1 1))) as Hg
    by (simpl; lia).
  pose proof (resolve_in_range [x00; x00; x01; xff] _ "model2" _ 1 Hr Hget Hg)
    as (_ & Hfind & _ & Hin & _).
  split; [exact Hr|]. split; [exact Hget|]. split; [exact Hg|].
  split; [exact Hfind|].
  edestruct (orderSectorsByVisibility_eval [x00; x00; x01; xff]
               (instanceAfter (Some (1, 1)) [[model1; model2]])
               1 1 0 []
               [("model1", containerOf model1 0 0);
                ("model2", containerOf model2 1 1)])
    as (_ & _ & _ & Hsv & _);
    [vm_compute; reflexivity | vm_compute; reflexivity | vm_compute; reflexivity
    | vm_compute; reflexivity | eval_unpack; reflexivity |].
  assert (entry_at
            (sectorVisibilityBuffer
               (orderSectorsByVisibility [x00; x00; x01; xff]
                  (instanceAfter (Some (1, 1)) [[model1; model2]])).1) 1
          = Some {| SectorVisibility.sectorIdWithOffset := 1;
                    SectorVisibility.weight := (0 + pixel_weight 1 1 0)%R;
                    SectorVisibility.distance := 255 |}) as Hx
    by (rewrite Hsv; reflexivity).
  assert (0 < 0 + pixel_weight 1 1 0)%R as Hpos
    by (pose proof pixel_weight_1_1_0; lra).
  eexists _, _. split; [exact Hx|]. split; [exact Hpos|].
  split; [exact two_models_value_at_offset|]. split; [reflexivity|].
  exact (Hin _ _ Hx Hpos two_models_value_at_offset).
Defined.

(** ** C9: disposal *)

(** C9, at the failing input: a fresh instance with a debug canvas.
    [dispose()] calls [dispose] once on the renderer and once on the debug
    renderer; the render target is left as it was, its [dispose] is never
    called. *)
Theorem dispose_leaves_render_target :
  exists st,
    createDebugCanvas None (constructor None) = Ok st
    ∧ WebGLRenderer.disposeCalls (_renderer (dispose st)) = 1
    ∧ WebGLRenderer.disposeCalls <$> debugRenderer (dispose st) = Some 1
    ∧ renderTarget (dispose st) = renderTarget st
    ∧ WebGLRenderTarget.disposeCalls (renderTarget (dispose st)) = 0.
Proof. eexists. split; [reflexivity|]. by split_and!. Qed.

(** * Further properties *)

(** ** Induction over what the calls do *)


Lemma removeModel_Ok k st st' :
  removeModel k st = Ok st' -> k ∈ JsMap.keys (containers st).
Proof.
  unfold removeModel. destruct (JsMap.get k (containers st)) eqn:Hget; [|done].
  intros _. apply dec_stable. intros Hn. apply JsMapFacts.get_None in Hn. congruence.
Qed.

Lemma removeModel_ok k st st' :
  registry_ok st -> removeModel k st = Ok st' -> registry_ok st'.
Proof.
  intros Hok Hrun. pose proof (removeModel_Ok _ _ _ Hrun) as Hin.
  destruct (removeModel_spec k st Hok Hin) as (st2 & Hrun2 & H).
  rewrite Hrun in Hrun2. injection Hrun2 as <-. apply H.
Qed.

(** Induction over what [setModels] does: a property kept by [updateModel],
    [addModel] and [removeModel] on states with a sound registry is kept by
    [setModels]. *)
Section SetModelsInvariant.
Variable P : State -> Prop.
Hypothesis P_update : forall c model st,
  registry_ok st ->
  JsMap.get (CadModelMetadata.blobUrl model) (containers st) = Some c ->
  P st -> P (updateModel c model st).
Hypothesis P_add : forall model st,
  registry_ok st ->
  JsMap.get (CadModelMetadata.blobUrl model) (containers st) = None ->
  P st -> P (addModel model st).
Hypothesis P_remove : forall k st st',
  registry_ok st -> removeModel k st = Ok st' -> P st -> P st'.

Lemma setModels_visit_invariant models keep st keep' st1 :
  registry_ok st -> P st ->
  foldl setModels_visit (keep, st) models = (keep', st1) -> P st1.
Proof.
  revert keep st. induction models as [|model models IH]; intros keep st Hok HP; simpl.
  - by intros [= <- <-].
  - destruct (JsMap.get (CadModelMetadata.blobUrl model) (containers st))
      as [c|] eqn:Hget; intros Hrun.
    + eapply IH; [| |exact Hrun]; [by apply updateModel_ok | by apply P_update].
    + eapply IH; [| |exact Hrun]; [by apply addModel_ok | by apply P_add].
Qed.

Lemma setModels_discard_invariant ds st st' :
  registry_ok st -> P st -> setModels_discard ds st = Ok st' -> P st'.
Proof.
  revert st. induction ds as [|d ds IH]; intros st Hok HP; simpl.
  - by intros [= <-].
  - destruct (removeModel d st) as [st1|] eqn:Hrm; [|done]. simpl.
    apply IH; [by eapply removeModel_ok | by eapply P_remove].
Qed.

Lemma setModels_invariant models st st' :
  registry_ok st -> P st -> setModels models st = Ok st' -> P st'.
Proof.
  intros Hok HP. unfold setModels.
  destruct (foldl setModels_visit (∅, st) models) as [keep' st1] eqn:Hloop.
  pose proof (setModels_visit_invariant _ _ _ _ _ Hok HP Hloop) as HP1.
  apply setModels_visit_loop in Hloop as (_ & _ & _ & _ & _ & _ & _ & Hok1); [|done].
  by apply setModels_discard_invariant.
Qed.
End SetModelsInvariant.

(** [setModels] leaves everything outside the registry alone. *)
Lemma setModels_visit_resources models keep st keep' st1 :
  foldl setModels_visit (keep, st) models = (keep', st1) ->
  resources st1 = resources st.
Proof.
  revert keep st. induction models as [|model models IH]; intros keep st; simpl.
  - by intros [= <- <-].
  - destruct (JsMap.get (CadModelMetadata.blobUrl model) (containers st));
      intros Hrun; by apply IH in Hrun.
Qed.

Lemma setModels_discard_resources ds st st' :
  setModels_discard ds st = Ok st' -> resources st' = resources st.
Proof.
  revert st. induction ds as [|d ds IH]; intros st; simpl.
  - by intros [= <-].
  - unfold removeModel. destruct (JsMap.get d (containers st)); [|done]. simpl.
    intros Hrun. by apply IH in Hrun.
Qed.

Lemma setModels_resources models st st' :
  setModels models st = Ok st' -> resources st' = resources st.
Proof.
  unfold setModels.
  destruct (foldl setModels_visit (∅, st) models) as [keep' st1] eqn:Hloop.
  apply setModels_visit_resources in Hloop.
  intros Hrun%setModels_discard_resources. by rewrite Hloop in Hrun.
Qed.

Lemma resources_eq st st' :
  resources st' = resources st ->
  _renderer st' = _renderer st
  ∧ debugRenderer st' = debugRenderer st
  ∧ renderTarget st' = renderTarget st
  ∧ rtBuffer st' = rtBuffer st
  ∧ sectorVisibilityBuffer st' = sectorVisibilityBuffer st
  ∧ coverageMaterial st' = coverageMaterial st.
Proof. unfold resources. by intros [= -> -> -> -> -> ->]. Qed.

(** Induction over the histories of an instance. *)
Lemma reachable_ind (P : State -> Prop) :
  (forall renderSize, P (constructor renderSize)) ->
  (forall st models st',
     reachable st -> P st -> setModels models st = Ok st' -> P st') ->
  (forall st planes clipIntersection,
     reachable st -> P st -> P (setClipping planes clipIntersection st)) ->
  (forall st options st',
     reachable st -> P st -> createDebugCanvas options st = Ok st' -> P st') ->
  (forall st rendered,
     reachable st -> P st -> P (orderSectorsByVisibility rendered st).1) ->
  (forall st, reachable st -> P st -> P (dispose st)) ->
  forall st, reachable st -> P st.
Proof.
  intros H1 H2 H3 H4 H5 H6 st [log Ht].
  induction Ht as [renderSize|log st models st' Ht IH Hrun|log st planes ci Ht IH
                  |log st options st' Ht IH Hrun|log st rendered Ht IH|log st Ht IH].
  - apply H1.
  - eapply H2; [by exists log | exact IH | exact Hrun].
  - apply H3; [by exists log | exact IH].
  - eapply H4; [by exists log | exact IH | exact Hrun].
  - apply H5; [by exists log | exact IH].
  - apply H6; [by exists log | exact IH].
Qed.

Lemma call_reachable c st st' : reachable st -> call c st = Ok st' -> reachable st'.
Proof.
  intros [log Ht]. destruct c; cbn [call].
  - intros Hrun. eexists. by eapply trace_setModels.
  - intros [= <-]. exists log. by apply trace_setClipping.
  - intros Hrun. exists log. by eapply trace_createDebugCanvas.
  - intros [= <-]. exists log. by apply trace_orderSectorsByVisibility.
  - intros [= <-]. exists log. by apply trace_dispose.
Qed.

(** A property kept by every call that returns is kept by a sequence. *)
Lemma calls_invariant (P : State -> Prop) cs st st' :
  (forall c s s', P s -> call c s = Ok s' -> P s') ->
  P st -> calls cs st = Ok st' -> P st'.
Proof.
  intros Hstep. revert st. induction cs as [|c cs IH]; intros st HP; simpl.
  - by intros [= <-].
  - destruct (call c st) as [st1|] eqn:Hc; [|done]. simpl.
    apply IH. by eapply Hstep.
Qed.

Lemma calls_app cs1 cs2 st :
  calls (cs1 ++ cs2) st = st' ← calls cs1 st; calls cs2 st'.
Proof.
  revert st. induction cs1 as [|c cs1 IH]; intros st; simpl; [done|].
  destruct (call c st); simpl; [apply IH | done].
Qed.

(** ** The scene and the containers *)

Lemma scene_remove_delete (cs : list (string * SectorContainer.t)) k c :
  NoDup (scene_of cs) ->
  JsMap.get k cs = Some c ->
  scene_remove (SectorContainer.renderable c) (scene_of cs)
  = scene_of (JsMap.delete k cs).
Proof.
  unfold scene_of, JsMap.values.
  induction cs as [|[k' c'] cs IH]; [done|]. simpl.
  intros [Hnotin Hnd]%NoDup_cons.
  destruct (decide (k = k')) as [->|Hk].
  - intros [= ->]. by rewrite decide_True.
  - intros Hget. rewrite decide_False.
    + simpl. f_equal. by apply IH.
    + intros Heq. apply Hnotin. rewrite Heq.
      apply list_elem_of_fmap. exists c. split; [done|].
      apply list_elem_of_fmap. exists (k, c). split; [done|].
      by apply JsMapFacts.get_Some_elem.
Qed.

Lemma tracked_elem st k c :
  JsMap.get k (containers st) = Some c -> (k, c) ∈ containers st.
Proof. apply JsMapFacts.get_Some_elem. Qed.

Lemma removeModel_containers k st st' :
  registry_ok st -> removeModel k st = Ok st' ->
  containers st' = filter (fun kv => kv.1 ≠ k) (containers st)
  ∧ objects st' = objects st
  ∧ sectorIdOffset st' = sectorIdOffset st.
Proof.
  intros Hok Hrun. pose proof (removeModel_Ok _ _ _ Hrun) as Hin.
  destruct (removeModel_spec k st Hok Hin) as (st2 & Hrun2 & H1 & H2 & H3 & _).
  rewrite Hrun in Hrun2. by injection Hrun2 as <-.
Qed.

Lemma setModels_scene models st st' :
  registry_ok st -> scene st = scene_of (containers st) ->
  setModels models st = Ok st' -> scene st' = scene_of (containers st').
Proof.
  intros Hok. apply (setModels_invariant (fun s => scene s = scene_of (containers s)));
    try done.
  - intros model s Hs Hget Hsc. rewrite addModel_containers by done.
    unfold scene_of, JsMap.values in *. rewrite !fmap_app. simpl. by rewrite Hsc.
  - intros k s s' Hs. unfold removeModel.
    destruct (JsMap.get k (containers s)) as [c|] eqn:Hget; [|done].
    intros [= <-] Hsc. simpl. rewrite Hsc. apply scene_remove_delete; [|done].
    apply Hs.
Qed.

Lemma reachable_scene st : reachable st -> scene st = scene_of (containers st).
Proof.
  revert st. apply reachable_ind.
  - intros rs. unfold constructor. by destruct (default _ rs).
  - intros st models st' Hr IH Hrun. eapply setModels_scene; [|done..].
    by apply reachable_ok.
  - done.
  - intros st options st'. unfold createDebugCanvas.
    destruct (debugRenderer st); [done|]. by intros _ ? [= <-].
  - done.
  - done.
Qed.

(** ** What a container holds *)

Lemma setModels_container_of_model models st st' :
  registry_ok st -> Forall container_of_model (containers st) ->
  setModels models st = Ok st' -> Forall container_of_model (containers st').
Proof.
  intros Hok.
  apply (setModels_invariant (fun s => Forall container_of_model (containers s)));
    try done.
  - intros model s Hs Hget HF. rewrite addModel_containers by done.
    apply Forall_app. split; [done|]. by constructor.
  - intros k s s' Hs Hrun HF.
    apply removeModel_containers in Hrun as (-> & _); [|done].
    rewrite Forall_forall in *. intros kv [_ Hkv]%list_elem_of_filter.
    by apply HF.
Qed.

Lemma reachable_container_of_model st :
  reachable st -> Forall container_of_model (containers st).
Proof.
  revert st. apply reachable_ind.
  - intros rs. unfold constructor. destruct (default _ rs). constructor.
  - intros st models st' Hr IH Hrun. eapply setModels_container_of_model; [|done..].
    by apply reachable_ok.
  - done.
  - intros st options st'. unfold createDebugCanvas.
    destruct (debugRenderer st); [done|]. by intros _ ? [= <-].
  - done.
  - done.
Qed.

Lemma tracked_container_of_model st k c :
  reachable st -> JsMap.get k (containers st) = Some c ->
  CadModelMetadata.blobUrl (SectorContainer.model c) = k
  ∧ SectorContainer.sectors c
    = getAllSectors (CadModelMetadata.scene (SectorContainer.model c)).
Proof.
  intros Hr Hget%tracked_elem.
  pose proof (reachable_container_of_model st Hr) as HF.
  rewrite Forall_forall in HF. apply (HF (k, c) Hget).
Qed.

Lemma elem_tracked st c :
  registry_ok st -> c ∈ JsMap.values (containers st) ->
  exists k, JsMap.get k (containers st) = Some c.
Proof.
  intros Hok [[k c'] [-> Hin]]%list_elem_of_fmap. exists k.
  apply JsMapFacts.elem_get; [apply Hok | done].
Qed.

(** ** The proxy of a tracked model *)

Lemma setModels_proxy_built models st st' :
  registry_ok st -> proxy_built st ->
  setModels models st = Ok st' -> proxy_built st'.
Proof.
  intros Hok. apply (setModels_invariant proxy_built); try done.
  - intros c0 model s Hs Hget0 HP k c Hget. simpl in Hget.
    destruct (HP k c Hget) as (g & Hg & Hmesh & Hauto & Hworld). simpl.
    destruct (decide (SectorContainer.renderable c0 = SectorContainer.renderable c))
      as [Heq|Hne].
    + rewrite Heq, list_lookup_alter_eq, Hg. simpl. eexists. split; [done|].
      simpl. split_and!; [exact Hmesh | exact Hauto | by left].
    + rewrite list_lookup_alter_ne by done. by exists g.
  - intros model s Hs Hget0 HP k c. rewrite addModel_containers by done.
    destruct (JsMap.get k (containers s)) as [c1|] eqn:Hget1.
    + rewrite (JsMapFacts.get_app_l _ _ _ _ Hget1). intros [= <-].
      destruct (HP k c1 Hget1) as (g & Hg & Hbuilt). exists g. split; [|done].
      simpl. by apply lookup_app_l_Some.
    + rewrite JsMapFacts.get_app_r by done. simpl.
      destruct (decide _); [|done]. intros [= <-]. simpl.
      eexists. split.
      * rewrite lookup_app_r by done. by rewrite Nat.sub_diag.
      * simpl. split_and!; [done | done | by right].
  - intros k0 s s' Hs Hrun HP k c Hget.
    apply removeModel_containers in Hrun as (Hcs & Hobj & _); [|done].
    rewrite Hobj. apply (HP k). rewrite Hcs in Hget.
    destruct (decide (k = k0)) as [->|Hne].
    + apply JsMapFacts.get_Some_elem, list_elem_of_filter in Hget as [Hn _]. done.
    + rewrite get_filter in Hget; [done|]. by intros v.
Qed.

(** The objects after a query: the renders have brought the world matrix of
    every child of the scene to the child's matrix. *)
Lemma orderSectorsByVisibility_objects rendered st i :
  objects (orderSectorsByVisibility rendered st).1 !! i
  = (fun g => if decide (i ∈ scene st) then updateMatrixWorld g else g)
    <$> objects st !! i.
Proof.
  destruct (orderSectorsByVisibility_state rendered st) as (_ & _ & Hobj & _).
  cbv zeta in Hobj. rewrite Hobj. apply render_lookup.
Qed.

Lemma reachable_proxy_built st : reachable st -> proxy_built st.
Proof.
  revert st. apply reachable_ind.
  - intros rs. unfold constructor. destruct (default _ rs). by intros k c.
  - intros st models st' Hr IH Hrun. eapply setModels_proxy_built; [|done..].
    by apply reachable_ok.
  - done.
  - intros st options st'. unfold createDebugCanvas.
    destruct (debugRenderer st); [done|]. by intros _ ? [= <-].
  - intros st rendered Hr IH k c Hget.
    change (containers (orderSectorsByVisibility rendered st).1)
      with (containers st) in Hget.
    destruct (IH k c Hget) as (g & Hg & Hmesh & Hauto & Hworld).
    rewrite orderSectorsByVisibility_objects, Hg. simpl.
    destruct (decide _); eexists; (split; [done|]).
    + simpl. split_and!; [exact Hmesh | exact Hauto | by left].
    + done.
  - done.
Qed.

(** ** [setModels], call by call *)

(** The two loops of [setModels] on a sound registry: the visits lead to
    [st1], the removals keep of [st1] what the input names. *)
Lemma setModels_unfold models st :
  registry_ok st ->
  exists keep' st1 st',
    foldl setModels_visit (∅, st) models = (keep', st1)
    ∧ setModels models st = Ok st'
    ∧ containers st'
      = filter (fun kv => kv.1 ∈ blobUrls models) (containers st1)
    ∧ sectorIdOffset st' = sectorIdOffset st1
    ∧ objects st' = objects st1
    ∧ registry_ok st1
    ∧ registry_ok st'.
Proof.
  intros Hok. unfold setModels.
  destruct (foldl setModels_visit (∅, st) models) as [keep' st1] eqn:Hloop.
  exists keep', st1.
  apply setModels_visit_loop in Hloop
    as (news & Hcs & Hcons & Hkeep & Hnews & Hsv & Hrt & Hok1); [|done].
  assert (forall k, k ∈ keep' <-> k ∈ blobUrls models) as Hkeep'.
  { intros k. rewrite Hkeep, elem_of_empty. tauto. }
  destruct (setModels_discard_spec
              (filter (fun x => x ∉ keep') (JsMap.keys (containers st1))) st1)
    as (st' & Hrun & Hcs' & Hoff & Hobj & _ & _ & Hok'); [done|..].
  { apply NoDup_filter. apply Hok1. }
  { intros k Hk. by apply list_elem_of_filter in Hk as [_ ?]. }
  exists st'. split_and!; try done.
  rewrite Hcs'. apply filter_ext_in.
  intros [k c] Hin. simpl. rewrite list_elem_of_filter, <- Hkeep'. split.
  - intros H. destruct (decide (k ∈ keep')) as [|Hn]; [done|].
    exfalso. apply H. split; [done|].
    apply list_elem_of_fmap. by exists (k, c).
  - intros H [Hn _]. done.
Qed.


Lemma blobUrls_filter k models :
  k ∈ blobUrls models
  <-> 0 < length (filter (fun m => CadModelMetadata.blobUrl m = k) models).
Proof.
  unfold blobUrls. induction models as [|m models IH].
  - simpl. rewrite elem_of_nil. split; [done | lia].
  - rewrite filter_cons, fmap_cons, elem_of_cons.
    destruct (decide (CadModelMetadata.blobUrl m = k)) as [Hk|Hk].
    + split; [simpl; lia | by left].
    + rewrite <- IH. split; [intros [?|?]; [congruence | done] | by right].
Qed.

(** After the visits every input key is tracked, and its group carries the
    matrix of the last input model with that key. The world matrix follows
    the matrix if one of the visits was an [updateModel], which is so when
    the key was tracked before or the input names it more than once; a group
    that a visit created and no later visit touched has the identity. *)
Lemma setModels_visit_last models keep st keep' st1 k :
  registry_ok st ->
  foldl setModels_visit (keep, st) models = (keep', st1) ->
  k ∈ blobUrls models ->
  exists c g model,
    JsMap.get k (containers st1) = Some c
    ∧ objects st1 !! SectorContainer.renderable c = Some g
    ∧ last (filter (fun m => CadModelMetadata.blobUrl m = k) models) = Some model
    ∧ Group.matrix g = CadModelMetadata.modelMatrix model
    ∧ (k ∈ JsMap.keys (containers st)
       ∨ 1 < length (filter (fun m => CadModelMetadata.blobUrl m = k) models) ->
       Group.matrixWorld g = CadModelMetadata.modelMatrix model)
    ∧ (k ∉ JsMap.keys (containers st) ->
       length (filter (fun m => CadModelMetadata.blobUrl m = k) models) = 1 ->
       Group.matrixWorld g = Matrix4.identity).
Proof.
  intros Hok. revert keep' st1.
  induction models as [|model models IH] using rev_ind; intros keep' st1.
  { intros _ Hk. by apply elem_of_nil in Hk. }
  rewrite foldl_app. simpl.
  destruct (foldl setModels_visit (keep, st) models) as [keep0 st0] eqn:Hloop.
  pose proof Hloop as Hloop'.
  apply setModels_visit_loop in Hloop'
    as (news & Hcs0 & _ & _ & Hnews0 & _ & _ & Hok0); [|done].
  specialize (IH keep0 st0 eq_refl).
  unfold blobUrls. rewrite fmap_app, elem_of_app. simpl.
  rewrite filter_app, filter_cons, filter_nil, length_app. simpl.
  destruct (decide (CadModelMetadata.blobUrl model = k)) as [Hk|Hk].
  - intros Hrun _. rewrite last_snoc.
    destruct (JsMap.get (CadModelMetadata.blobUrl model) (containers st0))
      as [c|] eqn:Hget; injection Hrun as <- <-.
    + assert (is_Some (objects st0 !! SectorContainer.renderable c)) as [g Hg].
      { apply lookup_lt_is_Some. by eapply tracked_ref_valid. }
      exists c, (updateMatrix (CadModelMetadata.modelMatrix model) g), model.
      simpl. rewrite <- Hk, Hget, list_lookup_alter_eq, Hg.
      split_and!; try done.
      intros Hnot Hone. exfalso. apply Hnot.
      apply JsMapFacts.get_Some_elem in Hget. rewrite Hcs0 in Hget.
      apply elem_of_app in Hget as [Hin|Hin].
      * apply list_elem_of_fmap.
        by exists (CadModelMetadata.blobUrl model, c).
      * assert (CadModelMetadata.blobUrl model ∈ blobUrls models) as Hb.
        { apply Hnews0, list_elem_of_fmap.
          by exists (CadModelMetadata.blobUrl model, c). }
        apply blobUrls_filter in Hb. simpl in Hone. lia.
    + eexists _, _, model. rewrite addModel_containers by done.
      rewrite JsMapFacts.get_app_r by (by rewrite <- Hk). simpl.
      rewrite decide_True by done. split; [done|]. simpl.
      rewrite lookup_app_r by done. rewrite Nat.sub_diag.
      split_and!; try done.
      intros [Hin|Hlt]; exfalso.
      * apply JsMapFacts.get_None in Hget. apply Hget.
        rewrite Hcs0, Hk. unfold JsMap.keys. rewrite fmap_app.
        apply elem_of_app. by left.
      * assert (k ∈ blobUrls models) as Hb by (apply blobUrls_filter; simpl in Hlt; lia).
        destruct (IH Hb) as (c & _ & _ & Hget' & _). congruence.
  - intros Hrun [Hin|Hin%list_elem_of_singleton]; [|done].
    destruct (IH Hin) as (c & g & last_model & Hget & Hg & Hlast & Hm & Hmw & Hid).
    rewrite app_nil_r, Nat.add_0_r. exists c, g, last_model.
    destruct (JsMap.get (CadModelMetadata.blobUrl model) (containers st0))
      as [c'|] eqn:Hget'; injection Hrun as <- <-.
    + simpl. split; [done|]. split; [|done].
      rewrite list_lookup_alter_ne; [done|].
      by eapply (tracked_refs_differ st0 _ k c' c).
    + rewrite addModel_containers by done.
      split; [by apply JsMapFacts.get_app_l|]. split; [|done].
      simpl. by apply lookup_app_l_Some.
Qed.



Lemma setModels_keys models st st' :
  registry_ok st ->
  setModels models st = Ok st' ->
  forall k, k ∈ JsMap.keys (containers st') <-> k ∈ blobUrls models.
Proof.
  intros Hok Hrun.
  destruct (setModels_unfold models st Hok)
    as (keep' & st1 & st2 & Hloop & Hrun2 & Hcs & _ & _ & Hok1 & Hok2).
  rewrite Hrun in Hrun2. injection Hrun2 as <-.
  intros k. unfold JsMap.keys. rewrite Hcs. split.
  - intros [[k' c] [-> [Hk _]%list_elem_of_filter]]%list_elem_of_fmap. done.
  - intros Hk.
    destruct (setModels_visit_last models ∅ st keep' st1 k Hok Hloop Hk)
      as (c & _ & _ & Hget & _).
    apply list_elem_of_fmap. exists (k, c). split; [done|].
    apply list_elem_of_filter. split; [done|]. by apply tracked_elem.
Qed.

(** After [setModels] the group of every tracked key carries the matrix of
    the last input model with that key, and the world matrix follows it
    unless the call has just registered the model and named it once. *)
Lemma setModels_last_matrix models st st' k c :
  registry_ok st ->
  setModels models st = Ok st' ->
  JsMap.get k (containers st') = Some c ->
  exists g model,
    objects st' !! SectorContainer.renderable c = Some g
    ∧ last (filter (fun m => CadModelMetadata.blobUrl m = k) models) = Some model
    ∧ Group.matrix g = CadModelMetadata.modelMatrix model
    ∧ (k ∈ JsMap.keys (containers st)
       ∨ 1 < length (filter (fun m => CadModelMetadata.blobUrl m = k) models) ->
       Group.matrixWorld g = CadModelMetadata.modelMatrix model)
    ∧ (k ∉ JsMap.keys (containers st) ->
       length (filter (fun m => CadModelMetadata.blobUrl m = k) models) = 1 ->
       Group.matrixWorld g = Matrix4.identity).
Proof.
  intros Hok Hrun Hget.
  assert (k ∈ blobUrls models) as Hk.
  { apply (setModels_keys models st st' Hok Hrun).
    apply list_elem_of_fmap. exists (k, c). split; [done|]. by apply tracked_elem. }
  destruct (setModels_unfold models st Hok)
    as (keep' & st1 & st2 & Hloop & Hrun2 & Hcs & _ & Hobj & Hok1 & Hok2).
  rewrite Hrun in Hrun2. injection Hrun2 as <-.
  destruct (setModels_visit_last models ∅ st keep' st1 k Hok Hloop Hk)
    as (c1 & g & model & Hget1 & Hg & Hl & Hm & Hmw & Hid).
  rewrite Hcs, get_filter in Hget by (by intros v).
  assert (c1 = c) as -> by congruence.
  exists g, model. by rewrite Hobj.
Qed.

(** X1: On an instance reached through the public calls, [setModels] never
    throws, whatever list it is given: the error of [removeModel], "Could not
    find model", cannot occur, because [setModels] only discards identifiers
    it has just read from the container map. *)
Theorem setModels_never_throws models st :
  reachable st -> exists st', setModels models st = Ok st'.
Proof.
  intros Hr. destruct (setModels_unfold models st (reachable_ok st Hr))
    as (_ & _ & st' & _ & H & _). by exists st'.
Qed.

(** X1, witness: an instance tracking model1, asked to track model2 only. *)
Lemma setModels_never_throws_witness :
  exists st',
    setModels [model2] (instanceAfter None [[model1; model2]; [model1]]) = Ok st'.
Proof.
  apply (setModels_never_throws [model2]
           (instanceAfter None [[model1; model2]; [model1]])).
  apply instanceAfter_reachable.
Defined.

(** X2: After [setModels(models)] on a reachable instance the tracked
    identifiers are exactly the [blobUrl]s of the input, each tracked once,
    and every container is tracked under the [blobUrl] of the model it holds
    and holds that model's flattened sector list. *)
Theorem setModels_tracks_input models st st' :
  reachable st ->
  setModels models st = Ok st' ->
  (forall k, k ∈ JsMap.keys (containers st') <-> k ∈ blobUrls models)
  ∧ NoDup (JsMap.keys (containers st'))
  ∧ (forall k c,
       JsMap.get k (containers st') = Some c ->
       CadModelMetadata.blobUrl (SectorContainer.model c) = k
       ∧ SectorContainer.sectors c
         = getAllSectors (CadModelMetadata.scene (SectorContainer.model c))).
Proof.
  intros Hr Hrun. pose proof (reachable_ok st Hr) as Hok.
  assert (reachable st') as Hr'.
  { destruct Hr as [log Ht]. eexists. by eapply trace_setModels. }
  split; [by apply (setModels_keys models st)|].
  split; [apply (reachable_ok st' Hr')|].
  intros k c. by apply tracked_container_of_model.
Qed.

(** X2, witness: from {model1, model2} to [model2; model]. *)
Lemma setModels_tracks_input_witness :
  let st := instanceAfter None [[model1; model2]] in
  let st' := instanceAfter None [[model1; model2]; [model2; cadModel]] in
  reachable st
  ∧ setModels [model2; cadModel] st = Ok st'
  ∧ JsMap.keys (containers st') = ["model2"; "model"]
  ∧ ("model1" ∈ JsMap.keys (containers st') <-> "model1" ∈ blobUrls [model2; cadModel]).
Proof.
  cbv zeta.
  pose proof (instanceAfter_reachable None [[model1; model2]]) as Hr.
  assert (setModels [model2; cadModel] (instanceAfter None [[model1; model2]])
          = Ok (instanceAfter None [[model1; model2]; [model2; cadModel]]))
    as Hrun by (vm_compute; reflexivity).
  split; [exact Hr|]. split; [exact Hrun|]. split; [vm_compute; reflexivity|].
  apply (setModels_tracks_input _ _ _ Hr Hrun).
Defined.

(** X3: [setModels([])] on a reachable instance returns, leaves no
    container and an empty scene, keeps the running id offset (the ids of the
    removed models are not given out again) and does not touch the
    accumulator. *)
Theorem setModels_empty_clears st :
  reachable st ->
  exists st',
    setModels [] st = Ok st'
    ∧ containers st' = []
    ∧ scene st' = []
    ∧ sectorIdOffset st' = sectorIdOffset st
    ∧ sectorVisibilityBuffer st' = sectorVisibilityBuffer st.
Proof.
  intros Hr. pose proof (reachable_ok st Hr) as Hok.
  destruct (setModels_unfold [] st Hok)
    as (keep' & st1 & st' & Hloop & Hrun & Hcs & Hoff & Hobj & _ & _).
  simpl in Hloop. injection Hloop as <- <-.
  assert (containers st' = []) as Hnil.
  { rewrite Hcs. apply filter_none. intros kv _ Hin. by apply elem_of_nil in Hin. }
  exists st'. split_and!; try done.
  - assert (reachable st') as Hr'.
    { destruct Hr as [log Ht]. eexists. by eapply trace_setModels. }
    by rewrite (reachable_scene st' Hr'), Hnil.
  - by apply setModels_resources, resources_eq in Hrun as (_ & _ & _ & _ & ? & _).
Qed.

(** X3, witness: two tracked models with one sector each; the offset
    stays 2. *)
Lemma setModels_empty_clears_witness :
  let st := instanceAfter None [[model1; model2]] in
  exists st',
    setModels [] st = Ok st'
    ∧ containers st' = []
    ∧ scene st' = []
    ∧ sectorIdOffset st' = 2.
Proof.
  cbv zeta.
  destruct (setModels_empty_clears (instanceAfter None [[model1; model2]]))
    as (st' & Hrun & Hcs & Hsc & Hoff & _).
  { apply instanceAfter_reachable. }
  exists st'. split; [exact Hrun|]. split; [exact Hcs|]. split; [exact Hsc|].
  rewrite Hoff. vm_compute. reflexivity.
Defined.

(** X6: On a reachable instance the children of the scene are exactly the
    proxy objects of the tracked containers, in [Map] order and without
    repetition (no proxy of a removed model stays behind). Each of them
    carries the mesh [createSectorTreeMesh] builds for the container's offset
    and sectors and has [matrixAutoUpdate] off; its world matrix is its
    matrix, or still the identity it was created with. *)
Theorem scene_holds_tracked_proxies st :
  reachable st ->
  scene st = SectorContainer.renderable <$> JsMap.values (containers st)
  ∧ NoDup (scene st)
  ∧ (forall ref, ref ∈ scene st ->
       exists k c g,
         JsMap.get k (containers st) = Some c
         ∧ SectorContainer.renderable c = ref
         ∧ objects st !! ref = Some g
         ∧ Group.mesh g
           = Group.mesh (createSectorTreeMesh (SectorContainer.sectorIdOffset c)
                           (SectorContainer.sectors c) (Group.matrix g))
         ∧ Group.matrixAutoUpdate g = false
         ∧ (Group.matrixWorld g = Group.matrix g
            ∨ Group.matrixWorld g = Matrix4.identity)).
Proof.
  intros Hr. pose proof (reachable_ok st Hr) as Hok.
  pose proof (reachable_scene st Hr) as Hsc. unfold scene_of in Hsc.
  split; [done|]. split; [rewrite Hsc; apply Hok|].
  intros ref. rewrite Hsc. intros [c [-> Hc]]%list_elem_of_fmap.
  destruct (elem_tracked st c Hok Hc) as [k Hget].
  destruct (reachable_proxy_built st Hr k c Hget) as (g & Hg & Hbuilt).
  by exists k, c, g.
Qed.

(** X6, witness: after model2 was removed and model1 came back with a
    translated matrix, the scene holds the proxy of model1 only; this proxy
    was re-transformed, so its world matrix is its matrix. *)
Lemma scene_holds_tracked_proxies_witness :
  let st := instanceAfter None [[model1; model2]; [movedModel1]] in
  reachable st
  ∧ scene st = [0]
  ∧ NoDup (scene st)
  ∧ exists g,
      objects st !! 0 = Some g
      ∧ Group.matrixAutoUpdate g = false
      ∧ Group.matrix g = translatedMatrix
      ∧ (Group.matrixWorld g = Group.matrix g
         ∨ Group.matrixWorld g = Matrix4.identity).
Proof.
  cbv zeta.
  pose proof (instanceAfter_reachable None [[model1; model2]; [movedModel1]]) as Hr.
  split; [exact Hr|].
  destruct (scene_holds_tracked_proxies _ Hr) as (Hsc & Hnd & Hall).
  assert (scene (instanceAfter None [[model1; model2]; [movedModel1]]) = [0])
    as Hscene by (vm_compute; reflexivity).
  split; [exact Hscene|]. split; [exact Hnd|].
  destruct (Hall 0) as (k & c & g & _ & _ & Hg & _ & Hauto & Hworld).
  { rewrite Hscene. apply list_elem_of_singleton. reflexivity. }
  exists g. split; [exact Hg|]. split; [exact Hauto|]. split; [|exact Hworld].
  assert (Group.matrix
            <$> objects (instanceAfter None [[model1; model2]; [movedModel1]]) !! 0
          = Some translatedMatrix) as Hm by (vm_compute; reflexivity).
  rewrite Hg in Hm. by injection Hm.
Defined.

(** X26: After [setModels(models)] the proxy of every tracked model,
    whether it was tracked before or has just been registered, carries as
    [matrix] the [modelMatrix] of the last input model with its [blobUrl],
    has [matrixAutoUpdate] off, and its mesh is the one built for the
    container's offset and sectors. Its [matrixWorld] is that [modelMatrix]
    too if the model was tracked before the call or the list names it more
    than once ([updateModel] forces the update); the proxy of a model that
    the call has registered and that the list names once still has the
    identity as [matrixWorld]. *)
Theorem setModels_places_proxies models st st' k c :
  reachable st ->
  setModels models st = Ok st' ->
  JsMap.get k (containers st') = Some c ->
  exists g model,
    objects st' !! SectorContainer.renderable c = Some g
    ∧ last (filter (fun m => CadModelMetadata.blobUrl m = k) models) = Some model
    ∧ Group.matrix g = CadModelMetadata.modelMatrix model
    ∧ Group.matrixAutoUpdate g = false
    ∧ Group.mesh g
      = Group.mesh (createSectorTreeMesh (SectorContainer.sectorIdOffset c)
                      (SectorContainer.sectors c)
                      (CadModelMetadata.modelMatrix model))
    ∧ (k ∈ JsMap.keys (containers st)
       ∨ 1 < length (filter (fun m => CadModelMetadata.blobUrl m = k) models) ->
       Group.matrixWorld g = CadModelMetadata.modelMatrix model)
    ∧ (k ∉ JsMap.keys (containers st) ->
       length (filter (fun m => CadModelMetadata.blobUrl m = k) models) = 1 ->
       Group.matrixWorld g = Matrix4.identity).
Proof.
  intros Hr Hrun Hget.
  destruct (setModels_last_matrix models st st' k c (reachable_ok st Hr) Hrun Hget)
    as (g & model & Hg & Hl & Hm & Hmw & Hid).
  assert (reachable st') as Hr'.
  { destruct Hr as [log Ht]. eexists. by eapply trace_setModels. }
  destruct (reachable_proxy_built st' Hr' k c Hget)
    as (g' & Hg' & Hmesh & Hauto & _).
  assert (g' = g) as -> by congruence.
  exists g, model. split_and!; done.
Qed.

(** X26, witness: model1 is registered by the call, with a translated
    matrix; its proxy has that matrix, and the identity as world matrix. *)
Lemma setModels_places_proxies_witness :
  let st := instanceAfter None [[model2]] in
  let st' := instanceAfter None [[model2]; [movedModel1; model2]] in
  exists g,
    reachable st
    ∧ setModels [movedModel1; model2] st = Ok st'
    ∧ JsMap.get "model1" (containers st') = Some (containerOf movedModel1 1 1)
    ∧ objects st' !! 1 = Some g
    ∧ Group.matrix g = translatedMatrix
    ∧ Group.matrixWorld g = Matrix4.identity.
Proof.
  cbv zeta.
  pose proof (instanceAfter_reachable None [[model2]]) as Hr.
  assert (setModels [movedModel1; model2] (instanceAfter None [[model2]])
          = Ok (instanceAfter None [[model2]; [movedModel1; model2]]))
    as Hrun by (vm_compute; reflexivity).
  assert (JsMap.get "model1"
            (containers (instanceAfter None [[model2]; [movedModel1; model2]]))
          = Some (containerOf movedModel1 1 1)) as Hget by (vm_compute; reflexivity).
  assert ("model1" ∉ JsMap.keys (containers (instanceAfter None [[model2]])))
    as Hnew.
  { intros Hin%list_elem_of_singleton. discriminate Hin. }
  destruct (setModels_places_proxies _ _ _ _ _ Hr Hrun Hget)
    as (g & model & Hg & Hl & Hm & _ & _ & _ & Hid).
  exists g. split; [exact Hr|]. split; [exact Hrun|]. split; [exact Hget|].
  split; [exact Hg|]. split.
  - rewrite Hm. by injection Hl as <-.
  - apply Hid; [exact Hnew | reflexivity].
Defined.




(** ** The result list of a query *)

Lemma toPrioritized_Ok st totalWeight x e :
  toPrioritized st totalWeight x = Ok e ->
  exists c,
    find_container (JsMap.values (containers st))
      (SectorVisibility.sectorIdWithOffset x) = Some c
    ∧ e = {| PrioritizedSectorIdentifier.model := SectorContainer.model c;
             PrioritizedSectorIdentifier.sectorId :=
               SectorVisibility.sectorIdWithOffset x
               - SectorContainer.sectorIdOffset c;
             PrioritizedSectorIdentifier.priority :=
               (SectorVisibility.weight x / totalWeight)%R;
             PrioritizedSectorIdentifier.depth := SectorVisibility.distance x |}.
Proof.
  unfold toPrioritized, findSectorContainer.
  destruct (find_container _ _) as [c|]; [|done]. simpl.
  intros [= <-]. by exists c.
Qed.

(** The entries a query returns, one for each accumulated entry of positive
    weight, in sorted order. *)
Lemma query_result_entries rendered st entries :
  (orderSectorsByVisibility rendered st).2 = Ok entries ->
  Forall2
    (fun x e =>
       toPrioritized (orderSectorsByVisibility rendered st).1
         (totalWeightOf
            (present (sectorVisibilityBuffer (orderSectorsByVisibility rendered st).1)))
         x = Ok e)
    (sort (filter (fun x => (0 < SectorVisibility.weight x)%R)
             (present (sectorVisibilityBuffer (orderSectorsByVisibility rendered st).1))))
    entries.
Proof.
  intros Hres. rewrite orderSectorsByVisibility_result in Hres. cbv zeta in Hres.
  by apply map_result_Ok.
Qed.

Lemma query_containers rendered st :
  containers (orderSectorsByVisibility rendered st).1 = containers st.
Proof. reflexivity. Qed.

(** A resolved id: the container is tracked and its range holds the id. *)
Lemma find_container_tracked st g c :
  registry_ok st ->
  find_container (JsMap.values (containers st)) g = Some c ->
  exists k,
    JsMap.get k (containers st) = Some c
    ∧ SectorContainer.sectorIdOffset c ≤ g
      < SectorContainer.sectorIdOffset c + length (SectorContainer.sectors c)
    ∧ g < sectorIdOffset st.
Proof.
  intros Hok [Hc Hg]%find_container_Some.
  destruct (elem_tracked st c Hok Hc) as [k Hget]. exists k. split; [done|].
  apply contains_id_spec in Hg. unfold range_end, sectorCount in Hg.
  split; [done|].
  destruct Hok as [_ Hord _ _].
  pose proof (ordered_ranges_elem _ _ _ _ Hord Hc) as [_ Hend].
  unfold range_end, sectorCount in Hend. lia.
Qed.

Lemma present_ids_lt (sv : list (option SectorVisibility.t)) x :
  buffer_indexed sv -> x ∈ present sv ->
  SectorVisibility.sectorIdWithOffset x < length sv
  ∧ entry_at sv (SectorVisibility.sectorIdWithOffset x) = Some x.
Proof.
  intros Hidx [g Hg]%elem_of_present_entry.
  rewrite (Hidx g x Hg). split; [|done].
  unfold entry_at in Hg. apply lookup_lt_is_Some.
  destruct (sv !! g); [done|]. done.
Qed.

Lemma present_app {A : Type} (a b : list (option A)) :
  present (a ++ b) = present a ++ present b.
Proof. unfold present. apply omap_app. Qed.

Lemma entry_at_app_l (sv sv' : list (option SectorVisibility.t)) g x :
  entry_at sv g = Some x -> entry_at (sv ++ sv') g = Some x.
Proof.
  unfold entry_at. destruct (sv !! g) as [o|] eqn:Hg; [|done].
  intros Ho. by rewrite (lookup_app_l_Some _ _ _ _ Hg).
Qed.

Lemma present_ids_NoDup (sv : list (option SectorVisibility.t)) :
  buffer_indexed sv ->
  NoDup (SectorVisibility.sectorIdWithOffset <$> present sv).
Proof.
  induction sv as [|o sv IH] using rev_ind; intros Hidx; [constructor|].
  assert (buffer_indexed sv) as Hidx'.
  { intros g x Hg. apply Hidx. by apply entry_at_app_l. }
  rewrite present_app, fmap_app. apply NoDup_app. split; [by apply IH|].
  split.
  - intros g [x [-> Hx]]%list_elem_of_fmap Hin.
    apply (present_ids_lt sv x Hidx') in Hx as [Hlt _].
    destruct o as [y|]; [|by apply elem_of_nil in Hin].
    apply list_elem_of_singleton in Hin.
    assert (entry_at (sv ++ [Some y]) (length sv) = Some y) as Hy.
    { unfold entry_at. rewrite lookup_app_r by done. by rewrite Nat.sub_diag. }
    apply Hidx in Hy. lia.
  - destruct o; simpl; [apply NoDup_singleton | constructor].
Qed.

Lemma Forall2_fmap_NoDup {A B C D : Type} (R : A -> B -> Prop)
    (f : A -> C) (h : B -> D) xs es :
  Forall2 R xs es ->
  (forall x1 x2 e1 e2, R x1 e1 -> R x2 e2 -> h e1 = h e2 -> f x1 = f x2) ->
  NoDup (f <$> xs) -> NoDup (h <$> es).
Proof.
  intros HF Hinj. induction HF as [|x e xs es Hxe HF IH]; [constructor|].
  rewrite !fmap_cons. intros [Hnotin Hnd]%NoDup_cons. constructor; [|by apply IH].
  intros [e' [Heq He']]%list_elem_of_fmap. apply Hnotin.
  apply list_elem_of_lookup in He' as [i He'].
  destruct (Forall2_lookup_r _ _ _ _ _ HF He') as (x' & Hx' & Hxe').
  rewrite (Hinj x x' e e' Hxe Hxe' Heq).
  apply list_elem_of_fmap_2. by eapply list_elem_of_lookup_2.
Qed.

(** X10: Every entry a query on a reachable instance returns names a
    tracked model (the container tracked under the model's [blobUrl] holds
    that model), its [sectorId] is below the number of sectors of that model,
    and it stands for the accumulator entry at global id offset + sectorId,
    whose weight is positive and whose distance is the entry's depth. *)
Theorem returned_entries_valid rendered st entries :
  reachable st ->
  (orderSectorsByVisibility rendered st).2 = Ok entries ->
  Forall
    (fun e =>
       exists c x,
         JsMap.get (CadModelMetadata.blobUrl (PrioritizedSectorIdentifier.model e))
           (containers st) = Some c
         ∧ SectorContainer.model c = PrioritizedSectorIdentifier.model e
         ∧ PrioritizedSectorIdentifier.sectorId e
           < length (getAllSectors
                       (CadModelMetadata.scene (PrioritizedSectorIdentifier.model e)))
         ∧ entry_at
             (sectorVisibilityBuffer (orderSectorsByVisibility rendered st).1)
             (SectorContainer.sectorIdOffset c
              + PrioritizedSectorIdentifier.sectorId e) = Some x
         ∧ (0 < SectorVisibility.weight x)%R
         ∧ PrioritizedSectorIdentifier.depth e = SectorVisibility.distance x)
    entries.
Proof.
  intros Hr Hres. pose proof (reachable_ok st Hr) as Hok.
  apply query_result_entries in Hres.
  apply Forall_forall. intros e He.
  apply list_elem_of_lookup in He as [i He].
  destruct (Forall2_lookup_r _ _ _ _ _ Hres He) as (x & Hx & Hxe).
  apply list_elem_of_lookup_2 in Hx. rewrite sort_Permutation in Hx.
  apply list_elem_of_filter in Hx as [Hpos Hx].
  apply toPrioritized_Ok in Hxe as (c & Hfind & ->). simpl.
  rewrite query_containers in Hfind.
  destruct (find_container_tracked st _ c Hok Hfind) as (k & Hget & Hrange & _).
  destruct (tracked_container_of_model st k c Hr Hget) as [Hk Hsectors].
  exists c, x. rewrite Hk. split; [done|]. split; [done|].
  split; [rewrite <- Hsectors; lia|].
  split; [|done].
  replace (SectorContainer.sectorIdOffset c
           + (SectorVisibility.sectorIdWithOffset x
              - SectorContainer.sectorIdOffset c))
    with (SectorVisibility.sectorIdWithOffset x) by lia.
  apply present_ids_lt; [|done].
  exact (query_buffer_indexed rendered st (reachable_buffer_indexed st Hr)).
Qed.

(** X10, witness: the repository's test with two models. *)
Lemma returned_entries_valid_witness :
  let st := instanceAfter (Some (1, 1)) [[model1; model2]] in
  let e := {| PrioritizedSectorIdentifier.model := model2;
              PrioritizedSectorIdentifier.sectorId := 0;
              PrioritizedSectorIdentifier.priority := 1;
              PrioritizedSectorIdentifier.depth := 255 |} in
  reachable st
  ∧ (orderSectorsByVisibility [x00; x00; x01; xff] st).2 = Ok [e]
  ∧ exists c,
      JsMap.get "model2" (containers st) = Some c
      ∧ SectorContainer.model c = model2
      ∧ PrioritizedSectorIdentifier.sectorId e < 1.
Proof.
  cbv zeta.
  pose proof (instanceAfter_reachable (Some (1, 1)) [[model1; model2]]) as Hr.
  split; [exact Hr|]. split; [exact two_models_value_at_offset|].
  pose proof (returned_entries_valid _ _ _ Hr two_models_value_at_offset) as HF.
  apply Forall_cons in HF as [(c & x & Hget & Hmodel & Hid & _) _].
  exists c. split; [exact Hget|]. split; [exact Hmodel | exact Hid].
Defined.

(** X11: A query on a reachable instance lists no sector twice: the pairs
    of model identifier and local sector id of the returned entries are
    distinct. *)
Theorem returned_sectors_distinct rendered st entries :
  reachable st ->
  (orderSectorsByVisibility rendered st).2 = Ok entries ->
  NoDup ((fun e => (CadModelMetadata.blobUrl (PrioritizedSectorIdentifier.model e),
                    PrioritizedSectorIdentifier.sectorId e)) <$> entries).
Proof.
  intros Hr Hres. pose proof (reachable_ok st Hr) as Hok.
  apply query_result_entries in Hres.
  eapply (Forall2_fmap_NoDup _ SectorVisibility.sectorIdWithOffset); [exact Hres| |].
  - intros x1 x2 e1 e2 (c1 & Hf1 & ->)%toPrioritized_Ok (c2 & Hf2 & ->)%toPrioritized_Ok.
    simpl. intros [= Hurl Hid].
    rewrite query_containers in Hf1, Hf2.
    destruct (find_container_tracked st _ c1 Hok Hf1) as (k1 & Hget1 & Hr1 & _).
    destruct (find_container_tracked st _ c2 Hok Hf2) as (k2 & Hget2 & Hr2 & _).
    destruct (tracked_container_of_model st k1 c1 Hr Hget1) as [Hk1 _].
    destruct (tracked_container_of_model st k2 c2 Hr Hget2) as [Hk2 _].
    assert (k1 = k2) as -> by congruence.
    assert (c1 = c2) as -> by congruence. lia.
  - rewrite sort_Permutation. eapply sublist_NoDup.
    + apply present_ids_NoDup.
      exact (query_buffer_indexed rendered st (reachable_buffer_indexed st Hr)).
    + apply fmap_sublist, sublist_filter.
Qed.

(** X11, witness: the repository's test with two models. *)
Lemma returned_sectors_distinct_witness :
  let st := instanceAfter (Some (1, 1)) [[model1; model2]] in
  exists entries,
    reachable st
    ∧ (orderSectorsByVisibility [x00; x00; x01; xff] st).2 = Ok entries
    ∧ NoDup ((fun e =>
                (CadModelMetadata.blobUrl (PrioritizedSectorIdentifier.model e),
                 PrioritizedSectorIdentifier.sectorId e)) <$> entries).
Proof.
  cbv zeta. eexists.
  pose proof (instanceAfter_reachable (Some (1, 1)) [[model1; model2]]) as Hr.
  split; [exact Hr|]. split; [exact two_models_value_at_offset|].
  apply (returned_sectors_distinct _ _ _ Hr two_models_value_at_offset).
Defined.

(** ** The order of the result *)

Lemma sort_insert_sorted x l :
  StronglySorted (fun a b => (SectorVisibility.weight b <= SectorVisibility.weight a)%R) l ->
  StronglySorted (fun a b => (SectorVisibility.weight b <= SectorVisibility.weight a)%R)
    (sort_insert x l).
Proof.
  induction 1 as [|y l Hl IH Hy]; simpl.
  - repeat constructor.
  - destruct (bool_decide _) eqn:Hlt.
    + apply bool_decide_eq_true in Hlt. constructor; [done|].
      rewrite sort_insert_Permutation. constructor; [lra | done].
    + apply bool_decide_eq_false in Hlt. constructor; [by constructor|].
      constructor; [lra|]. eapply Forall_impl; [exact Hy|]. simpl. intros z Hz. lra.
Qed.

Lemma sort_sorted l :
  StronglySorted (fun a b => (SectorVisibility.weight b <= SectorVisibility.weight a)%R)
    (sort l).
Proof.
  induction l as [|x l IH]; simpl; [constructor|]. by apply sort_insert_sorted.
Qed.

Lemma StronglySorted_lookup {A : Type} (R : A -> A -> Prop) l i j a b :
  StronglySorted R l -> i < j -> l !! i = Some a -> l !! j = Some b -> R a b.
Proof.
  intros Hs. revert i j. induction Hs as [|x l Hl IH Hx]; intros i j Hij Hi Hj.
  - done.
  - destruct j as [|j]; [lia|]. simpl in Hj. destruct i as [|i].
    + injection Hi as <-. rewrite Forall_forall in Hx. apply Hx.
      by eapply list_elem_of_lookup_2.
    + simpl in Hi. apply (IH i j); [lia | done..].
Qed.

(** On a target at least as wide as high, a query that returns entries has
    a positive total weight. *)
Lemma landscape_total_pos rendered st x :
  0 < WebGLRenderTarget.height (renderTarget st)
    ≤ WebGLRenderTarget.width (renderTarget st) ->
  x ∈ present (sectorVisibilityBuffer (orderSectorsByVisibility rendered st).1) ->
  (0 < SectorVisibility.weight x)%R ->
  (0 < totalWeightOf
         (present (sectorVisibilityBuffer (orderSectorsByVisibility rendered st).1)))%R.
Proof.
  intros Hwh Hx Hpos.
  pose proof (landscape_weights_nonneg rendered st Hwh) as Hnonneg.
  rewrite totalWeightOf_sum.
  eapply Rlt_le_trans; [exact Hpos|]. apply sum_R_elem_le.
  - apply Forall_fmap. eapply Forall_impl; [exact Hnonneg|]. done.
  - by apply list_elem_of_fmap_2.
Qed.

(** X17: On a target at least as wide as high the returned list is in
    order of non-increasing priority. *)
Theorem landscape_result_sorted rendered st entries i j ei ej :
  0 < WebGLRenderTarget.height (renderTarget st)
    ≤ WebGLRenderTarget.width (renderTarget st) ->
  (orderSectorsByVisibility rendered st).2 = Ok entries ->
  i ≤ j -> entries !! i = Some ei -> entries !! j = Some ej ->
  (PrioritizedSectorIdentifier.priority ej
   <= PrioritizedSectorIdentifier.priority ei)%R.
Proof.
  intros Hwh Hres Hij Hi Hj.
  destruct (decide (i = j)) as [->|Hne].
  { assert (ei = ej) as -> by congruence. lra. }
  apply query_result_entries in Hres.
  destruct (Forall2_lookup_r _ _ _ _ _ Hres Hi) as (xi & Hxi & Hei).
  destruct (Forall2_lookup_r _ _ _ _ _ Hres Hj) as (xj & Hxj & Hej).
  rewrite (toPrioritized_priority _ _ _ _ Hei), (toPrioritized_priority _ _ _ _ Hej).
  assert (i < j) as Hlt by lia.
  pose proof (StronglySorted_lookup _ _ i j xi xj (sort_sorted _) Hlt Hxi Hxj) as Hle.
  simpl in Hle.
  assert (0 < totalWeightOf
                (present (sectorVisibilityBuffer
                            (orderSectorsByVisibility rendered st).1)))%R as Htotal.
  { apply list_elem_of_lookup_2 in Hxi. rewrite sort_Permutation in Hxi.
    apply list_elem_of_filter in Hxi as [Hpos Hin].
    by apply (landscape_total_pos rendered st xi). }
  unfold Rdiv. apply Rmult_le_compat_r; [|done].
  apply Rlt_le. by apply Rinv_0_lt_compat.
Qed.

(** X17, witness: a 2 x 2 target with sector 0 in the upper left
    pixel and sector 1 in the lower left pixel, whose row weighs more. *)
Lemma landscape_result_sorted_witness :
  let st := instanceAfter (Some (2, 2)) [[twoSectorModel]] in
  let q := orderSectorsByVisibility
             [x00; x00; x00; x0a;  xff; xff; xff; xff;
              x00; x00; x01; x14;  xff; xff; xff; xff] st in
  exists e0 e1,
    q.2 = Ok [e0; e1]
    ∧ PrioritizedSectorIdentifier.sectorId e0 = 1
    ∧ PrioritizedSectorIdentifier.sectorId e1 = 0
    ∧ (PrioritizedSectorIdentifier.priority e1
       <= PrioritizedSectorIdentifier.priority e0)%R.
Proof.
  cbv zeta.
  edestruct (orderSectorsByVisibility_eval
               [x00; x00; x00; x0a;  xff; xff; xff; xff;
                x00; x00; x01; x14;  xff; xff; xff; xff]
               (instanceAfter (Some (2, 2)) [[twoSectorModel]])
               2 2 0 [] [("model", containerOf twoSectorModel 0 0)])
    as (Hrt & Hcs & _ & _ & Hres);
    [vm_compute; reflexivity | vm_compute; reflexivity | vm_compute; reflexivity
    | vm_compute; reflexivity | eval_unpack; reflexivity |].
  assert (0 < pixel_weight 2 2 0 < pixel_weight 2 2 1)%R as [Hpos Hlt].
  { split; [apply pixel_weight_pos; lia|].
    unfold pixel_weight. apply weight_decreasing. simpl. lra. }
  rewrite !present_cons, present_nil in Hres.
  rewrite filter_cons_True in Hres by (simpl; lra).
  rewrite filter_cons_True in Hres by (simpl; lra).
  rewrite filter_nil in Hres. cbn [sort foldr sort_insert] in Hres.
  rewrite bool_decide_eq_true_2 in Hres by (simpl; lra).
  cbn [map_result] in Hres.
  erewrite !toPrioritized_found in Hres by (rewrite Hcs; reflexivity).
  cbn [mbind result_bind] in Hres.
  eexists _, _. split; [exact Hres|]. split; [reflexivity|]. split; [reflexivity|].
  assert (0 < WebGLRenderTarget.height
                (renderTarget (instanceAfter (Some (2, 2)) [[twoSectorModel]]))
            ≤ WebGLRenderTarget.width
                (renderTarget (instanceAfter (Some (2, 2)) [[twoSectorModel]])))
    as Hwh by (vm_compute; lia).
  apply (landscape_result_sorted _ _ _ 0 1 _ _ Hwh Hres); [lia | reflexivity..].
Defined.

(** ** A frame that shows only the clear colour *)

Lemma omap_None {A B : Type} (f : A -> option B) l :
  (forall a, a ∈ l -> f a = None) -> omap f l = [].
Proof.
  induction l as [|a l IH]; intros H; [done|]. simpl.
  rewrite H by (apply elem_of_cons; by left).
  apply IH. intros b Hb. apply H, elem_of_cons. by right.
Qed.

(** X12: When every pixel of the read-back buffer is the background
    sentinel (255, 255, 255) the query returns the empty list, on any
    instance and any target size, and the accumulator is left with its old
    entries blanked. *)
Theorem background_frame_returns_empty rendered st :
  (forall y x,
     y < WebGLRenderTarget.height (renderTarget st) ->
     x < WebGLRenderTarget.width (renderTarget st) ->
     decode (rtBuffer (orderSectorsByVisibility rendered st).1)
       (x + WebGLRenderTarget.width (renderTarget st) * y) = None) ->
  (orderSectorsByVisibility rendered st).2 = Ok []
  ∧ sectorVisibilityBuffer (orderSectorsByVisibility rendered st).1
    = map (option_map blank) (sectorVisibilityBuffer st).
Proof.
  intros Hbg.
  destruct (orderSectorsByVisibility_state rendered st) as (_ & _ & _ & _ & _ & Hsv).
  cbv zeta in Hsv.
  assert (sectorVisibilityBuffer (orderSectorsByVisibility rendered st).1
          = map (option_map blank) (sectorVisibilityBuffer st)) as Hsv'.
  { rewrite Hsv, unpackSectorVisibility_samples. unfold samples.
    rewrite omap_None; [done|].
    intros [y x] [Hy Hx]%elem_of_pixels. unfold sample_at. simpl.
    by rewrite Hbg. }
  split; [|done].
  rewrite orderSectorsByVisibility_result. cbv zeta. rewrite Hsv'.
  rewrite filter_none; [done|].
  intros x [g Hg]%elem_of_present_entry. rewrite entry_at_map_blank in Hg.
  destruct (entry_at (sectorVisibilityBuffer st) g) as [e|]; [|done].
  injection Hg as <-. simpl. lra.
Qed.

(** X12, witness: the repository's test with a cleared 1 x 1 frame. *)
Lemma background_frame_returns_empty_witness :
  (orderSectorsByVisibility [xff; xff; xff; xff]
     (instanceAfter (Some (1, 1)) [[cadModel]])).2 = Ok [].
Proof.
  apply background_frame_returns_empty.
  intros y x Hy Hx.
  change (WebGLRenderTarget.height
            (renderTarget (instanceAfter (Some (1, 1)) [[cadModel]]))) with 1 in Hy.
  change (WebGLRenderTarget.width
            (renderTarget (instanceAfter (Some (1, 1)) [[cadModel]]))) with 1 in Hx |- *.
  assert (y = 0) as -> by lia. assert (x = 0) as -> by lia.
  vm_compute. reflexivity.
Defined.

(** ** Which sectors a query on a landscape target lists *)

(** X16: On a reachable instance whose target is at least as wide as
    high, a query that returns lists a sector of a tracked model exactly when
    a pixel of the current buffer decodes to the sector's global id. *)
Theorem landscape_result_lists_hit_sectors rendered st entries k c g :
  reachable st ->
  0 < WebGLRenderTarget.height (renderTarget st)
    ≤ WebGLRenderTarget.width (renderTarget st) ->
  (orderSectorsByVisibility rendered st).2 = Ok entries ->
  JsMap.get k (containers st) = Some c ->
  SectorContainer.sectorIdOffset c ≤ g
    < SectorContainer.sectorIdOffset c + length (SectorContainer.sectors c) ->
  (exists e,
      e ∈ entries
      ∧ PrioritizedSectorIdentifier.model e = SectorContainer.model c
      ∧ PrioritizedSectorIdentifier.sectorId e = g - SectorContainer.sectorIdOffset c)
  <-> exists y x d,
        y < WebGLRenderTarget.height (renderTarget st)
        ∧ x < WebGLRenderTarget.width (renderTarget st)
        ∧ decode (rtBuffer (orderSectorsByVisibility rendered st).1)
            (x + WebGLRenderTarget.width (renderTarget st) * y) = Some (g, d).
Proof.
  intros Hr Hwh Hres Hget Hg. pose proof (reachable_ok st Hr) as Hok.
  apply query_result_entries in Hres.
  pose proof (landscape_returns_hit_sectors rendered st g Hr) as Hhit.
  cbv zeta in Hhit. rewrite <- (Hhit Hwh). clear Hhit. split.
  - intros (e & He & Hmodel & Hid).
    apply list_elem_of_lookup in He as [i He].
    destruct (Forall2_lookup_r _ _ _ _ _ Hres He) as (x & Hx & Hxe).
    apply list_elem_of_lookup_2 in Hx. rewrite sort_Permutation in Hx.
    exists x. split; [done|].
    apply toPrioritized_Ok in Hxe as (c' & Hfind & ->). simpl in Hmodel, Hid.
    rewrite query_containers in Hfind.
    destruct (find_container_tracked st _ c' Hok Hfind) as (k' & Hget' & Hr' & _).
    destruct (tracked_container_of_model st k' c' Hr Hget') as [Hk' _].
    destruct (tracked_container_of_model st k c Hr Hget) as [Hk _].
    assert (k' = k) as -> by congruence.
    assert (c' = c) as -> by congruence. lia.
  - intros (x & Hx & Hid).
    assert (x ∈ sort (filter (fun x => (0 < SectorVisibility.weight x)%R)
                        (present (sectorVisibilityBuffer
                                    (orderSectorsByVisibility rendered st).1))))
      as Hin by (by rewrite sort_Permutation).
    apply list_elem_of_lookup in Hin as [i Hi].
    destruct (Forall2_lookup_l _ _ _ _ _ Hres Hi) as (e & He & Hxe).
    exists e. split; [by eapply list_elem_of_lookup_2|].
    apply toPrioritized_Ok in Hxe as (c' & Hfind & ->). simpl.
    rewrite query_containers, Hid in Hfind.
    assert (find_container (JsMap.values (containers st)) g = Some c) as Hfind'.
    { destruct Hok as [_ Hord _ _]. eapply find_container_ordered; [exact Hord | |].
      - apply list_elem_of_fmap. exists (k, c). split; [done|]. by apply tracked_elem.
      - apply contains_id_spec. unfold range_end, sectorCount. lia. }
    assert (c' = c) as -> by congruence. by rewrite Hid.
Qed.

(** X16, witness: the repository's test with two models. *)
Lemma landscape_result_lists_hit_sectors_witness :
  let st := instanceAfter (Some (1, 1)) [[model1; model2]] in
  let q := orderSectorsByVisibility [x00; x00; x01; xff] st in
  let e := {| PrioritizedSectorIdentifier.model := model2;
              PrioritizedSectorIdentifier.sectorId := 0;
              PrioritizedSectorIdentifier.priority := 1;
              PrioritizedSectorIdentifier.depth := 255 |} in
  reachable st
  ∧ q.2 = Ok [e]
  ∧ JsMap.get "model2" (containers st) = Some (containerOf model2 1 1)
  ∧ exists y x d, y < 1 ∧ x < 1 ∧ decode (rtBuffer q.1) (x + 1 * y) = Some (1, d).
Proof.
  cbv zeta.
  pose proof (instanceAfter_reachable (Some (1, 1)) [[model1; model2]]) as Hr.
  assert (0 < WebGLRenderTarget.height
                (renderTarget (instanceAfter (Some (1, 1)) [[model1; model2]]))
            ≤ WebGLRenderTarget.width
                (renderTarget (instanceAfter (Some (1, 1)) [[model1; model2]])))
    as Hwh by (vm_compute; lia).
  assert (JsMap.get "model2"
            (containers (instanceAfter (Some (1, 1)) [[model1; model2]]))
          = Some (containerOf model2 1 1)) as Hget by (vm_compute; reflexivity).
  assert (SectorContainer.sectorIdOffset (containerOf model2 1 1) ≤ 1
          < SectorContainer.sectorIdOffset (containerOf model2 1 1)
            + length (SectorContainer.sectors (containerOf model2 1 1))) as Hg
    by (simpl; lia).
  split; [exact Hr|]. split; [exact two_models_value_at_offset|].
  split; [exact Hget|].
  apply (landscape_result_lists_hit_sectors _ _ _ _ _ 1 Hr Hwh
           two_models_value_at_offset Hget Hg).
  eexists. split; [apply elem_of_cons; by left|]. split; reflexivity.
Defined.

(** ** The accumulator after a query *)

Lemma samples_of_depths w h buffer g d :
  d ∈ (samples_of g (samples w h buffer)).*1 <->
  exists y x, y < h ∧ x < w ∧ decode buffer (x + w * y) = Some (g, d).
Proof.
  split.
  - intros [[d' wt] [-> Hin]]%list_elem_of_fmap. simpl.
    unfold samples_of, samples in Hin.
    apply list_elem_of_omap in Hin as ([[g' d''] wt'] & Hin & Hsel).
    simpl in Hsel. destruct (decide (g' = g)) as [->|]; [|done].
    injection Hsel as -> ->.
    apply list_elem_of_omap in Hin as ([y x] & Hp & Hsample).
    apply elem_of_pixels in Hp as [Hy Hx].
    unfold sample_at in Hsample. simpl in Hsample.
    destruct (decode buffer (x + w * y)) as [[g' d'']|] eqn:Hd; [|done].
    injection Hsample as -> -> _. by exists y, x.
  - intros (y & x & Hy & Hx & Hd).
    apply list_elem_of_fmap. exists (d, pixel_weight w h y). split; [done|].
    unfold samples_of, samples. apply list_elem_of_omap.
    exists (g, d, pixel_weight w h y). split.
    + apply list_elem_of_omap. exists (y, x). split; [by apply elem_of_pixels|].
      unfold sample_at. simpl. by rewrite Hd.
    + simpl. by rewrite decide_True.
Qed.

Lemma foldl_min_le a l : foldl Nat.min a l ≤ a ∧ Forall (fun d => foldl Nat.min a l ≤ d) l.
Proof.
  revert a. induction l as [|d l IH]; intros a; simpl; [by split|].
  destruct (IH (Nat.min a d)) as [H1 H2]. split; [lia|].
  constructor; [lia | done].
Qed.

Lemma foldl_min_attained a l : foldl Nat.min a l = a ∨ foldl Nat.min a l ∈ l.
Proof.
  revert a. induction l as [|d l IH]; intros a; simpl; [by left|].
  destruct (IH (Nat.min a d)) as [H|H].
  - rewrite H. destruct (Nat.min_spec a d) as [[_ ->]|[_ ->]]; [by left|].
    right. apply elem_of_cons. by left.
  - right. apply elem_of_cons. by right.
Qed.

(** X14: The distance of an accumulator entry after a query is the least of
    the distance the entry had before the query (if it existed) and the depth
    bytes of the pixels of the current buffer that decode to its id: it is
    at most each of them and equal to one of them. *)
Theorem query_depth_is_least rendered st g e :
  let q := orderSectorsByVisibility rendered st in
  let w := WebGLRenderTarget.width (renderTarget st) in
  let h := WebGLRenderTarget.height (renderTarget st) in
  entry_at (sectorVisibilityBuffer q.1) g = Some e ->
  (forall e0,
     entry_at (sectorVisibilityBuffer st) g = Some e0 ->
     SectorVisibility.distance e ≤ SectorVisibility.distance e0)
  ∧ (forall y x d,
       y < h -> x < w -> decode (rtBuffer q.1) (x + w * y) = Some (g, d) ->
       SectorVisibility.distance e ≤ d)
  ∧ ((exists e0,
        entry_at (sectorVisibilityBuffer st) g = Some e0
        ∧ SectorVisibility.distance e = SectorVisibility.distance e0)
     ∨ (exists y x,
          y < h ∧ x < w
          ∧ decode (rtBuffer q.1) (x + w * y)
            = Some (g, SectorVisibility.distance e))).
Proof.
  cbv zeta. intros He.
  pose proof (query_entry_distance rendered st g e) as Hd. cbv zeta in Hd.
  specialize (Hd He).
  set (ds := (samples_of g
                (samples (WebGLRenderTarget.width (renderTarget st))
                   (WebGLRenderTarget.height (renderTarget st))
                   (rtBuffer (orderSectorsByVisibility rendered st).1))).*1) in *.
  assert (forall d, d ∈ ds <->
            exists y x,
              y < WebGLRenderTarget.height (renderTarget st)
              ∧ x < WebGLRenderTarget.width (renderTarget st)
              ∧ decode (rtBuffer (orderSectorsByVisibility rendered st).1)
                  (x + WebGLRenderTarget.width (renderTarget st) * y) = Some (g, d))
    as Hds by (intros d; apply samples_of_depths).
  destruct (entry_at (sectorVisibilityBuffer st) g) as [e0|] eqn:He0.
  - destruct (foldl_min_le (SectorVisibility.distance e0) ds) as [Hle Hall].
    rewrite <- Hd in Hle, Hall. split; [by intros ? [= <-]|]. split.
    + intros y x d Hy Hx Hdec. rewrite Forall_forall in Hall. apply Hall.
      apply Hds. by exists y, x.
    + destruct (foldl_min_attained (SectorVisibility.distance e0) ds) as [H|H];
        rewrite <- Hd in H.
      * left. by exists e0.
      * right. by apply Hds.
  - split; [done|]. destruct ds as [|d ds'] eqn:Hdsq.
    { exfalso.
      pose proof (query_entry rendered st g) as Hq. cbv zeta in Hq.
      rewrite He in Hq.
      assert (is_Some (Some e)) as Hsome by (by eexists).
      rewrite Hq in Hsome.
      apply add_to_is_Some in Hsome as [Hs|Hne].
      { rewrite He0 in Hs. by destruct Hs. }
      apply Hne. by apply fmap_nil_inv in Hdsq. }
    destruct (foldl_min_le d ds') as [Hle Hall]. rewrite <- Hd in Hle, Hall.
    split.
    + intros y x d' Hy Hx Hdec.
      assert (d' ∈ d :: ds') as [->|Hin]%elem_of_cons; [|done|].
      { apply Hds. by exists y, x. }
      rewrite Forall_forall in Hall. by apply Hall.
    + right. apply Hds.
      destruct (foldl_min_attained d ds') as [H|H]; rewrite <- Hd in H.
      * rewrite H. apply elem_of_cons. by left.
      * apply elem_of_cons. by right.
Qed.

(** X14, witness: one pixel of depth 10 on a 1 x 1 target. *)
Lemma query_depth_is_least_witness :
  let q := orderSectorsByVisibility [x00; x00; x00; x0a]
             (instanceAfter (Some (1, 1)) [[cadModel]]) in
  exists e,
    entry_at (sectorVisibilityBuffer q.1) 0 = Some e
    ∧ decode (rtBuffer q.1) 0 = Some (0, 10)
    ∧ SectorVisibility.distance e ≤ 10.
Proof.
  cbv zeta.
  edestruct (orderSectorsByVisibility_eval [x00; x00; x00; x0a]
               (instanceAfter (Some (1, 1)) [[cadModel]])
               1 1 0 [] [("model", containerOf cadModel 0 0)])
    as (_ & _ & Hbuf & Hsv & _);
    [vm_compute; reflexivity | vm_compute; reflexivity | vm_compute; reflexivity
    | vm_compute; reflexivity | eval_unpack; reflexivity |].
  eexists.
  match goal with |- ?entry = Some ?x ∧ _ => assert (He : entry = Some x) end.
  { rewrite Hsv. reflexivity. }
  assert (decode (rtBuffer (orderSectorsByVisibility [x00; x00; x00; x0a]
                              (instanceAfter (Some (1, 1)) [[cadModel]])).1) 0
          = Some (0, 10)) as Hdec.
  { rewrite Hbuf. vm_compute. reflexivity. }
  split; [exact He|]. split; [exact Hdec|].
  destruct (query_depth_is_least _ _ _ _ He) as (_ & Hle & _).
  apply (Hle 0 0 10); [vm_compute; lia | vm_compute; lia | exact Hdec].
Defined.

(** X13: Weights are recomputed by every query. After a query the
    accumulator has an entry for a global id exactly when it had one before
    or a pixel of the current buffer decodes to the id; the weight of the
    entry is the sum of the weights of the pixels of the current buffer that
    decode to it, so it is 0 when no pixel does. *)
Theorem query_weights_from_current_frame rendered st g :
  let q := orderSectorsByVisibility rendered st in
  let w := WebGLRenderTarget.width (renderTarget st) in
  let h := WebGLRenderTarget.height (renderTarget st) in
  let hit :=
    exists y x d, y < h ∧ x < w ∧ decode (rtBuffer q.1) (x + w * y) = Some (g, d) in
  (is_Some (entry_at (sectorVisibilityBuffer q.1) g)
   <-> is_Some (entry_at (sectorVisibilityBuffer st) g) ∨ hit)
  ∧ (forall e,
       entry_at (sectorVisibilityBuffer q.1) g = Some e ->
       SectorVisibility.weight e
       = sum_R (samples_of g (samples w h (rtBuffer q.1))).*2
       ∧ (¬ hit -> SectorVisibility.weight e = 0%R)).
Proof.
  cbv zeta. split.
  - pose proof (query_entry rendered st g) as Hq. cbv zeta in Hq. rewrite Hq.
    rewrite add_to_is_Some, samples_of_nonempty.
    by destruct (entry_at (sectorVisibilityBuffer st) g);
      rewrite ?fmap_is_Some.
  - intros e He. split; [by apply landscape_entry_weight|].
    intros Hno. rewrite (landscape_entry_weight rendered st g e He).
    destruct (samples_of g _) as [|s ss] eqn:Hs; [done|].
    exfalso. apply Hno. apply samples_of_nonempty. by rewrite Hs.
Qed.

(** ** The read-back buffer *)

Lemma query_rtBuffer_length rendered st :
  length (rtBuffer (orderSectorsByVisibility rendered st).1)
  = Nat.max (length (rtBuffer st))
      (4 * WebGLRenderTarget.width (renderTarget st)
       * WebGLRenderTarget.height (renderTarget st)).
Proof.
  destruct (orderSectorsByVisibility_state rendered st) as (_ & _ & _ & _ & Hrt & _).
  cbv zeta in Hrt. rewrite Hrt. unfold readRenderTargetPixels, prepareBuffers.
  cbn [rtBuffer set_buffers].
  set (size := 4 * WebGLRenderTarget.width (renderTarget st)
               * WebGLRenderTarget.height (renderTarget st)).
  rewrite length_app, length_drop, length_take.
  destruct (Nat.ltb_spec (length (rtBuffer st)) size) as [Hlt|Hge].
  - rewrite length_replicate. lia.
  - lia.
Qed.

Lemma reachable_rtBuffer st :
  reachable st ->
  rtBuffer st = []
  ∨ length (rtBuffer st)
    = 4 * WebGLRenderTarget.width (renderTarget st)
      * WebGLRenderTarget.height (renderTarget st).
Proof.
  revert st. apply reachable_ind.
  - intros rs. unfold constructor. destruct (default _ rs). by left.
  - intros st models st' Hr IH Hrun.
    apply (setModels_resources models), resources_eq in Hrun
      as (_ & _ & Hrt & Hbuf & _).
    by rewrite Hrt, Hbuf.
  - done.
  - intros st options st'. unfold createDebugCanvas.
    destruct (debugRenderer st); [done|]. by intros _ ? [= <-].
  - intros st rendered _ IH. right. rewrite query_rtBuffer_length.
    change (renderTarget (orderSectorsByVisibility rendered st).1)
      with (renderTarget st).
    destruct IH as [->|IH]; simpl length; lia.
  - done.
Qed.

(** X18: The read-back buffer is allocated once and then reused. On a
    reachable instance it is empty, as the constructor leaves it, or holds
    4 * width * height bytes. [prepareBuffers] replaces the empty buffer by a
    zero-filled one of that size and keeps a buffer of that size, with its
    bytes. After a query the buffer has that size, so the [prepareBuffers]
    of the next query keeps it, and the next read-back writes over the bytes
    of this one. *)
Theorem rtBuffer_allocated_once st :
  reachable st ->
  let width := WebGLRenderTarget.width (renderTarget st) in
  let height := WebGLRenderTarget.height (renderTarget st) in
  let size := 4 * width * height in
  (rtBuffer st = [] ∨ length (rtBuffer st) = size)
  ∧ (rtBuffer st = [] -> rtBuffer (prepareBuffers st) = replicate size x00)
  ∧ (length (rtBuffer st) = size -> rtBuffer (prepareBuffers st) = rtBuffer st)
  ∧ forall rendered,
      let st' := (orderSectorsByVisibility rendered st).1 in
      length (rtBuffer st') = size
      ∧ rtBuffer (prepareBuffers st') = rtBuffer st'
      ∧ forall rendered',
          rtBuffer (orderSectorsByVisibility rendered' st').1
          = readRenderTargetPixels rendered' width height (rtBuffer st').
Proof.
  intros Hr. cbv zeta.
  set (size := 4 * WebGLRenderTarget.width (renderTarget st)
               * WebGLRenderTarget.height (renderTarget st)).
  assert (forall s,
            renderTarget s = renderTarget st ->
            length (rtBuffer s) = size ->
            rtBuffer (prepareBuffers s) = rtBuffer s) as Hkeep.
  { intros s Hrt Hlen. unfold prepareBuffers. cbn [rtBuffer set_buffers].
    rewrite Hrt. fold size. rewrite Hlen.
    by rewrite Nat.ltb_irrefl. }
  pose proof (reachable_rtBuffer st Hr) as Hinv. fold size in Hinv.
  assert (forall rendered,
            length (rtBuffer (orderSectorsByVisibility rendered st).1) = size)
    as Hlen.
  { intros rendered. rewrite query_rtBuffer_length. fold size.
    destruct Hinv as [->|Hinv]; simpl length; lia. }
  split_and!.
  - exact Hinv.
  - intros Hnil. unfold prepareBuffers. cbn [rtBuffer set_buffers]. fold size.
    rewrite Hnil. simpl length.
    destruct (Nat.ltb_spec 0 size) as [|Hz]; [done|].
    by replace size with 0 by lia.
  - by apply Hkeep.
  - intros rendered. split; [apply Hlen|]. split; [by apply Hkeep|].
    intros rendered'.
    destruct (orderSectorsByVisibility_state rendered'
                (orderSectorsByVisibility rendered st).1)
      as (_ & _ & _ & _ & Hbuf & _).
    cbv zeta in Hbuf. rewrite Hbuf. by rewrite Hkeep.
Qed.

(** X18, witness: on a 1 x 1 target the first query allocates four bytes
    and reads the frame into them; the preparation of the second query keeps
    these bytes. *)
Lemma rtBuffer_allocated_once_witness :
  let st := instanceAfter (Some (1, 1)) [[cadModel]] in
  let st' := (orderSectorsByVisibility [x00; x00; x00; x0a] st).1 in
  rtBuffer st = []
  ∧ rtBuffer (prepareBuffers st) = [x00; x00; x00; x00]
  ∧ rtBuffer st' = [x00; x00; x00; x0a]
  ∧ rtBuffer (prepareBuffers st') = [x00; x00; x00; x0a]
  ∧ rtBuffer (orderSectorsByVisibility [x00; x00; x01; x14] st').1
    = [x00; x00; x01; x14].
Proof.
  cbv zeta.
  destruct (rtBuffer_allocated_once (instanceAfter (Some (1, 1)) [[cadModel]]))
    as (_ & Hfirst & _ & Hq); [apply instanceAfter_reachable|].
  destruct (Hq [x00; x00; x00; x0a]) as (_ & Hkeep & Hnext).
  assert (rtBuffer (instanceAfter (Some (1, 1)) [[cadModel]]) = []) as Hnil
    by (vm_compute; reflexivity).
  assert (rtBuffer (orderSectorsByVisibility [x00; x00; x00; x0a]
                      (instanceAfter (Some (1, 1)) [[cadModel]])).1
          = [x00; x00; x00; x0a]) as Hbuf by (vm_compute; reflexivity).
  split; [exact Hnil|]. split; [rewrite (Hfirst Hnil); vm_compute; reflexivity|].
  split; [exact Hbuf|]. split; [rewrite Hkeep; exact Hbuf|].
  rewrite Hnext, Hbuf. vm_compute. reflexivity.
Defined.

(** ** What [setModels] leaves alone *)

(** X5: A [setModels] call that returns changes only the registry of
    models: the two renderers, the render target, the read-back buffer, the
    accumulator (with the entries of models it removed) and the clipping
    configuration are as before. *)
Theorem setModels_keeps_resources models st st' :
  setModels models st = Ok st' ->
  _renderer st' = _renderer st
  ∧ debugRenderer st' = debugRenderer st
  ∧ renderTarget st' = renderTarget st
  ∧ rtBuffer st' = rtBuffer st
  ∧ sectorVisibilityBuffer st' = sectorVisibilityBuffer st
  ∧ coverageMaterial st' = coverageMaterial st.
Proof. intros Hrun. by apply resources_eq, (setModels_resources models). Qed.

(** X5, witness: after a query has filled the buffers, [setModels([])]
    keeps them. *)
Lemma setModels_keeps_resources_witness :
  let st := (orderSectorsByVisibility [x00; x00; x00; x0a]
               (instanceAfter (Some (1, 1)) [[cadModel]])).1 in
  exists st',
    setModels [] st = Ok st'
    ∧ containers st' = []
    ∧ sectorVisibilityBuffer st' = sectorVisibilityBuffer st
    ∧ rtBuffer st' = [x00; x00; x00; x0a].
Proof.
  cbv zeta. eexists.
  match goal with |- ?run = Ok ?s ∧ _ => assert (Hrun : run = Ok s) end.
  { vm_compute. reflexivity. }
  split; [exact Hrun|]. split; [reflexivity|].
  destruct (setModels_keeps_resources _ _ _ Hrun) as (_ & _ & _ & Hbuf & Hsv & _).
  split; [exact Hsv|]. rewrite Hbuf. vm_compute. reflexivity.
Defined.

(** ** The renderers along a history *)

Lemma call_debugRenderer c st st' :
  is_Some (debugRenderer st) -> call c st = Ok st' -> is_Some (debugRenderer st').
Proof.
  intros Hd. destruct c; cbn [call].
  - intros Hrun. apply setModels_resources, resources_eq in Hrun as (_ & -> & _).
    done.
  - by intros [= <-].
  - unfold createDebugCanvas. destruct (debugRenderer st); [done|].
    intros [= <-]. by eexists.
  - by intros [= <-].
  - intros [= <-]. simpl. destruct Hd as [d ->]. by eexists.
Qed.

(** X19: After [createDebugCanvas] has returned once, every later
    [createDebugCanvas] throws "createDebugCanvas() can only be called once",
    whatever public calls were made in between (also after [dispose]). *)
Theorem createDebugCanvas_only_once options st st1 cs st2 options' :
  createDebugCanvas options st = Ok st1 ->
  calls cs st1 = Ok st2 ->
  createDebugCanvas options' st2
  = Throw "createDebugCanvas() can only be called once".
Proof.
  intros Hrun Hcalls.
  assert (is_Some (debugRenderer st1)) as Hd.
  { unfold createDebugCanvas in Hrun. destruct (debugRenderer st); [done|].
    injection Hrun as <-. by eexists. }
  assert (is_Some (debugRenderer st2)) as [d Hd2].
  { apply (calls_invariant (fun s => is_Some (debugRenderer s)) cs st1 st2);
      [|done..]. intros c s s'. apply call_debugRenderer. }
  unfold createDebugCanvas. by rewrite Hd2.
Qed.

(** X19, witness: three calls between the two [createDebugCanvas] calls. *)
Lemma createDebugCanvas_only_once_witness :
  let cs := [SetClipping None true; SetModels [cadModel]; Dispose] in
  exists st1 st2,
    createDebugCanvas None (constructor None) = Ok st1
    ∧ calls cs st1 = Ok st2
    ∧ createDebugCanvas (Some (10, 10)) st2
      = Throw "createDebugCanvas() can only be called once".
Proof.
  cbv zeta. eexists _, _.
  match goal with |- ?run = Ok ?s ∧ _ => assert (Hrun : run = Ok s) end.
  { reflexivity. }
  split; [exact Hrun|].
  match goal with |- ?run = Ok ?s ∧ _ => assert (Hcalls : run = Ok s) end.
  { vm_compute. reflexivity. }
  split; [exact Hcalls|].
  apply (createDebugCanvas_only_once _ _ _ _ _ _ Hrun Hcalls).
Defined.

(** X20: Along every sequence of public calls on a fresh instance the
    render target keeps the size given to the constructor (640 x 480 by
    default), the renderer keeps [localClippingEnabled = true] and the clear
    colour '#FFFFFF', and a debug renderer, once created, has
    [localClippingEnabled = true], the clear colour 'white' and a size. *)
Theorem renderers_configured renderSize cs st :
  calls cs (constructor renderSize) = Ok st ->
  (WebGLRenderTarget.width (renderTarget st),
   WebGLRenderTarget.height (renderTarget st)) = default (640, 480) renderSize
  ∧ WebGLRenderer.localClippingEnabled (renderer st) = true
  ∧ WebGLRenderer.clearColor (renderer st) = "#FFFFFF"
  ∧ (forall d,
       debugRenderer st = Some d ->
       WebGLRenderer.localClippingEnabled d = true
       ∧ WebGLRenderer.clearColor d = "white"
       ∧ is_Some (WebGLRenderer.size d)).
Proof.
  apply (calls_invariant
           (fun st =>
              (WebGLRenderTarget.width (renderTarget st),
               WebGLRenderTarget.height (renderTarget st))
              = default (640, 480) renderSize
              ∧ WebGLRenderer.localClippingEnabled (renderer st) = true
              ∧ WebGLRenderer.clearColor (renderer st) = "#FFFFFF"
              ∧ (forall d,
                   debugRenderer st = Some d ->
                   WebGLRenderer.localClippingEnabled d = true
                   ∧ WebGLRenderer.clearColor d = "white"
                   ∧ is_Some (WebGLRenderer.size d)))).
  2: { unfold constructor. by destruct (default _ renderSize). }
  intros c s s' (Hsize & Hclip & Hcolor & Hdebug). destruct c; cbn [call].
  - intros Hrun.
    apply setModels_resources, resources_eq in Hrun as (Hr & Hd & Hrt & _).
    unfold renderer. rewrite Hr, Hd, Hrt. done.
  - by intros [= <-].
  - unfold createDebugCanvas.
    destruct (debugRenderer s) eqn:Hd; [done|]. intros [= <-].
    split_and!; try done. simpl. intros d [= <-]. simpl. split_and!; try done.
  - by intros [= <-].
  - intros [= <-]. split_and!; try done. simpl. intros d.
    destruct (debugRenderer s) as [d0|]; [|done]. simpl. intros [= <-].
    destruct (Hdebug d0 eq_refl) as (? & ? & ?). done.
Qed.

(** X20, witness: default size, with a debug renderer, after [dispose]. *)
Lemma renderers_configured_witness :
  let cs := [SetClipping (Some [((0, 0, 1)%R, 0%R)]) false;
             CreateDebugCanvas None; Dispose] in
  exists st d,
    calls cs (constructor None) = Ok st
    ∧ WebGLRenderer.localClippingEnabled (renderer st) = true
    ∧ WebGLRenderTarget.width (renderTarget st) = 640
    ∧ debugRenderer st = Some d
    ∧ WebGLRenderer.localClippingEnabled d = true.
Proof.
  cbv zeta. eexists _, _.
  match goal with |- ?run = Ok ?s ∧ _ => assert (Hcalls : run = Ok s) end.
  { vm_compute. reflexivity. }
  split; [exact Hcalls|].
  destruct (renderers_configured _ _ _ Hcalls) as (Hsize & Hclip & _ & Hdebug).
  split; [exact Hclip|]. split; [exact (f_equal fst Hsize)|].
  split; [reflexivity|]. apply (Hdebug _ eq_refl).
Defined.

(** ** The clipping configuration *)

Lemma call_coverageMaterial c st st' :
  call c st = Ok st' ->
  coverageMaterial st' = default (coverageMaterial st) (clipping_of c).
Proof.
  destruct c; cbn [call clipping_of default].
  - intros Hrun.
    by apply setModels_resources, resources_eq in Hrun as (_ & _ & _ & _ & _ & ->).
  - by intros [= <-].
  - unfold createDebugCanvas. destruct (debugRenderer st); [done|]. by intros [= <-].
  - by intros [= <-].
  - by intros [= <-].
Qed.

(** X21: The clipping configuration of the coverage material is the one
    given to the last [setClipping] call of the history, and no planes with
    [clipIntersection = false] when [setClipping] was never called; no other
    public call changes it. *)
Theorem clipping_is_last_set renderSize cs st :
  calls cs (constructor renderSize) = Ok st ->
  coverageMaterial st
  = default {| ShaderMaterial.clippingPlanes := None;
               ShaderMaterial.clipIntersection := false |}
      (last (omap clipping_of cs)).
Proof.
  revert st. induction cs as [|c cs IH] using rev_ind; intros st.
  - simpl. intros [= <-]. unfold constructor. by destruct (default _ renderSize).
  - rewrite calls_app. destruct (calls cs (constructor renderSize)) as [st0|]; [|done].
    simpl. destruct (call c st0) as [st1|] eqn:Hc; [|done]. simpl. intros [= <-].
    rewrite (call_coverageMaterial _ _ _ Hc), (IH st0 eq_refl), omap_app. simpl.
    destruct (clipping_of c) as [m|]; simpl.
    + by rewrite last_snoc.
    + by rewrite app_nil_r.
Qed.

(** X21, witness: two [setClipping] calls with other calls around them. *)
Lemma clipping_is_last_set_witness :
  let plane := ((0, 0, 1)%R, 0%R) in
  let cs := [SetClipping (Some [plane]) true; SetModels [cadModel];
             SetClipping None false; OrderSectorsByVisibility []; Dispose] in
  exists st,
    calls cs (constructor (Some (1, 1))) = Ok st
    ∧ ShaderMaterial.clippingPlanes (coverageMaterial st) = None
    ∧ ShaderMaterial.clipIntersection (coverageMaterial st) = false.
Proof.
  cbv zeta. eexists.
  match goal with |- ?run = Ok ?s ∧ _ => assert (Hcalls : run = Ok s) end.
  { vm_compute. reflexivity. }
  split; [exact Hcalls|].
  rewrite (clipping_is_last_set _ _ _ Hcalls). split; reflexivity.
Defined.

(** ** Resolving ids *)

(** X8: On a reachable instance [findSectorContainer] returns only a tracked
    container whose range holds the id, and it throws "Sector ID ... is out
    of range" for every id at or above the running offset. *)
Theorem resolve_sound st g :
  reachable st ->
  (forall c,
     findSectorContainer st g = Ok c ->
     exists k,
       JsMap.get k (containers st) = Some c
       ∧ SectorContainer.sectorIdOffset c ≤ g
         < SectorContainer.sectorIdOffset c + length (SectorContainer.sectors c)
       ∧ g < sectorIdOffset st)
  ∧ (sectorIdOffset st ≤ g ->
     findSectorContainer st g
     = Throw ("Sector ID " ++ pretty g ++ " is out of range")).
Proof.
  intros Hr. pose proof (reachable_ok st Hr) as Hok. split.
  - intros c. unfold findSectorContainer.
    destruct (find_container _ g) as [c'|] eqn:Hfind; [|done].
    intros [= <-]. by apply find_container_tracked.
  - intros Hge. unfold findSectorContainer.
    destruct (find_container _ g) as [c'|] eqn:Hfind; [|done].
    apply find_container_tracked in Hfind as (_ & _ & _ & Hlt); [lia | done].
Qed.

(** X8, witness: two ids were given out; id 2 does not resolve. *)
Lemma resolve_sound_witness :
  let st := instanceAfter None [[model1; model2]; [model2]] in
  reachable st
  ∧ sectorIdOffset st ≤ 2
  ∧ findSectorContainer st 2 = Throw "Sector ID 2 is out of range".
Proof.
  cbv zeta.
  pose proof (instanceAfter_reachable None [[model1; model2]; [model2]]) as Hr.
  assert (sectorIdOffset (instanceAfter None [[model1; model2]; [model2]]) ≤ 2)
    as Hge by (vm_compute; lia).
  split; [exact Hr|]. split; [exact Hge|].
  destruct (resolve_sound _ 2 Hr) as [_ Hthrow]. rewrite (Hthrow Hge).
  vm_compute. reflexivity.
Defined.

(** ** Ids of removed models *)

Lemma setModels_unresolved models st st' g :
  registry_ok st ->
  g < sectorIdOffset st ->
  (forall k c, JsMap.get k (containers st) = Some c ->
               k ∈ blobUrls models -> contains_id c g = false) ->
  setModels models st = Ok st' ->
  g < sectorIdOffset st'
  ∧ forall c, c ∈ JsMap.values (containers st') -> contains_id c g = false.
Proof.
  intros Hok Hlt Hold Hrun.
  destruct (setModels_spec models st Hok)
    as (st2 & news & Hrun2 & Hcs & Hcons & Hnews & _ & _ & Hok2).
  rewrite Hrun in Hrun2. injection Hrun2 as <-.
  apply consecutive_ordered in Hcons.
  split; [apply ordered_ranges_le in Hcons; lia|].
  intros c. unfold JsMap.values. rewrite Hcs, fmap_app, elem_of_app.
  intros [Hc|Hc].
  - apply list_elem_of_fmap in Hc as ([k c'] & -> & [Hk Hin]%list_elem_of_filter).
    simpl in *. apply (Hold k); [|done].
    apply JsMapFacts.elem_get; [apply Hok | done].
  - destruct (ordered_ranges_elem _ _ _ _ Hcons Hc) as [Hlo _].
    destruct (contains_id c g) eqn:Hg; [|done].
    apply contains_id_spec in Hg. lia.
Qed.

Lemma calls_unresolved cs st st' g :
  calls cs st = Ok st' ->
  reachable st ->
  g < sectorIdOffset st ->
  (forall c, c ∈ JsMap.values (containers st) -> contains_id c g = false) ->
  forall c, c ∈ JsMap.values (containers st') -> contains_id c g = false.
Proof.
  intros Hcalls Hr Hlt Hnone.
  apply (calls_invariant
           (fun s => reachable s ∧ g < sectorIdOffset s
                     ∧ forall c, c ∈ JsMap.values (containers s) ->
                                 contains_id c g = false) cs st st');
    [|done..].
  clear. intros c s s' (Hr & Hlt & Hnone) Hc.
  split; [by eapply call_reachable|].
  destruct c; cbn [call] in Hc; try (by injection Hc as <-).
  - apply (setModels_unresolved models s s' g); [by apply reachable_ok|done| |done].
    intros k c Hget _. apply Hnone. apply list_elem_of_fmap. exists (k, c).
    split; [done|]. by apply tracked_elem.
  - apply createDebugCanvas_registry in Hc as (Hcs & Ho & _).
    by rewrite Hcs, Ho.
Qed.

(** X7: Once a [setModels] call has removed a model, the global ids of its
    range resolve to no container any more, whatever public calls follow,
    also when the same model is registered again: [findSectorContainer]
    throws for them. *)
Theorem removed_ids_never_resolve st models st1 cs st2 k c g :
  reachable st ->
  JsMap.get k (containers st) = Some c ->
  SectorContainer.sectorIdOffset c ≤ g
    < SectorContainer.sectorIdOffset c + length (SectorContainer.sectors c) ->
  k ∉ blobUrls models ->
  setModels models st = Ok st1 ->
  calls cs st1 = Ok st2 ->
  findSectorContainer st2 g
  = Throw ("Sector ID " ++ pretty g ++ " is out of range").
Proof.
  intros Hr Hget Hg Hk Hrun Hsteps. pose proof (reachable_ok st Hr) as Hok.
  assert (contains_id c g = true) as Hcg.
  { apply contains_id_spec. unfold range_end, sectorCount. lia. }
  assert (g < sectorIdOffset st) as Hlt.
  { destruct Hok as [_ Hord _ _].
    assert (c ∈ JsMap.values (containers st)) as Hc.
    { apply list_elem_of_fmap. exists (k, c). split; [done|]. by apply tracked_elem. }
    pose proof (ordered_ranges_elem _ _ _ _ Hord Hc) as [_ Hend].
    unfold range_end, sectorCount in Hend. lia. }
  destruct (setModels_unresolved models st st1 g Hok Hlt) as [Hlt1 Hnone1];
    [|done|].
  { intros k' c' Hget' Hk'.
    destruct (contains_id c' g) eqn:Hc'g; [|done]. exfalso.
    apply (tracked_disjoint st k k' c c' g); try done. by intros ->. }
  assert (reachable st1) as Hr1.
  { destruct Hr as [log Ht]. eexists. by eapply trace_setModels. }
  pose proof (calls_unresolved cs st1 st2 g Hsteps Hr1 Hlt1 Hnone1) as Hnone2.
  unfold findSectorContainer.
  destruct (find_container _ g) as [c2|] eqn:Hfind; [|done].
  apply find_container_Some in Hfind as [Hin Hc2]. rewrite (Hnone2 c2 Hin) in Hc2.
  done.
Qed.

(** X7, witness: model1 is removed and then registered again; id 0 stays
    unresolved. *)
Lemma removed_ids_never_resolve_witness :
  let st := instanceAfter None [[model1; model2]] in
  let st1 := instanceAfter None [[model1; model2]; [model2]] in
  let st2 := instanceAfter None [[model1; model2]; [model2]; [model1; model2]] in
  reachable st
  ∧ JsMap.get "model1" (containers st) = Some (containerOf model1 0 0)
  ∧ ("model1" ∉ blobUrls [model2])
  ∧ setModels [model2] st = Ok st1
  ∧ calls [SetModels [model1; model2]] st1 = Ok st2
  ∧ JsMap.keys (containers st2) = ["model2"; "model1"]
  ∧ findSectorContainer st2 0 = Throw "Sector ID 0 is out of range".
Proof.
  cbv zeta.
  pose proof (instanceAfter_reachable None [[model1; model2]]) as Hr.
  assert (JsMap.get "model1" (containers (instanceAfter None [[model1; model2]]))
          = Some (containerOf model1 0 0)) as Hget by (vm_compute; reflexivity).
  assert (SectorContainer.sectorIdOffset (containerOf model1 0 0) ≤ 0
          < SectorContainer.sectorIdOffset (containerOf model1 0 0)
            + length (SectorContainer.sectors (containerOf model1 0 0))) as Hg
    by (simpl; lia).
  assert ("model1" ∉ blobUrls [model2]) as Hk.
  { intros Hin%list_elem_of_singleton. discriminate Hin. }
  assert (setModels [model2] (instanceAfter None [[model1; model2]])
          = Ok (instanceAfter None [[model1; model2]; [model2]])) as Hrun
    by (vm_compute; reflexivity).
  assert (calls [SetModels [model1; model2]]
            (instanceAfter None [[model1; model2]; [model2]])
          = Ok (instanceAfter None [[model1; model2]; [model2]; [model1; model2]]))
    as Hsteps by (vm_compute; reflexivity).
  split; [exact Hr|]. split; [exact Hget|]. split; [exact Hk|].
  split; [exact Hrun|]. split; [exact Hsteps|]. split; [vm_compute; reflexivity|].
  rewrite (removed_ids_never_resolve _ _ _ _ _ _ _ 0 Hr Hget Hg Hk Hrun Hsteps).
  vm_compute. reflexivity.
Defined.

(** ** The slots of a proxy mesh *)

Lemma addSectors_snoc sectorIdOffset sectors sector mesh :
  addSectors sectorIdOffset (sectors ++ [sector]) mesh
  = addSectors sectorIdOffset [sector] (addSectors sectorIdOffset sectors mesh).
Proof. unfold addSectors. by rewrite foldl_app. Qed.

Lemma addSectors_last sectorIdOffset sectors mesh i :
  i < length (InstancedMesh.instanceMatrix mesh) ->
  4 * i + 3 < length (InstancedMesh.instanceValues mesh) ->
  slot (addSectors sectorIdOffset sectors mesh) i
  = match last (filter (fun s => SectorMetadata.id s = i) sectors) with
    | Some sector => slot_of sectorIdOffset sector
    | None => slot mesh i
    end.
Proof.
  intros Hm Hv. induction sectors as [|sector sectors IH] using rev_ind; [done|].
  rewrite addSectors_snoc, filter_app, filter_cons, filter_nil.
  destruct (addSectors_size sectorIdOffset sectors mesh) as (_ & Hlm & Hlv).
  destruct (decide (SectorMetadata.id sector = i)) as [Hi|Hi].
  - rewrite last_snoc. rewrite <- Hi. apply addSector_slot; rewrite ?Hlm, ?Hlv; lia.
  - rewrite app_nil_r, <- IH. by apply addSector_other.
Qed.

(** X9: What each instance slot of the mesh built by [createSectorTreeMesh]
    holds: slot [i] (below the sector count) holds the transform, encoded id
    and coverage factors of the last sector of the list whose [id] is [i], and
    stays zero-filled when no sector has that id. So a sector whose [id] is
    not below the sector count gets no slot, and of two sectors with the same
    [id] the later one wins. *)
Theorem createSectorTreeMesh_slots sectorIdOffset sectors modelMatrix i :
  i < length sectors ->
  slot (Group.mesh (createSectorTreeMesh sectorIdOffset sectors modelMatrix)) i
  = match last (filter (fun s => SectorMetadata.id s = i) sectors) with
    | Some sector => slot_of sectorIdOffset sector
    | None => (Some Matrix4.zero, Some 0%R, Some 0%R, Some 0%R, Some 0%R)
    end.
Proof.
  intros Hi. rewrite createSectorTreeMesh_mesh, addSectors_last; simpl;
    rewrite ?length_replicate; try lia.
  destruct (last _); [done|]. unfold slot. simpl.
  rewrite !lookup_replicate_2 by lia. done.
Qed.

(** X9, witness: two sectors with id 1 and one with id 5 in a list of
    three. *)
Lemma createSectorTreeMesh_slots_witness :
  slot (Group.mesh (createSectorTreeMesh 7
                      [coveredSector 1 (1 / 2); coveredSector 1 1; coveredSector 5 1]
                      identityMatrix)) 1
  = slot_of 7 (coveredSector 1 1)
  ∧ slot (Group.mesh (createSectorTreeMesh 7
                        [coveredSector 1 (1 / 2); coveredSector 1 1; coveredSector 5 1]
                        identityMatrix)) 0
    = (Some Matrix4.zero, Some 0%R, Some 0%R, Some 0%R, Some 0%R).
Proof.
  split.
  - rewrite (createSectorTreeMesh_slots 7 _ identityMatrix 1) by (simpl; lia).
    reflexivity.
  - rewrite (createSectorTreeMesh_slots 7 _ identityMatrix 0) by (simpl; lia).
    reflexivity.
Defined.

(** X25: The id a proxy encodes for a sector resolves back to the sector.
    On a reachable instance the mesh of a tracked container holds, in the
    slot of a sector whose [id] is below the sector count, the value offset +
    id; [findSectorContainer] resolves that value to the same container, and
    the entry built for it names the container's model and the sector's
    [id]. *)
Theorem proxy_ids_resolve st k c g sector :
  reachable st ->
  JsMap.get k (containers st) = Some c ->
  objects st !! SectorContainer.renderable c = Some g ->
  sector ∈ SectorContainer.sectors c ->
  SectorMetadata.id sector < length (SectorContainer.sectors c) ->
  InstancedMesh.instanceValues (Group.mesh g) !! (4 * SectorMetadata.id sector)
  = Some (INR (SectorContainer.sectorIdOffset c + SectorMetadata.id sector))
  ∧ findSectorContainer st
      (SectorContainer.sectorIdOffset c + SectorMetadata.id sector) = Ok c
  ∧ forall totalWeight x,
      SectorVisibility.sectorIdWithOffset x
      = SectorContainer.sectorIdOffset c + SectorMetadata.id sector ->
      exists e,
        toPrioritized st totalWeight x = Ok e
        ∧ PrioritizedSectorIdentifier.model e = SectorContainer.model c
        ∧ PrioritizedSectorIdentifier.sectorId e = SectorMetadata.id sector.
Proof.
  intros Hr Hget Hg Hin Hid. pose proof (reachable_ok st Hr) as Hok.
  destruct (reachable_proxy_built st Hr k c Hget) as (g' & Hg' & Hbuilt & _).
  assert (g' = g) as -> by congruence.
  assert (find_container (JsMap.values (containers st))
            (SectorContainer.sectorIdOffset c + SectorMetadata.id sector) = Some c)
    as Hfind.
  { apply (find_container_ordered 0 _ (sectorIdOffset st) c); [apply Hok| |].
    - apply list_elem_of_fmap. exists (k, c). split; [done|]. by apply tracked_elem.
    - apply contains_id_spec. unfold range_end, sectorCount. lia. }
  split; [|split].
  - rewrite Hbuilt, createSectorTreeMesh_mesh.
    pose proof (addSectors_last (SectorContainer.sectorIdOffset c)
                  (SectorContainer.sectors c)
                  {| InstancedMesh.count := length (SectorContainer.sectors c);
                     InstancedMesh.instanceMatrix :=
                       replicate (length (SectorContainer.sectors c)) Matrix4.zero;
                     InstancedMesh.instanceValues :=
                       replicate (4 * length (SectorContainer.sectors c)) 0%R |}
                  (SectorMetadata.id sector)) as Hslot.
    cbn [InstancedMesh.instanceMatrix InstancedMesh.instanceValues] in Hslot.
    rewrite !length_replicate in Hslot.
    specialize (Hslot Hid ltac:(lia)).
    destruct (last (filter _ (SectorContainer.sectors c))) as [s'|] eqn:Hlast.
    + assert (SectorMetadata.id s' = SectorMetadata.id sector) as Hs'.
      { apply last_Some_elem_of, list_elem_of_filter in Hlast as [? _]. done. }
      unfold slot, slot_of, slot_for in Hslot. rewrite Hs' in Hslot.
      apply (f_equal (fun t => t.1.1.1.2)) in Hslot. simpl in Hslot.
      by rewrite Nat.add_0_r in Hslot.
    + exfalso. apply last_None in Hlast.
      assert (sector ∈ filter (fun s => SectorMetadata.id s = SectorMetadata.id sector)
                         (SectorContainer.sectors c)) as Hf
        by (by apply list_elem_of_filter).
      rewrite Hlast in Hf. by apply elem_of_nil in Hf.
  - unfold findSectorContainer. by rewrite Hfind.
  - intros totalWeight x Hx. eexists. split.
    + apply toPrioritized_found. rewrite Hx. exact Hfind.
    + simpl. split; [done|]. rewrite Hx. lia.
Qed.

(** X25, witness: the second model of two; its first sector has id 1 and
    is encoded as 2. *)
Lemma proxy_ids_resolve_witness :
  let st := instanceAfter None [[model1; swappedModel]] in
  let c := containerOf swappedModel 1 1 in
  exists g,
    reachable st
    ∧ JsMap.get "swapped" (containers st) = Some c
    ∧ objects st !! 1 = Some g
    ∧ InstancedMesh.instanceValues (Group.mesh g) !! 4 = Some (INR 2)
    ∧ findSectorContainer st 2 = Ok c.
Proof.
  cbv zeta.
  pose proof (instanceAfter_reachable None [[model1; swappedModel]]) as Hr.
  assert (JsMap.get "swapped"
            (containers (instanceAfter None [[model1; swappedModel]]))
          = Some (containerOf swappedModel 1 1)) as Hget by (vm_compute; reflexivity).
  eexists.
  match goal with |- _ ∧ _ ∧ ?o = Some ?x ∧ _ => assert (Hg : o = Some x) end.
  { vm_compute. reflexivity. }
  split; [exact Hr|]. split; [exact Hget|]. split; [exact Hg|].
  assert (coveredSector 1 (1 / 2)
          ∈ SectorContainer.sectors (containerOf swappedModel 1 1)) as Hin.
  { apply elem_of_cons. by left. }
  assert (SectorMetadata.id (coveredSector 1 (1 / 2))
          < length (SectorContainer.sectors (containerOf swappedModel 1 1))) as Hid
    by (simpl; lia).
  destruct (proxy_ids_resolve _ _ _ _ _ Hr Hget Hg Hin Hid) as (Hv & Hf & _).
  split; [exact Hv | exact Hf].
Defined.

(** ** The weight function *)

Section WeightShape.
Local Open Scope R_scope.

(** X22: The weight function of [unpackSectorVisibility] "prioritizes
    pixels in the middle of the screen": a position farther from the centre
    gets a strictly smaller weight. *)
Theorem weight_prefers_centre x1 y1 x2 y2 :
  x1 * x1 + y1 * y1 < x2 * x2 + y2 * y2 -> weight x2 y2 < weight x1 y1.
Proof. apply weight_decreasing. Qed.

(** X22, witness: the right edge against the centre. *)
Lemma weight_prefers_centre_witness : weight 1 0 < weight 0 0.
Proof. apply weight_prefers_centre. lra. Defined.

Lemma weight_centre : weight 0 0 = 9 / 4.
Proof.
  unfold weight. replace (0 * 0 + 0 * 0) with 0 by lra.
  rewrite sqrt_0, Ropp_0, exp_0. lra.
Qed.

Lemma weight_radial x1 y1 x2 y2 :
  x1 * x1 + y1 * y1 = x2 * x2 + y2 * y2 -> weight x1 y1 = weight x2 y2.
Proof. unfold weight. by intros ->. Qed.

(** X23: For a position on the screen (both normalised coordinates in
    [-1, 1]) the weight lies between the weight of a corner, which is
    positive, and the weight of the centre, which is 9/4. *)
Theorem weight_range_on_screen x y :
  -1 <= x <= 1 -> -1 <= y <= 1 ->
  0 < weight 1 1 <= weight x y /\ weight x y <= weight 0 0 /\ weight 0 0 = 9 / 4.
Proof.
  intros Hx Hy. split; [split|split].
  - apply weight_pos; lra.
  - destruct (Rle_lt_or_eq_dec (x * x + y * y) (1 * 1 + 1 * 1)) as [Hlt|Heq].
    + nra.
    + left. by apply weight_decreasing.
    + right. by apply weight_radial.
  - destruct (Rle_lt_or_eq_dec (0 * 0 + 0 * 0) (x * x + y * y)) as [Hlt|Heq].
    + nra.
    + left. by apply weight_decreasing.
    + right. by apply weight_radial.
  - apply weight_centre.
Qed.

(** X23, witness: a position on the lower edge. *)
Lemma weight_range_on_screen_witness :
  0 < weight 1 1 <= weight (1 / 2) (-1) /\ weight (1 / 2) (-1) <= 9 / 4.
Proof.
  destruct (weight_range_on_screen (1 / 2) (-1)) as (H1 & H2 & H3); [lra | lra |].
  split; [exact H1|]. rewrite <- H3. exact H2.
Defined.
End WeightShape.

(** ** Decoding a pixel *)

Lemma decode_Some buffer i g d :
  decode buffer i = Some (g, d) ->
  g = byteAt buffer (4 * i + 2) + byteAt buffer (4 * i + 1) * 255
      + byteAt buffer (4 * i + 0) * 255 * 255
  ∧ d = byteAt buffer (4 * i + 3).
Proof.
  unfold decode. destruct (negb _ || negb _ || negb _); [|done].
  intros [= <- <-]. split; reflexivity.
Qed.

(** X24: The id decoding B + G * 255 + R * 255 * 255 is one-to-one on
    colours whose three channels are below 255: two pixels with such colours
    that decode to the same id have the same colour, and the id is below
    255^3. *)
Theorem decode_unique_below_255 buffer1 i1 buffer2 i2 g d1 d2 :
  (forall k, k < 3 -> byteAt buffer1 (4 * i1 + k) < 255) ->
  (forall k, k < 3 -> byteAt buffer2 (4 * i2 + k) < 255) ->
  decode buffer1 i1 = Some (g, d1) ->
  decode buffer2 i2 = Some (g, d2) ->
  g < 255 * 255 * 255
  ∧ forall k, k < 3 -> byteAt buffer1 (4 * i1 + k) = byteAt buffer2 (4 * i2 + k).
Proof.
  intros H1 H2 [Hid1 _]%decode_Some [Hid2 _]%decode_Some.
  pose proof (H1 0 ltac:(lia)) as Hr1. pose proof (H1 1 ltac:(lia)) as Hg1.
  pose proof (H1 2 ltac:(lia)) as Hb1.
  pose proof (H2 0 ltac:(lia)) as Hr2. pose proof (H2 1 ltac:(lia)) as Hg2.
  pose proof (H2 2 ltac:(lia)) as Hb2.
  split; [lia|].
  intros k Hk.
  assert (k = 0 ∨ k = 1 ∨ k = 2) as [-> | [-> | ->]] by lia; lia.
Qed.

(** X24, witness: the colour (0, 1, 2) at two places. *)
Lemma decode_unique_below_255_witness :
  decode [x00; x01; x02; x0a] 0 = Some (257, 10)
  ∧ decode [xff; xff; xff; xff;  x00; x01; x02; xc8] 1 = Some (257, 200)
  ∧ 257 < 255 * 255 * 255.
Proof.
  assert (decode [x00; x01; x02; x0a] 0 = Some (257, 10)) as Hd1
    by (vm_compute; reflexivity).
  assert (decode [xff; xff; xff; xff;  x00; x01; x02; xc8] 1 = Some (257, 200))
    as Hd2 by (vm_compute; reflexivity).
  split; [exact Hd1|]. split; [exact Hd2|].
  refine (proj1 (decode_unique_below_255 _ 0 _ 1 257 10 200 _ _ Hd1 Hd2)).
  - intros k Hk. assert (k = 0 ∨ k = 1 ∨ k = 2) as [-> | [-> | ->]] by lia;
      vm_compute; lia.
  - intros k Hk. assert (k = 0 ∨ k = 1 ∨ k = 2) as [-> | [-> | ->]] by lia;
      vm_compute; lia.
Defined.
